(** * Skyline kernel: scheduler ready queues and guest synchronisation primitives

  A shallow embedding of

  - [skyline/kernel/scheduler.cpp] ([Scheduler::InsertThread], [RemoveThread],
    [Rotate], [UpdatePriority], [LoadBalance], [WakeParkedThread]) together
    with [KThread::IsHigherPriority] from [skyline/kernel/types/KThread.h];
  - the mutex and condition-variable operations of [KProcess]
    ([MutexLock], [MutexUnlock], [ConditionalVariableWait],
    [ConditionalVariableSignal]).

  Machine integers are [Z] with their wrap-around written out, a
  [std::list<std::shared_ptr<KThread>>] is a list of thread identities that
  is resolved through a store of thread objects (so that a flag written
  through one pointer is seen through every other), and the operations run
  in a small state-and-exception monad whose third outcome is undefined
  behaviour of the C++ program. *)

From Stdlib Require Import ZArith Lia Bool.
From stdpp Require Import base list sorting gmap.
From Equations Require Import Equations.

Open Scope Z_scope.

(** ** Machine integers *)

Definition wrap8 (z : Z) : Z := z mod 2 ^ 8.
Definition wrap32 (z : Z) : Z := z mod 2 ^ 32.
Definition wrap64 (z : Z) : Z := z mod 2 ^ 64.

(** Conversion of an 8-bit pattern to [i8] (two's complement). *)
Definition to_i8 (z : Z) : Z :=
  let u := wrap8 z in if u <? 128 then u else u - 256.

(** ** [std::upper_bound]

  The search both libc++ and libstdc++ run: halve the remaining length,
  probe the middle element, keep the left half when the comparator holds and
  the right half otherwise. Iterators are positions in the list. *)

Section UpperBound.
Context {A : Type}.

Equations? upper_bound_loop (comp : A → bool) (l : list A)
    (first len : nat) : nat by wf len lt :=
  upper_bound_loop comp l first 0%nat := first;
  upper_bound_loop comp l first (S n) with l !! (first + Nat.div2 (S n))%nat => {
    | Some x with comp x => {
      | true := upper_bound_loop comp l first (Nat.div2 (S n));
      | false := upper_bound_loop comp l (first + Nat.div2 (S n) + 1)%nat
                   (S n - Nat.div2 (S n) - 1)%nat };
    | None := first }.
Proof.
  all: pose proof (Nat.lt_div2 (S n) ltac:(lia)) as Hhalf; simpl in *; lia.
Qed.

Definition upper_bound (comp : A → bool) (l : list A) : nat :=
  upper_bound_loop comp l 0 (length l).

End UpperBound.

(** ** Lists as [std::list]: positions, insertion, splicing *)

Section ListOps.
Context {A : Type}.

(** [l.insert(pos, x)]: [x] goes in front of the element at [pos]. *)
Definition insert_at (pos : nat) (x : A) (l : list A) : list A :=
  take pos l ++ x :: drop pos l.

(** [l.splice(pos, l, l.begin())]: the first element is relinked in front
    of the element at [pos]; nothing moves when [pos] is the element itself
    or its successor. *)
Definition splice_front (pos : nat) (l : list A) : list A :=
  match l, pos with
  | [], _ => []
  | _ :: _, O => l
  | x :: r, S k => take k r ++ x :: drop k r
  end.

(** [std::find]: position of the first occurrence, [None] for [end()]. *)
Definition find_pos `{EqDecision A} (x : A) (l : list A) : option nat :=
  fst <$> list_find (λ y, y = x) l.
End ListOps.

(** ** Lists kept in ascending order of a key

  The facts about [upper_bound], [insert_at] and [splice_front] that the
  ready queues rely on, for an arbitrary integer key. *)

Section Ascending.
Context {A : Type} (key : A → Z).

Definition ascending (l : list A) : Prop :=
  StronglySorted (λ a b, key a ≤ key b) l.

(** Entries whose key is at most [p], and entries whose key is above. *)
Definition upto (p : Z) (l : list A) : list A := filter (λ a, key a ≤ p) l.
Definition above (p : Z) (l : list A) : list A := filter (λ a, p < key a) l.

End Ascending.

(** ** The scheduler ([skyline/kernel/scheduler.cpp]) *)

Module Scheduler.

(** Identity of a [KThread] object; every [std::shared_ptr<KThread>] of the
    program is one of these and is resolved through the store of [Sched]. *)
Definition tid := nat.

Record KThread := mkKThread {
  priority : Z;            (* std::atomic<u8> *)
  coreId : Z;              (* i8 *)
  affinityMask : list bool;(* CoreMask, a std::bitset with one bit per core *)
  timesliceStart : Z;      (* u64 *)
  averageTimeslice : Z;    (* u64 *)
  isPreempted : bool;
  pendingYield : bool;
  forceYield : bool }.

Record CoreContext := mkCore {
  id : Z;                  (* u8 *)
  preemptionPriority : Z;  (* u8 *)
  queue : list tid }.      (* std::list<std::shared_ptr<KThread>> *)

(** What the scheduler does to the outside world. *)
Inductive event :=
  | SendSignal (t : tid)              (* t->SendSignal(YieldSignal) *)
  | TimerSet (t : tid) (armed : bool) (* timer_settime(t->preemptionTimer, ..) *)
  | FrontNotify (core : nat)          (* core.frontCondition.notify_all() *)
  | ParkedNotify                      (* parkedFrontCondition.notify_all() *)
  | LogDebug (t : tid).               (* state.logger->Debug(..) *)

Record Sched := mkSched {
  cores : list CoreContext;  (* std::array<CoreContext, CoreCount> *)
  threads : tid → KThread;   (* the KThread objects *)
  parkedQueue : list tid;
  current : tid;             (* state.thread *)
  YieldPending : bool;       (* thread_local flag of the calling host thread *)
  trace : list event }.

Inductive exn := OutOfRange | Exception.

Inductive outcome (A : Type) :=
  | Ok (a : A) (s : Sched)
  | Throw (e : exn) (s : Sched)
  | Undefined.
Arguments Ok {A} a s.
Arguments Throw {A} e s.
Arguments Undefined {A}.

Definition M (A : Type) := Sched → outcome A.

#[export] Instance M_ret : MRet M := λ A a s, Ok a s.
#[export] Instance M_bind : MBind M := λ A B k m s,
  match m s with
  | Ok a s' => k a s'
  | Throw e s' => Throw e s'
  | Undefined => Undefined
  end.
Definition get : M Sched := λ s, Ok s s.
Definition throw {A} (e : exn) : M A := λ s, Throw e s.
Definition undefined {A} : M A := λ _, Undefined.
Definition when (b : bool) (m : M unit) : M unit := if b then m else mret tt.

(** *** Field updates *)

Definition set_coreId (v : Z) (t : KThread) : KThread :=
  mkKThread (priority t) v (affinityMask t) (timesliceStart t)
    (averageTimeslice t) (isPreempted t) (pendingYield t) (forceYield t).
Definition set_averageTimeslice (v : Z) (t : KThread) : KThread :=
  mkKThread (priority t) (coreId t) (affinityMask t) (timesliceStart t)
    v (isPreempted t) (pendingYield t) (forceYield t).
Definition set_isPreempted (v : bool) (t : KThread) : KThread :=
  mkKThread (priority t) (coreId t) (affinityMask t) (timesliceStart t)
    (averageTimeslice t) v (pendingYield t) (forceYield t).
Definition set_pendingYield (v : bool) (t : KThread) : KThread :=
  mkKThread (priority t) (coreId t) (affinityMask t) (timesliceStart t)
    (averageTimeslice t) (isPreempted t) v (forceYield t).
Definition set_forceYield (v : bool) (t : KThread) : KThread :=
  mkKThread (priority t) (coreId t) (affinityMask t) (timesliceStart t)
    (averageTimeslice t) (isPreempted t) (pendingYield t) v.
(** The priority field is written by the callers of [UpdatePriority]. *)
Definition set_priority (v : Z) (t : KThread) : KThread :=
  mkKThread v (coreId t) (affinityMask t) (timesliceStart t)
    (averageTimeslice t) (isPreempted t) (pendingYield t) (forceYield t).

Definition set_queue (q : list tid) (c : CoreContext) : CoreContext :=
  mkCore (id c) (preemptionPriority c) q.

(** Write through a thread pointer. *)
Definition update (t : tid) (f : KThread → KThread) : M unit :=
  λ s, Ok tt (mkSched (cores s)
                (λ u, if decide (u = t) then f (threads s u) else threads s u)
                (parkedQueue s) (current s) (YieldPending s) (trace s)).

(** Replace the queue of the core at index [c]. *)
Definition put_queue (c : nat) (q : list tid) : M unit :=
  λ s, Ok tt (mkSched (alter (set_queue q) c (cores s)) (threads s)
                (parkedQueue s) (current s) (YieldPending s) (trace s)).
Definition put_YieldPending (b : bool) : M unit :=
  λ s, Ok tt (mkSched (cores s) (threads s) (parkedQueue s) (current s) b
                (trace s)).
Definition emit (e : event) : M unit :=
  λ s, Ok tt (mkSched (cores s) (threads s) (parkedQueue s) (current s)
                (YieldPending s) (trace s ++ [e])).

(** [cores.at(coreId)]: the index is the [i8] converted to [size_t], so a
    negative or too large value throws [std::out_of_range]. The result stands
    for the reference: the index of the core together with its contents. *)
Definition cores_at (c : Z) : M (nat * CoreContext) :=
  λ s, if c <? 0 then Throw OutOfRange s
       else match cores s !! Z.to_nat c with
            | Some core => Ok (Z.to_nat c, core) s
            | None => Throw OutOfRange s
            end.

(** [affinityMask.test(pos)] throws for a position outside the bitset. *)
Definition mask_test (mask : list bool) (pos : Z) : M bool :=
  λ s, match mask !! Z.to_nat pos with
       | Some b => Ok b s
       | None => Throw OutOfRange s
       end.

(** [affinityMask.count()] *)
Definition mask_count (mask : list bool) : nat :=
  length (filter (λ b, b = true) mask).

(** [KThread::IsHigherPriority(const i8 priority, it)]: the first argument
    is the loaded [u8] converted to [i8]; both sides are promoted to [int]
    for the comparison. *)
Definition IsHigherPriority (s : Sched) (priority_ : Z) (it : tid) : bool :=
  to_i8 priority_ <? priority (threads s it).

(** [(averageTimeslice / 4) + (3 * (GetTimeTicks() - timesliceStart / 4))]
    in [u64], as the source parenthesises it. *)
Definition next_average (now : Z) (t : KThread) : Z :=
  wrap64 (averageTimeslice t / 4
          + wrap64 (3 * wrap64 (now - timesliceStart t / 4))).

(** Disarm a preemption timer: [timer_settime] with a zeroed spec. *)
Definition disarm (t : tid) : M unit := emit (TimerSet t false).

(** Arm it for one [PreemptiveTimeslice]. *)
Definition arm (t : tid) : M unit := emit (TimerSet t true).

(** [if (!t->pendingYield) { t->SendSignal(YieldSignal); t->pendingYield = true; }] *)
Definition yield_once (t : tid) : M unit :=
  s ← get;
  when (negb (pendingYield (threads s t)))
    (emit (SendSignal t);; update t (set_pendingYield true)).

Definition InsertThread (thread : tid) : M unit :=
  s ← get;
  core ← cores_at (coreId (threads s thread));
  let '(c, core) := core in
  let q := queue core in
  let nextThread := upper_bound (IsHigherPriority s (priority (threads s thread))) q in
  if decide (nextThread = 0%nat) then
    match q with
    | front :: _ =>
        update front (set_forceYield true);;
        put_queue c
          (thread :: splice_front
             (upper_bound (IsHigherPriority s (priority (threads s front))) q) q);;
        (if decide (current s ≠ front) then yield_once front
         else put_YieldPending true)
    | [] => put_queue c [thread]
    end;;
    when (bool_decide (thread ≠ current s)) (emit (FrontNotify c))
  else put_queue c (insert_at nextThread thread q).

(** The clock reading [util::GetTimeTicks()] is an argument of the
    operations that take one. *)
Definition RemoveThread (now : Z) : M unit :=
  s ← get;
  let thread := current s in
  core ← cores_at (coreId (threads s thread));
  let '(c, core) := core in
  match find_pos thread (queue core) with
  | Some it =>
      let q := delete it (queue core) in
      put_queue c q;;
      when (bool_decide (it = 0%nat))
        (when (negb (timesliceStart (threads s thread) =? 0))
           (update thread
              (set_averageTimeslice (next_average now (threads s thread))));;
         when (bool_decide (q ≠ [])) (emit (FrontNotify c)))
  | None => mret tt
  end;;
  when (isPreempted (threads s thread))
    (disarm thread;; update thread (set_isPreempted false));;
  put_YieldPending false.

Definition Rotate (cooperative : bool) (now : Z) : M unit :=
  s ← get;
  let thread := current s in
  core ← cores_at (coreId (threads s thread));
  let '(c, core) := core in
  match queue core with
  | [] => undefined (* core.queue.front() of an empty list *)
  | front :: _ =>
      if decide (front = thread) then
        let q := splice_front
                   (upper_bound (IsHigherPriority s (priority (threads s thread)))
                      (queue core)) (queue core) in
        put_queue c q;;
        when (bool_decide (head q ≠ Some thread)) (emit (FrontNotify c))
      else if negb (forceYield (threads s thread)) then throw Exception
      else mret tt
  end;;
  update thread (set_averageTimeslice (next_average now (threads s thread)));;
  when (cooperative && isPreempted (threads s thread)) (disarm thread);;
  update thread (set_isPreempted false);;
  update thread (set_pendingYield false);;
  update thread (set_forceYield false).

(** Iterators into a queue are positions, [length q] standing for [end()]. *)
Definition UpdatePriority (thread : tid) : M unit :=
  s ← get;
  core ← cores_at (coreId (threads s thread));
  let '(c, core) := core in
  let comp := IsHigherPriority s (priority (threads s thread)) in
  let q := queue core in
  let currentIt := default (length q) (find_pos thread q) in
  if bool_decide (currentIt = length q) || bool_decide (currentIt = 0%nat)
  then mret tt
  else if bool_decide (currentIt = 0%nat) then
    let rearm :=
      when (negb (isPreempted (threads s thread))
            && (priority (threads s thread) =? preemptionPriority core))
        (arm thread;; update thread (set_isPreempted true)) in
    match q !! S currentIt with
    | Some nextIt =>
        if priority (threads s nextIt) <? priority (threads s thread)
        then yield_once thread
        else rearm
    | None => rearm
    end
  else
    let targetIt := upper_bound comp q in
    if bool_decide (currentIt = targetIt) then mret tt
    else
      let q := delete currentIt q in
      put_queue c q;;
      when (isPreempted (threads s thread)
            && negb (priority (threads s thread) =? preemptionPriority core))
        (disarm thread;; update thread (set_isPreempted false));;
      let targetIt := upper_bound comp q in
      if bool_decide (targetIt = 0%nat) && bool_decide (targetIt ≠ length q)
      then
        let q := insert_at 1 thread q in
        put_queue c q;;
        match q with
        | front :: _ => yield_once front
        | [] => undefined
        end
      else put_queue c (insert_at targetIt thread q).

(** [WakeParkedThread]: a null [nextThread] is [None]; reading a field
    through it is undefined behaviour. *)
Definition WakeParkedThread : M unit :=
  s ← get;
  match parkedQueue s with
  | [] => mret tt
  | parkedThread :: _ =>
      let thread := current s in
      core ← cores_at (coreId (threads s thread));
      let '(c, core) := core in
      let nextThread :=
        if bool_decide (1 < length (queue core))%nat then queue core !! 1%nat
        else None in
      match nextThread with
      | None => undefined (* nextThread->priority on a null pointer *)
      | Some n =>
          let nextThread :=
            if priority (threads s n) =? priority (threads s thread)
            then Some n else None in
          when ((priority (threads s parkedThread) <? priority (threads s thread))
                || ((priority (threads s parkedThread) =? priority (threads s thread))
                    && match nextThread with
                       | None => true
                       | Some n => timesliceStart (threads s parkedThread)
                                   <? timesliceStart (threads s n)
                       end))
            (update parkedThread
               (set_coreId (coreId (threads s thread)));;
             emit ParkedNotify)
      end
  end.

(** Estimated wait on one candidate core, [timeslice] of [LoadBalance]:
    [now] is the clock reading taken for the running thread. *)
Definition estimate (s : Sched) (thread : tid) (now : Z) (q : list tid) : Z :=
  match q with
  | [] => 0
  | runningThread :: rest =>
      let r := threads s runningThread in
      let first :=
        if negb (averageTimeslice r =? 0)
        then Z.min (wrap64 (averageTimeslice r - wrap64 (now - timesliceStart r))) 1
        else if negb (timesliceStart r =? 0)
             then wrap64 (now - timesliceStart r)
             else 1 in
      foldl (λ timeslice residentThread,
               let t := threads s residentThread in
               if priority t <=? priority (threads s thread)
               then wrap64 (timeslice
                            + (if negb (averageTimeslice t =? 0)
                               then averageTimeslice t else 1))
               else timeslice)
            first rest
  end.

(** The loop over [cores] of [LoadBalance]; [optimalCore] is the index of
    the chosen core, [None] for the null pointer. *)
Fixpoint select_core (s : Sched) (thread : tid) (currentCore : nat)
    (now : nat → Z) (i : nat) (cs : list CoreContext)
    (optimalCore : option nat) (minTimeslice : Z) : M (option nat * Z) :=
  match cs with
  | [] => mret (optimalCore, minTimeslice)
  | candidateCore :: cs' =>
      b ← mask_test (affinityMask (threads s thread)) (id candidateCore);
      if (b : bool) then
        let timeslice := estimate s thread (now i) (queue candidateCore) in
        if bool_decide (optimalCore = None) || (timeslice <? minTimeslice)
           || ((timeslice =? minTimeslice) && bool_decide (i = currentCore))
        then select_core s thread currentCore now (S i) cs' (Some i) timeslice
        else select_core s thread currentCore now (S i) cs' optimalCore minTimeslice
      else select_core s thread currentCore now (S i) cs' optimalCore minTimeslice
  end.

(** [LoadBalance] returns a reference to a core: its index. [now i] is the
    clock reading taken while core [i] is examined, [nowRemove] the one
    taken by [RemoveThread]. *)
Definition LoadBalance (thread : tid) (alwaysInsert : bool)
    (now : nat → Z) (nowRemove : Z) : M nat :=
  s ← get;
  core ← cores_at (coreId (threads s thread));
  let '(currentCore, core) := core in
  if negb (bool_decide (queue core = []))
     && negb (bool_decide (mask_count (affinityMask (threads s thread)) = 1%nat))
  then
    r ← select_core s thread currentCore now 0 (cores s) None 0;
    let '(optimalCore, _) := r in
    if decide (optimalCore ≠ Some currentCore) then
      (if negb alwaysInsert && bool_decide (thread = current s)
       then RemoveThread nowRemove
       else if negb alwaysInsert && bool_decide (thread ≠ current s)
            then throw Exception
            else mret tt);;
      match optimalCore with
      | None => undefined (* optimalCore->id on a null pointer *)
      | Some o =>
          match cores s !! o with
          | None => undefined
          | Some optimal =>
              update thread (set_coreId (to_i8 (id optimal)));;
              InsertThread thread;;
              emit (LogDebug thread);;
              mret o
          end
      end
    else
      when alwaysInsert (InsertThread thread);;
      emit (LogDebug thread);;
      mret currentCore
  else
    when alwaysInsert (InsertThread thread);;
    emit (LogDebug thread);;
    mret currentCore.

(** *** Vocabulary for the statements about the scheduler *)

Definition prio (s : Sched) (u : tid) : Z := priority (threads s u).

(** The ready queue of the core at index [c]. *)
Definition queue_at (s : Sched) (c : nat) : list tid :=
  default [] (queue <$> cores s !! c).

(** Sorted by non-decreasing numeric priority. *)
Definition sorted_queue (s : Sched) (q : list tid) : Prop :=
  ascending (prio s) q.

(** Priorities that survive the conversion to [i8] of [IsHigherPriority]. *)
Definition valid_priorities (s : Sched) : Prop :=
  ∀ u, 0 ≤ prio s u < 128.

(** [thread->coreId] names the core at index [c], whose contents are [core]. *)
Definition on_core (s : Sched) (thread : tid) (c : nat) (core : CoreContext)
    : Prop :=
  0 ≤ coreId (threads s thread)
  ∧ c = Z.to_nat (coreId (threads s thread))
  ∧ cores s !! c = Some core.

(** The state in which the priority field of [thread] has been overwritten,
    as the callers of [UpdatePriority] do before the call. *)
Definition with_priority (thread : tid) (p : Z) (s : Sched) : Sched :=
  mkSched (cores s)
    (λ u, if decide (u = thread) then set_priority p (threads s u) else threads s u)
    (parkedQueue s) (current s) (YieldPending s) (trace s).

(** What [InsertThread] makes of a sorted queue. *)
Definition inserted (s : Sched) (thread : tid) (q : list tid) : list tid :=
  match q with
  | front :: rest =>
      if prio s thread <? prio s front
      then thread :: upto (prio s) (prio s front) rest
                  ++ front :: above (prio s) (prio s front) rest
      else upto (prio s) (prio s thread) q ++ thread :: above (prio s) (prio s thread) q
  | [] => [thread]
  end.

(** What [Rotate] makes of a sorted queue. *)
Definition rotated (s : Sched) (q : list tid) : list tid :=
  match q with
  | front :: rest =>
      upto (prio s) (prio s front) rest ++ front :: above (prio s) (prio s front) rest
  | [] => []
  end.

(** What [RemoveThread] makes of a queue. *)
Definition removed (thread : tid) (q : list tid) : list tid :=
  match find_pos thread q with
  | Some it => delete it q
  | None => q
  end.

(** What [UpdatePriority] makes of the queue from which the thread has been
    unlinked: directly behind the front when the thread outranks it, at the
    position of its priority otherwise. *)
Definition reinserted (s : Sched) (thread : tid) (q : list tid) : list tid :=
  match q with
  | front :: rest =>
      if prio s thread <? prio s front
      then front :: thread :: rest
      else upto (prio s) (prio s thread) q ++ thread :: above (prio s) (prio s thread) q
  | [] => [thread]
  end.

(** The same state seen from the host thread that runs [t]: [state.thread]
    is thread-local. *)
Definition as_thread (t : tid) (s : Sched) : Sched :=
  mkSched (cores s) (threads s) (parkedQueue s) t (YieldPending s) (trace s).

(** The next call is made by the host thread of [t]. *)
Definition switch_to (t : tid) : M unit := λ s, Ok tt (as_thread t s).

(** The queue of core [c] once an operation has returned. *)
Definition queue_of {R} (o : outcome R) (c : nat) : option (list tid) :=
  match o with
  | Ok _ s => Some (queue_at s c)
  | _ => None
  end.

(** Threads A, B and C of the scenario, with priorities 10, 5 and 5, all
    assigned to core 0, whose preemption threshold is 1. *)
Definition A : tid := 0%nat.
Definition B : tid := 1%nat.
Definition C : tid := 2%nat.

Definition idle_core : Sched :=
  mkSched [mkCore 0 1 []]
    (λ u, mkKThread (if decide (u = A) then 10 else 5) 0 [true] 0 0
            false false false)
    [] A false [].

Definition insert_A_B_C (caller : tid) : M unit :=
  switch_to caller;; InsertThread A;; InsertThread B;; InsertThread C.

(** Core 0 with B, C and A queued; B is the running thread. *)
Definition three_ready : Sched :=
  mkSched [mkCore 0 1 [B; C; A]] (threads idle_core) [] B false [].

(** Core 0 with B and A queued. *)
Definition two_ready : Sched :=
  mkSched [mkCore 0 1 [B; A]] (threads idle_core) [] B false [].

(** A, at the head with its priority lowered to 10, has B of priority 5
    behind it: B outranks A, and A is not signalled. *)
Definition outranked_head : Sched :=
  mkSched [mkCore 0 1 [A; B]] (threads idle_core) [] B false [].

(** B runs alone on core 0 while C is parked. *)
Definition one_running_one_parked : Sched :=
  mkSched [mkCore 0 1 [B]] (threads idle_core) [C] B false [].

(** Two cores: B, C and A are queued on core 0, core 1 is idle, and every
    thread may run on either core. C is the calling thread. *)
Definition two_cores : Sched :=
  mkSched [mkCore 0 1 [B; C; A]; mkCore 1 1 []]
    (λ u, mkKThread (if decide (u = A) then 10 else 5) 0 [true; true] 0 0
            false false false)
    [] C false [].

(** [affinityMask.test(coreId)] holds for the thread object [t]. *)
Definition in_mask (t : KThread) : Prop :=
  0 ≤ coreId t ∧ affinityMask t !! Z.to_nat (coreId t) = Some true.

(** The cores carry their index as identifier, as the constructor of the
    scheduler numbers them, and the identifiers fit an [i8]. *)
Definition core_ids_ok (s : Sched) : Prop :=
  ∀ i core, cores s !! i = Some core → id core = Z.of_nat i ∧ (i < 128)%nat.

(** Core assignment and affinity mask of every thread are those of [s]. *)
Definition static (s s' : Sched) : Prop :=
  ∀ u, coreId (threads s' u) = coreId (threads s u)
       ∧ affinityMask (threads s' u) = affinityMask (threads s u).

(** The operation returned or threw, in a state that satisfies [P]. *)
Definition settled {R} (P : Sched → Prop) (o : outcome R) : Prop :=
  match o with
  | Ok _ s' | Throw _ s' => P s'
  | Undefined => False
  end.

Ltac run :=
  repeat progress
    (unfold mbind, M_bind, mret, M_ret, get, throw, undefined, when, yield_once,
       arm, disarm, update, put_queue, put_YieldPending, emit; simpl).

Ltac solve_static :=
  intros ?; simpl; repeat (destruct (decide _); simpl); done.

(** The queue [InsertThread] links [thread] into, for any queue [q]. *)
Definition linked (s : Sched) (thread : tid) (q : list tid) : list tid :=
  let nextThread := upper_bound (IsHigherPriority s (prio s thread)) q in
  if decide (nextThread = 0%nat) then
    match q with
    | front :: _ =>
        thread :: splice_front (upper_bound (IsHigherPriority s (prio s front)) q) q
    | [] => [thread]
    end
  else insert_at nextThread thread q.

(** The events [InsertThread] adds to the trace. *)
Definition insert_events (s : Sched) (thread : tid) (c : nat) (q : list tid)
    : list event :=
  if decide (upper_bound (IsHigherPriority s (prio s thread)) q = 0%nat) then
    match q with
    | front :: _ =>
        if bool_decide (current s ≠ front) && negb (pendingYield (threads s front))
        then [SendSignal front] else []
    | [] => []
    end
    ++ (if bool_decide (thread ≠ current s) then [FrontNotify c] else [])
  else [].

(** Core 0 with B and A queued, B running, while C is parked. *)
Definition two_ready_one_parked : Sched :=
  mkSched [mkCore 0 1 [B; A]] (threads idle_core) [C] B false [].

(** The affinity mask of [thread] permits the core. *)
Definition permitted (s : Sched) (thread : tid) (core : CoreContext) : Prop :=
  affinityMask (threads s thread) !! Z.to_nat (id core) = Some true.

(** [affinityMask.test(core.id)] is in range for every core of [cs]. *)
Definition mask_covers (s : Sched) (thread : tid) (cs : list CoreContext)
    : Prop :=
  Forall (λ core,
            is_Some (affinityMask (threads s thread) !! Z.to_nat (id core))) cs.

(** The core at index [j] is permitted, and [LoadBalance] estimates the wait
    on it as [t]. *)
Definition candidate (s : Sched) (thread : tid) (now : nat → Z)
    (cs : list CoreContext) (j : nat) (t : Z) : Prop :=
  ∃ core, cs !! j = Some core ∧ permitted s thread core
          ∧ t = estimate s thread (now j) (queue core).

(** [optimalCore] and [minTimeslice] once the cores below index [i] have been
    examined: the estimate is the least one, the current core wins a tie,
    and otherwise the first core of least estimate does. *)
Definition best_below (s : Sched) (thread : tid) (currentCore : nat)
    (now : nat → Z) (cs : list CoreContext) (i : nat)
    (optimalCore : option nat) (minTimeslice : Z) : Prop :=
  match optimalCore with
  | None => ∀ j t, (j < i)%nat → ¬ candidate s thread now cs j t
  | Some o =>
      (o < i)%nat ∧ candidate s thread now cs o minTimeslice
      ∧ ∀ j t, (j < i)%nat → candidate s thread now cs j t →
          minTimeslice ≤ t
          ∧ (minTimeslice = t → j ≠ o →
             o = currentCore ∨ (j ≠ currentCore ∧ (o < j)%nat))
  end.

End Scheduler.

(** ** Guest mutexes and condition variables ([KProcess])

    The header that declares [KProcess], [WaitStatus] and
    [constant::MtxOwnerMask] is not part of the sources at hand; the owner
    mask is a parameter of the operations that use it. *)

Module KProcess.

(** The fields of [state.thread] these operations read. *)
Module KThread.
Record t := mk {
  handle : Z;    (* handle_t, u32 *)
  pid : Z;       (* pid_t *)
  priority : Z   (* u8 *) }.
End KThread.

(** Modelled from the spec: the declaration of [WaitStatus] is missing. A
    wait record holds a priority snapshot, the identity of the waiting thread
    and a signalled flag; the fields carry the names the code uses
    ([->priority], [->pid], [->flag]), and a record made by
    [std::make_shared<WaitStatus>(priority, pid)] is unsignalled. *)
Module WaitStatus.
Record t := mk {
  priority : Z;
  pid : Z;
  flag : bool (* set by the thread that signals this waiter *) }.
Definition signal (w : t) : t := mk (priority w) (pid w) true.
End WaitStatus.

Record Process := mkProcess {
  memory : Z → Z;                          (* guest memory, one u32 per address *)
  mutexes : gmap Z (list WaitStatus.t);    (* address ↦ std::vector of waiters *)
  conditionals : gmap Z (list WaitStatus.t) }.

Definition ReadMemory (s : Process) (address : Z) : Z := wrap32 (memory s address).
Definition WriteMemory (v address : Z) (s : Process) : Process :=
  mkProcess (λ a, if decide (a = address) then wrap32 v else memory s a)
    (mutexes s) (conditionals s).

(** Bitwise complement of a [u32]. *)
Definition not32 (v : Z) : Z := wrap32 (Z.lnot v).

(** The insertion loop shared by [MutexLock] and [ConditionalVariableWait]:
    step over every record whose priority value is at least the caller's,
    insert in front of the first one that is smaller, or at the end. *)
Fixpoint enqueue (thread : KThread.t) (waiters : list WaitStatus.t)
    : list WaitStatus.t :=
  match waiters with
  | it :: rest =>
      if Z.geb (WaitStatus.priority it) (KThread.priority thread)
      then it :: enqueue thread rest
      else WaitStatus.mk (KThread.priority thread) (KThread.pid thread) false
           :: waiters
  | [] => [WaitStatus.mk (KThread.priority thread) (KThread.pid thread) false]
  end.

(** The removal loop: erase the first record carrying the caller's pid. *)
Fixpoint dequeue (pid : Z) (waiters : list WaitStatus.t) : list WaitStatus.t :=
  match waiters with
  | it :: rest =>
      if WaitStatus.pid it =? pid then rest else it :: dequeue pid rest
  | [] => []
  end.

(** [c[i]->flag = true] for every [i < amount]. *)
Fixpoint signal_first (amount : nat) (waiters : list WaitStatus.t)
    : list WaitStatus.t :=
  match amount, waiters with
  | S n, it :: rest => WaitStatus.signal it :: signal_first n rest
  | _, _ => waiters
  end.

Section WithOwnerMask.
Variable MtxOwnerMask : Z. (* constant::MtxOwnerMask, a u32 *)

(** [MutexLock] up to the point where the caller starts to wait; the boolean
    tells whether it does (otherwise the call has returned). *)
Definition MutexLock_enter (address owner : Z) (alwaysLock : bool)
    (thread : KThread.t) (s : Process) : Process * bool :=
  let mtxVal := ReadMemory s address in
  let wait :=
    (mkProcess (memory s)
       (<[address := enqueue thread (mutexes s !!! address)]> (mutexes s))
       (conditionals s), true) in
  if alwaysLock then
    if mtxVal =? 0
    then (WriteMemory (Z.land MtxOwnerMask (KThread.handle thread)) address s, false)
    else wait
  else
    if negb (mtxVal =? Z.lor owner (not32 MtxOwnerMask))
    then (s, false)
    else wait.

(** [MutexLock] from the point where the caller has seen its flag set. *)
Definition MutexLock_wake (address : Z) (thread : KThread.t) (s : Process)
    : Process :=
  let mtxWaiters := dequeue (KThread.pid thread) (mutexes s !!! address) in
  let mtxVal :=
    Z.lor (Z.land MtxOwnerMask (KThread.handle thread))
      (if bool_decide (mtxWaiters = []) then 0 else not32 MtxOwnerMask) in
  WriteMemory mtxVal address
    (mkProcess (memory s) (<[address := mtxWaiters]> (mutexes s)) (conditionals s)).

Definition MutexUnlock (address : Z) (thread : KThread.t) (s : Process)
    : Process * bool :=
  let mtxVal := ReadMemory s address in
  if negb (Z.land mtxVal MtxOwnerMask =? KThread.handle thread) then (s, false)
  else
    let mtxWaiters := mutexes s !!! address in
    match mtxWaiters with
    | [] =>
        (WriteMemory 0 address
           (mkProcess (memory s) (<[address := []]> (mutexes s)) (conditionals s)),
         true)
    | first :: rest =>
        (mkProcess (memory s)
           (<[address := WaitStatus.signal first :: rest]> (mutexes s))
           (conditionals s), true)
    end.
End WithOwnerMask.

(** [ConditionalVariableWait] up to the wait loop. *)
Definition ConditionalVariableWait_enter (address : Z) (thread : KThread.t)
    (s : Process) : Process :=
  mkProcess (memory s) (mutexes s)
    (<[address := enqueue thread (conditionals s !!! address)]> (conditionals s)).

(** The wait loop of [ConditionalVariableWait]. Iteration [i] reads the flag
    of the caller's record, [flag i], and, while that is unset, the clock,
    [clock i]. The result is [timedOut] once the loop is left; [None] means
    the loop is still running after [fuel] iterations. *)
Fixpoint wait_loop (fuel : nat) (flag : nat → bool) (clock : nat → Z)
    (start timeout : Z) (i : nat) (timedOut : bool) : option bool :=
  match fuel with
  | O => None
  | S fuel' =>
      if flag i then Some timedOut
      else wait_loop fuel' flag clock start timeout (S i)
             (if timeout <=? wrap64 (clock i - start) then true else timedOut)
  end.

(** [ConditionalVariableWait] after the loop: the caller erases its record. *)
Definition ConditionalVariableWait_leave (address : Z) (thread : KThread.t)
    (timedOut : bool) (s : Process) : Process * bool :=
  (mkProcess (memory s) (mutexes s)
     (<[address := dequeue (KThread.pid thread) (conditionals s !!! address)]>
        (conditionals s)),
   negb timedOut).

(** The whole call as the calling thread runs it. [start] is the first clock
    reading; [woken] is the process state the caller finds when it leaves the
    loop (other threads run in between). *)
Definition ConditionalVariableWait (fuel : nat) (address timeout : Z)
    (thread : KThread.t) (flag : nat → bool) (clock : nat → Z) (start : Z)
    (woken : Process) : option (Process * bool) :=
  timedOut ← wait_loop fuel flag clock start timeout 0 false;
  Some (ConditionalVariableWait_leave address thread timedOut woken).

Definition ConditionalVariableSignal (address amount : Z) (s : Process)
    : Process :=
  let condWaiters := conditionals s !!! address in
  let amount := Z.min (Z.of_nat (length condWaiters)) (wrap64 amount) in
  mkProcess (memory s) (mutexes s)
    (<[address := signal_first (Z.to_nat amount) condWaiters]> (conditionals s)).

(** *** Vocabulary for the statements about wait lists *)

(** A wait list in the order [enqueue] keeps: priority values never grow
    from front to back. *)
Definition descending (l : list WaitStatus.t) : Prop :=
  ascending (λ w, - WaitStatus.priority w) l.

(** The wait list after the given threads have arrived one after another. *)
Definition arrived (arrivals : list KThread.t) : list WaitStatus.t :=
  foldl (λ waiters thread, enqueue thread waiters) [] arrivals.

Definition record_of (thread : KThread.t) : WaitStatus.t :=
  WaitStatus.mk (KThread.priority thread) (KThread.pid thread) false.

(** Three waiters with priorities 5, 10 and 15, and three with 3, 7 and 7. *)
Definition T5 : KThread.t := KThread.mk 0x105 105 5.
Definition T10 : KThread.t := KThread.mk 0x110 110 10.
Definition T15 : KThread.t := KThread.mk 0x115 115 15.
Definition W3 : KThread.t := KThread.mk 0x203 203 3.
Definition W7 : KThread.t := KThread.mk 0x207 207 7.
Definition W7' : KThread.t := KThread.mk 0x208 208 7.

(** A mutex at 0x1000 held by the thread with handle 0x100, with three
    waiters that arrived in the order 10, 5, 15. *)
Definition contended : Process :=
  mkProcess (λ _, 0x40000100) {[ 0x1000 := arrived [T10; T5; T15] ]} ∅.

(** Three waiters on the condition variable at 0x2000 that arrived in the
    order 3, 7, 7. *)
Definition awaited : Process :=
  mkProcess (λ _, 0) ∅ {[ 0x2000 := arrived [W3; W7; W7'] ]}.

(** A handle that is a [u32] and has no bit outside the owner mask. *)
Definition owner_handle (mask handle : Z) : Prop :=
  wrap32 handle = handle ∧ Z.land mask handle = handle.

(** No record of the list belongs to the thread. *)
Definition not_waiting (thread : KThread.t) (l : list WaitStatus.t) : Prop :=
  Forall (λ w, WaitStatus.pid w ≠ KThread.pid thread) l.

End KProcess.

(** ** Parking ([Scheduler::ParkThread])

    [constant::ParkedCoreId] is declared outside the sources at hand and is a
    parameter. The call blocks on [parkedFrontCondition] in its middle: the
    part that runs before the wait and the part that runs after it are two
    operations. *)

Module Parking.
Import Scheduler.

Definition put_parkedQueue (q : list tid) : M unit :=
  λ s, Ok tt (mkSched (cores s) (threads s) q (current s) (YieldPending s)
                (trace s)).

(** A core [ParkThread] may move the caller to: not the one it comes from,
    permitted by its affinity mask, and idle or headed by a thread of
    numerically greater priority. *)
Definition eligible (s : Sched) (thread : tid) (originalCoreId : Z)
    (core : CoreContext) : Prop :=
  originalCoreId ≠ id core ∧ permitted s thread core
  ∧ match queue core with
    | [] => True
    | front :: _ => priority (threads s thread) < priority (threads s front)
    end.

Section WithParkedCoreId.
Variable ParkedCoreId : Z.

(** The loop over [cores]: every core other than the original one that the
    affinity mask permits and whose queue is empty or headed by a thread of
    numerically greater priority is assigned in turn, so the last one stays. *)
Fixpoint pick_core (s : Sched) (thread : tid) (originalCoreId : Z)
    (cs : list CoreContext) : M unit :=
  match cs with
  | [] => mret tt
  | core :: cs' =>
      (if bool_decide (originalCoreId ≠ id core) then
         b ← mask_test (affinityMask (threads s thread)) (id core);
         when ((b : bool)
               && match queue core with
                  | [] => true
                  | front :: _ =>
                      priority (threads s thread) <? priority (threads s front)
                  end)
           (update thread (set_coreId (to_i8 (id core))))
       else mret tt);;
      pick_core s thread originalCoreId cs'
  end.

(** [ParkThread] up to the wait on [parkedFrontCondition]; the boolean tells
    whether the caller parks (and waits) or found a core right away. *)
Definition ParkThread_enter (now : Z) : M bool :=
  s0 ← get;
  let thread := current s0 in
  RemoveThread now;;
  s ← get;
  let originalCoreId := coreId (threads s thread) in
  update thread (set_coreId (to_i8 ParkedCoreId));;
  pick_core s thread originalCoreId (cores s);;
  s' ← get;
  if coreId (threads s' thread) =? ParkedCoreId then
    let q := parkedQueue s' in
    put_parkedQueue
      (insert_at (upper_bound (IsHigherPriority s' (priority (threads s' thread))) q)
         thread q);;
    mret true
  else mret false.

(** The predicate the parked caller waits for. *)
Definition parked_ready (s : Sched) (thread : tid) : bool :=
  bool_decide (head (parkedQueue s) = Some thread)
  && negb (coreId (threads s thread) =? ParkedCoreId).

(** [ParkThread] after the wait (or directly, when the caller did not park). *)
Definition ParkThread_leave : M unit :=
  s ← get;
  InsertThread (current s).
End WithParkedCoreId.

End Parking.

(** ** Waiting to be scheduled ([WaitSchedule], [TimedWaitSchedule],
       [SignalHandler])

    A wait on [frontCondition] hands the processor to the other threads.
    What they do meanwhile is an argument of the operations: the caller that
    goes to sleep in [s] finds the scheduler as [sleep s] when the wait
    returns. The default arguments of [WaitSchedule] and [LoadBalance] are
    declared in a header that is not part of the sources at hand, so the
    calls that rely on them take the value as an argument. *)

Module Waiting.
Import Scheduler.

Definition set_timesliceStart (v : Z) (t : KThread) : KThread :=
  mkKThread (priority t) (coreId t) (affinityMask t) v
    (averageTimeslice t) (isPreempted t) (pendingYield t) (forceYield t).

(** The predicate of the waits,
    [!core->queue.empty() && core->queue.front() == thread], for the core at
    index [c]. *)
Definition at_front (s : Sched) (c : nat) (thread : tid) : bool :=
  negb (bool_decide (queue_at s c = []))
  && bool_decide (head (queue_at s c) = Some thread).

(** What both waits do once the caller is at the front: arm the preemption
    timer when its priority is the preemption priority of the core, and
    start the timeslice. [core] points into the array [cores]; an index
    outside of it can only come from a [sleep] that changes their number. *)
Definition begin_timeslice (now : Z) (c : nat) (thread : tid) : M unit :=
  s ← get;
  match cores s !! c with
  | None => undefined
  | Some core =>
      when (priority (threads s thread) =? preemptionPriority core)
        (arm thread;; update thread (set_isPreempted true));;
      update thread (set_timesliceStart now)
  end.

(** [frontCondition.wait_for(lock, .., pred)]: it returns at once when the
    predicate holds, and otherwise with the value of the predicate when the
    sleep is over. *)
Definition wait_for (sleep : Sched → Sched) (c : nat) (thread : tid) : M bool :=
  λ s, if at_front s c thread then Ok true s
       else Ok (at_front (sleep s) c thread) (sleep s).

Definition TimedWaitSchedule (now : Z) (sleep : Sched → Sched) : M bool :=
  s ← get;
  let thread := current s in
  core ← cores_at (coreId (threads s thread));
  let '(c, _) := core in
  b ← wait_for sleep c thread;
  if (b : bool) then begin_timeslice now c thread;; mret true
  else mret false.

(** One wake-up of a waiting thread: what the other threads did meanwhile,
    and the clock readings of the [LoadBalance] that may follow. *)
Record wakeup := mkWakeup {
  sleep : Sched → Sched;
  clock : nat → Z;
  clockRemove : Z }.

(** [frontCondition.wait(lock, pred)]; the result is [false] when the caller
    is still asleep after the last of the [wakeups]. *)
Fixpoint wait (c : nat) (thread : tid) (wakeups : list wakeup) : M bool :=
  λ s, if at_front s c thread then Ok true s
       else match wakeups with
            | [] => Ok false s
            | w :: rest => wait c thread rest (sleep w s)
            end.

(** The loop of [WaitSchedule] around [wait_for]: each wake-up with the
    predicate still false is a timeout, after which the caller balances its
    load and goes on waiting on the core it is then assigned to. The result
    is the core on which the caller has reached the front, [None] when it is
    still asleep after the last of the [wakeups]. *)
Fixpoint wait_balancing (alwaysInsert : bool) (c : nat) (thread : tid)
    (wakeups : list wakeup) : M (option nat) :=
  λ s, if at_front s c thread then Ok (Some c) s
       else match wakeups with
            | [] => Ok None s
            | w :: rest =>
                if at_front (sleep w s) c thread then Ok (Some c) (sleep w s)
                else
                  (LoadBalance thread alwaysInsert (clock w) (clockRemove w);;
                   s2 ← get;
                   match cores s2 !! c with
                   | None => undefined
                   | Some core =>
                       if coreId (threads s2 thread) =? id core
                       then wait_balancing alwaysInsert c thread rest
                       else
                         core' ← cores_at (coreId (threads s2 thread));
                         wait_balancing alwaysInsert core'.1 thread rest
                   end) (sleep w s)
            end.

(** [WaitSchedule(loadBalance)], [alwaysInsert] being the default argument
    of the [LoadBalance] it calls. The result is [false] when the caller is
    still waiting after the last of the [wakeups]. *)
Definition WaitSchedule (loadBalance alwaysInsert : bool) (now : Z)
    (wakeups : list wakeup) : M bool :=
  s ← get;
  let thread := current s in
  core ← cores_at (coreId (threads s thread));
  let '(c, _) := core in
  r ← (if loadBalance
          && bool_decide (1 < mask_count (affinityMask (threads s thread)))%nat
       then wait_balancing alwaysInsert c thread wakeups
       else b ← wait c thread wakeups;
            mret (if (b : bool) then Some c else None));
  match r with
  | Some c' => begin_timeslice now c' thread;; mret true
  | None => mret false
  end.

(** [SignalHandler]: [tls] tells whether [*tls] is set, [loadBalance] is the
    default argument of [WaitSchedule]. *)
Definition SignalHandler (tls loadBalance alwaysInsert : bool)
    (nowRotate now : Z) (wakeups : list wakeup) : M bool :=
  if tls then
    Rotate false nowRotate;;
    put_YieldPending false;;
    WaitSchedule loadBalance alwaysInsert now wakeups
  else
    put_YieldPending true;;
    mret true.

End Waiting.

(** ** Thread-local storage pages ([KProcess::TlsPage], [KProcess::GetTlsSlot])

    [constant::TlsSlots], [constant::TlsSlotSize] and [PAGE_SIZE] are
    parameters. A page is declared here from its uses: an [address], the
    [index] of the next slot and one [slot] flag per slot, a new page having
    index 0 and no flag set. The width of [index] is not visible in the
    sources; it is passed to [Get] as a [u8]. *)

Module Tls.

(** A call returns a value, throws (leaving [e] behind), or is undefined
    (an access outside the [slot] array). *)
Inductive result (E A : Type) :=
  | Value (a : A)
  | Raise (e : E)
  | Undef.
Arguments Value {E A} a.
Arguments Raise {E A} e.
Arguments Undef {E A}.

Record TlsPage := mkTlsPage {
  address : Z;       (* u64 *)
  index : Z;
  slot : list bool }.

(** What [GetTlsSlot] leaves behind: the pages, and the address it asked
    [NewHandle<KPrivateMemory>] to map a page at, when it did. *)
Record tls_state := mkTlsState {
  tlsPages : list TlsPage;
  requested : option Z }.

Section WithConstants.
Variables (TlsSlots TlsSlotSize PAGE_SIZE : Z).

(** [TlsPage::TlsPage(u64 address)] *)
Definition new_page (address : Z) : TlsPage :=
  mkTlsPage address 0 (replicate (Z.to_nat TlsSlots) false).

(** [slot[i]]; [None] for an index outside the array. *)
Definition slot_at (page : TlsPage) (i : Z) : option bool :=
  if i <? 0 then None else slot page !! Z.to_nat i.

Definition Full (page : TlsPage) : option bool :=
  slot_at page (TlsSlots - 1).

Definition Get (page : TlsPage) (slotNo : Z) : result unit Z :=
  if TlsSlots <=? slotNo then Raise tt
  else Value (wrap64 (address page + TlsSlotSize * slotNo)).

(** [ReserveSlot] gives the slot address and the page as it leaves it. *)
Definition ReserveSlot (page : TlsPage) : result TlsPage (Z * TlsPage) :=
  match Full page with
  | Some true => Raise page
  | Some false =>
      match slot_at page (index page) with
      | Some _ =>
          let page' :=
            mkTlsPage (address page) (index page + 1)
              (<[Z.to_nat (index page) := true]> (slot page)) in
          match Get page' (wrap8 (index page)) with
          | Value a => Value (a, page')
          | Raise _ => Raise page'
          | Undef => Undef
          end
      | None => Undef
      end
  | None => Undef
  end.

(** The first loop of [GetTlsSlot]: the position of the first page that is
    not full, [Some None] when every page is full. *)
Fixpoint first_free (i : nat) (pages : list TlsPage) : option (option nat) :=
  match pages with
  | [] => Some None
  | tlsPage :: rest =>
      match Full tlsPage with
      | Some false => Some (Some i)
      | Some true => first_free (S i) rest
      | None => None
      end
  end.

(** [GetTlsSlot]. [region] is [(address, size)] of the TlsIo region and
    [mapped] the address the new memory object reports. *)
Definition GetTlsSlot (region : Z * Z) (mapped : Z) (pages : list TlsPage)
    : result tls_state (Z * tls_state) :=
  match first_free 0 pages with
  | Some (Some i) =>
      match pages !! i with
      | Some tlsPage =>
          match ReserveSlot tlsPage with
          | Value (a, tlsPage') =>
              Value (a, mkTlsState (<[i := tlsPage']> pages) None)
          | Raise tlsPage' => Raise (mkTlsState (<[i := tlsPage']> pages) None)
          | Undef => Undef
          end
      | None => Undef
      end
  | Some None =>
      let address :=
        match last pages with
        | None => if snd region =? 0 then 0 else fst region
        | Some lastPage => wrap64 (address lastPage + PAGE_SIZE)
        end in
      let pages' := pages ++ [new_page mapped] in
      (* [if (tlsPages.empty())], evaluated after the [push_back] *)
      let first :=
        if bool_decide (pages' = []) then ReserveSlot (new_page mapped)
        else Value (0, new_page mapped) in
      match first with
      | Value (_, tlsPage) =>
          match ReserveSlot tlsPage with
          | Value (a, tlsPage') =>
              Value (a, mkTlsState (pages ++ [tlsPage']) (Some address))
          | Raise tlsPage' =>
              Raise (mkTlsState (pages ++ [tlsPage']) (Some address))
          | Undef => Undef
          end
      | Raise tlsPage' => Raise (mkTlsState (pages ++ [tlsPage']) (Some address))
      | Undef => Undef
      end
  | None => Undef
  end.

(** A page as [ReserveSlot] keeps it: the slots below [index] are taken,
    the others are free. *)
Definition page_ok (page : TlsPage) : Prop :=
  0 ≤ index page ≤ TlsSlots
  ∧ slot page = replicate (Z.to_nat (index page)) true
                ++ replicate (Z.to_nat (TlsSlots - index page)) false.

(** The page once its next slot has been handed out. *)
Definition taken (page : TlsPage) : TlsPage :=
  mkTlsPage (address page) (index page + 1)
    (<[Z.to_nat (index page) := true]> (slot page)).

(** The address of slot [i] of a page. *)
Definition slot_address (page : TlsPage) (i : Z) : Z :=
  wrap64 (address page + TlsSlotSize * i).

(** [n] calls of [ReserveSlot] in a row: the addresses in the order they
    were handed out. *)
Fixpoint reserve_many (n : nat) (page : TlsPage)
    : result TlsPage (list Z * TlsPage) :=
  match n with
  | O => Value ([], page)
  | S n' =>
      match ReserveSlot page with
      | Value (a, page') =>
          match reserve_many n' page' with
          | Value (l, page'') => Value (a :: l, page'')
          | Raise e => Raise e
          | Undef => Undef
          end
      | Raise e => Raise e
      | Undef => Undef
      end
  end.
End WithConstants.

End Tls.

(** * Properties *)

(** ** Binary search *)

Section UpperBoundFacts.
Context {A : Type}.

(** On a range that the comparator partitions (false on a prefix, true on
    the rest) the search returns the partition point. *)
Lemma upper_bound_loop_partition comp (l1 l2 : list A) :
  Forall (λ x, comp x = false) l1 →
  Forall (λ x, comp x = true) l2 →
  ∀ len first,
    (first ≤ length l1)%nat → (length l1 ≤ first + len)%nat →
    (first + len ≤ length (l1 ++ l2))%nat →
    upper_bound_loop comp (l1 ++ l2) first len = length l1.
Proof.
  intros Hf Ht len.
  induction len as [len IH] using lt_wf_ind. intros first H1 H2 H3.
  destruct len as [|n]; simp upper_bound_loop; [lia|].
  pose proof (Nat.lt_div2 (S n) ltac:(lia)) as Hhalf.
  set (h := Nat.div2 (S n)) in *.
  assert (first + h < length (l1 ++ l2))%nat as Hin by lia.
  apply lookup_lt_is_Some_2 in Hin as [x Hx].
  rewrite Hx. simpl.
  rewrite length_app in H3.
  destruct (decide (first + h < length l1)%nat) as [Hlt|Hge].
  - rewrite lookup_app_l in Hx by lia.
    rewrite Forall_lookup in Hf. rewrite (Hf _ _ Hx). simpl.
    subst h; simpl in *. apply IH; rewrite ?length_app; lia.
  - rewrite lookup_app_r in Hx by lia.
    rewrite Forall_lookup in Ht. rewrite (Ht _ _ Hx). simpl.
    subst h; simpl in *. apply IH; rewrite ?length_app; lia.
Qed.

Lemma upper_bound_partition comp (l1 l2 : list A) :
  Forall (λ x, comp x = false) l1 →
  Forall (λ x, comp x = true) l2 →
  upper_bound comp (l1 ++ l2) = length l1.
Proof.
  intros Hf Ht. unfold upper_bound.
  apply upper_bound_loop_partition; auto; rewrite ?length_app; lia.
Qed.
(** The search ends at [end()] or at an element for which the comparator
    holds, whatever the order of the range. *)
Lemma upper_bound_loop_stop comp (l : list A) :
  ∀ len first,
    (first + len ≤ length l)%nat →
    ((first + len)%nat = length l
     ∨ ∃ x, l !! (first + len)%nat = Some x ∧ comp x = true) →
    upper_bound_loop comp l first len = length l
    ∨ ∃ x, l !! upper_bound_loop comp l first len = Some x ∧ comp x = true.
Proof.
  intros len. induction len as [len IH] using lt_wf_ind. intros first Hle Hend.
  destruct len as [|n]; simp upper_bound_loop.
  { by rewrite Nat.add_0_r in Hend. }
  pose proof (Nat.lt_div2 (S n) ltac:(lia)) as Hhalf.
  set (h := Nat.div2 (S n)) in *.
  assert (first + h < length l)%nat as Hin by lia.
  apply lookup_lt_is_Some_2 in Hin as [x Hx].
  rewrite Hx. simpl. destruct (comp x) eqn:Hc; simpl.
  - subst h; simpl in *. apply IH; [lia..|]. right. eauto.
  - subst h; simpl in *. apply IH; [lia..|].
    match goal with
    | |- context [(?a + ?b)%nat = length l] =>
        replace (a + b)%nat with (first + S n)%nat by lia
    end.
    exact Hend.
Qed.

Lemma upper_bound_stop comp (l : list A) i x :
  l !! i = Some x → comp x = false → upper_bound comp l ≠ i.
Proof.
  intros Hi Hc Heq. apply lookup_lt_Some in Hi as Hlt.
  destruct (upper_bound_loop_stop comp l (length l) 0) as [E|(y & Hy & Hcy)];
    [simpl; lia|by left| |]; fold (upper_bound comp l) in *.
  - lia.
  - rewrite Heq in Hy. congruence.
Qed.

Lemma find_pos_Some `{EqDecision A} (x : A) l i :
  find_pos x l = Some i → l !! i = Some x.
Proof.
  unfold find_pos. intros Hf.
  apply fmap_Some in Hf as ([j y] & Hf & ->). simpl.
  by apply list_find_Some in Hf as (Hl & -> & _).
Qed.

Lemma find_pos_None `{EqDecision A} (x : A) l :
  find_pos x l = None → x ∉ l.
Proof.
  unfold find_pos. intros Hf Hin.
  apply fmap_None in Hf.
  destruct (list_find_elem_of (λ y, y = x) l x Hin eq_refl) as [? E]. congruence.
Qed.

Lemma find_pos_NoDup `{EqDecision A} (x : A) l i :
  NoDup l → l !! i = Some x → find_pos x l = Some i.
Proof.
  intros Hnd Hi. unfold find_pos.
  destruct (list_find _ l) as [[j y]|] eqn:Hf; simpl.
  - apply list_find_Some in Hf as (Hl & -> & _).
    f_equal. by eapply NoDup_lookup.
  - apply list_find_None in Hf. rewrite Forall_forall in Hf.
    destruct (Hf x); [|done]. by eapply list_elem_of_lookup_2.
Qed.
End UpperBoundFacts.

(** ** Ascending lists *)

Section AscendingFacts.
Context {A : Type} (key : A → Z).

Lemma Forall_upto p l : Forall (λ a, key a ≤ p) (upto key p l).
Proof. apply Forall_forall. intros a Ha. by apply list_elem_of_filter in Ha as [? _]. Qed.

Lemma Forall_above p l : Forall (λ a, p < key a) (above key p l).
Proof. apply Forall_forall. intros a Ha. by apply list_elem_of_filter in Ha as [? _]. Qed.

Lemma upto_all p l : Forall (λ a, key a ≤ p) l → upto key p l = l.
Proof.
  unfold upto. induction 1 as [|a l Ha _ IH]; [done|].
  rewrite filter_cons_True by done. by rewrite IH.
Qed.

Lemma upto_none p l : Forall (λ a, p < key a) l → upto key p l = [].
Proof.
  unfold upto. induction 1 as [|a l Ha _ IH]; [done|].
  rewrite filter_cons_False by lia. done.
Qed.

Lemma above_all p l : Forall (λ a, p < key a) l → above key p l = l.
Proof.
  unfold above. induction 1 as [|a l Ha _ IH]; [done|].
  rewrite filter_cons_True by done. by rewrite IH.
Qed.

Lemma above_none p l : Forall (λ a, key a ≤ p) l → above key p l = [].
Proof.
  unfold above. induction 1 as [|a l Ha _ IH]; [done|].
  rewrite filter_cons_False by lia. done.
Qed.

(** An ascending list is its low part followed by its high part. *)
Lemma ascending_split p l : ascending key l → l = upto key p l ++ above key p l.
Proof.
  induction 1 as [|a l Hs IH Ha]; [done|].
  destruct (decide (key a ≤ p)) as [Hle|Hgt].
  - unfold upto, above. rewrite filter_cons_True by done.
    rewrite (filter_cons_False (λ a, p < key a)) by lia.
    simpl. f_equal. exact IH.
  - assert (Forall (λ b, p < key b) (a :: l)) as Hall.
    { constructor; [lia|]. eapply Forall_impl; [exact Ha|]. simpl. intros; lia. }
    by rewrite (upto_none _ _ Hall), (above_all _ _ Hall).
Qed.

Lemma upper_bound_ascending p l :
  ascending key l → upper_bound (λ a, p <? key a) l = length (upto key p l).
Proof.
  intros Hs.
  transitivity (upper_bound (λ a, p <? key a) (upto key p l ++ above key p l)).
  { f_equal. by apply ascending_split. }
  apply upper_bound_partition.
  - eapply Forall_impl; [apply Forall_upto|]. simpl. intros a Ha. lia.
  - eapply Forall_impl; [apply Forall_above|]. simpl. intros a Ha. lia.
Qed.

Lemma upto_cons_le p a l : key a ≤ p → upto key p (a :: l) = a :: upto key p l.
Proof. intros. unfold upto. by rewrite filter_cons_True. Qed.

Lemma upto_cons_gt p a l : p < key a → upto key p (a :: l) = upto key p l.
Proof. intros. unfold upto. rewrite filter_cons_False; [done|lia]. Qed.

Lemma above_cons_le p a l : key a ≤ p → above key p (a :: l) = above key p l.
Proof. intros. unfold above. rewrite filter_cons_False; [done|lia]. Qed.

Lemma above_cons_gt p a l : p < key a → above key p (a :: l) = a :: above key p l.
Proof. intros. unfold above. by rewrite filter_cons_True. Qed.

Lemma ascending_agree (key' : A → Z) l :
  (∀ a, a ∈ l → key' a = key a) → ascending key l → ascending key' l.
Proof.
  intros Hk Hs. induction Hs as [|a l Hs IH Ha]; [constructor|].
  constructor.
  - apply IH. intros b Hb. apply Hk. by right.
  - apply Forall_forall. intros b Hb. rewrite Forall_forall in Ha.
    rewrite (Hk a) by left. rewrite (Hk b) by (by right). auto.
Qed.

Lemma take_upto p l : ascending key l → take (length (upto key p l)) l = upto key p l.
Proof.
  intros Hs. pose proof (ascending_split p l Hs) as E.
  remember (upto key p l) as l1. remember (above key p l) as l2.
  rewrite E. apply take_app_length.
Qed.

Lemma drop_upto p l : ascending key l → drop (length (upto key p l)) l = above key p l.
Proof.
  intros Hs. pose proof (ascending_split p l Hs) as E.
  remember (upto key p l) as l1. remember (above key p l) as l2.
  rewrite E. apply drop_app_length.
Qed.

Lemma insert_at_upto p x l :
  ascending key l → insert_at (length (upto key p l)) x l = upto key p l ++ x :: above key p l.
Proof. intros Hs. unfold insert_at. by rewrite take_upto, drop_upto. Qed.

Lemma insert_at_app (x : A) l1 l2 :
  insert_at (length l1) x (l1 ++ l2) = l1 ++ x :: l2.
Proof. unfold insert_at. by rewrite take_app_length, drop_app_length. Qed.

Lemma ascending_app l1 l2 :
  ascending key l1 → ascending key l2 →
  (∀ a b, a ∈ l1 → b ∈ l2 → key a ≤ key b) →
  ascending key (l1 ++ l2).
Proof. intros H1 H2 H. apply StronglySorted_app. auto. Qed.

Lemma ascending_sublist l1 l2 :
  l1 `sublist_of` l2 → ascending key l2 → ascending key l1.
Proof.
  induction 1 as [|a l1 l2 Hsub IH|a l1 l2 Hsub IH]; intros Hs.
  - constructor.
  - apply StronglySorted_cons in Hs as [Ha Hs].
    constructor; [by apply IH|].
    apply Forall_forall. intros b Hb. rewrite Forall_forall in Ha.
    apply Ha. by eapply sublist_subseteq.
  - apply StronglySorted_cons in Hs as [_ Hs]. auto.
Qed.

Lemma ascending_filter (P : A → Prop) `{∀ a, Decision (P a)} l :
  ascending key l → ascending key (filter P l).
Proof. apply ascending_sublist, sublist_filter. Qed.

Lemma ascending_delete i l : ascending key l → ascending key (delete i l).
Proof. apply ascending_sublist, sublist_delete. Qed.

(** Placing [x] between the low and the high part keeps the order. *)
Lemma ascending_place x l :
  ascending key l →
  ascending key (upto key (key x) l ++ x :: above key (key x) l).
Proof.
  intros Hs. apply ascending_app.
  - by apply ascending_filter.
  - constructor; [by apply ascending_filter|].
    eapply Forall_impl; [apply Forall_above|]. simpl. intros; lia.
  - intros a b Ha Hb.
    pose proof (Forall_upto (key x) l) as Hu. rewrite Forall_forall in Hu.
    pose proof (Forall_above (key x) l) as Ho. rewrite Forall_forall in Ho.
    apply Hu in Ha. apply elem_of_cons in Hb as [->|Hb]; [done|].
    apply Ho in Hb. lia.
Qed.
End AscendingFacts.

(** ** Wait lists of [KProcess] *)

Module KProcessFacts.
Import KProcess.

Lemma elem_of_enqueue thread l w :
  w ∈ enqueue thread l ↔ w = record_of thread ∨ w ∈ l.
Proof.
  induction l as [|it rest IH]; simpl.
  - set_solver.
  - destruct (Z.geb _ _); rewrite !elem_of_cons; [rewrite IH|]; naive_solver.
Qed.

Lemma enqueue_descending thread l :
  descending l → descending (enqueue thread l).
Proof.
  unfold descending, ascending.
  induction 1 as [|it rest Hs IH Hit]; simpl.
  - repeat constructor.
  - destruct (Z.geb _ _) eqn:E.
    + constructor; [done|]. apply Forall_forall. intros w Hw.
      apply elem_of_enqueue in Hw as [->|Hw].
      * simpl. lia.
      * rewrite Forall_forall in Hit. auto.
    + constructor; [by constructor|].
      constructor; [simpl; lia|].
      eapply Forall_impl; [exact Hit|]. simpl. intros; lia.
Qed.

Lemma foldl_enqueue_descending arrivals l :
  descending l →
  descending (foldl (λ waiters thread, enqueue thread waiters) l arrivals).
Proof.
  revert l. induction arrivals as [|th arrivals IH]; intros l Hl; simpl; [done|].
  apply IH. by apply enqueue_descending.
Qed.

Lemma arrived_descending arrivals : descending (arrived arrivals).
Proof. apply foldl_enqueue_descending. constructor. Qed.

Lemma foldl_enqueue_elem_of arrivals l w :
  w ∈ foldl (λ waiters thread, enqueue thread waiters) l arrivals
  ↔ w ∈ l ∨ ∃ thread, thread ∈ arrivals ∧ w = record_of thread.
Proof.
  revert l. induction arrivals as [|th arrivals IH]; intros l; simpl.
  - set_solver.
  - rewrite IH, elem_of_enqueue. set_solver.
Qed.

Lemma descending_front first rest w :
  descending (first :: rest) → w ∈ first :: rest →
  WaitStatus.priority w ≤ WaitStatus.priority first.
Proof.
  intros Hs Hw. apply StronglySorted_cons in Hs as [Hall _].
  apply elem_of_cons in Hw as [->|Hw]; [lia|].
  rewrite Forall_forall in Hall. apply Hall in Hw. lia.
Qed.

(** Every arrival is outranked numerically by the front of the list. *)
Lemma arrived_front arrivals first rest thread :
  arrived arrivals = first :: rest → thread ∈ arrivals →
  KThread.priority thread ≤ WaitStatus.priority first.
Proof.
  intros E Hin.
  pose proof (arrived_descending arrivals) as Hd. rewrite E in Hd.
  apply (descending_front first rest (record_of thread) Hd).
  rewrite <- E. apply foldl_enqueue_elem_of. right. eauto.
Qed.

Lemma arrived_nonempty arrivals : arrivals ≠ [] → arrived arrivals ≠ [].
Proof.
  destruct arrivals as [|th arrivals]; [done|]. intros _ E.
  assert (record_of th ∈ arrived (th :: arrivals)) as Hin.
  { apply foldl_enqueue_elem_of. right. exists th. set_solver. }
  rewrite E in Hin. by apply elem_of_nil in Hin.
Qed.

Lemma signal_first_lookup n l i :
  signal_first n l !! i
  = (if bool_decide (i < n)%nat then WaitStatus.signal else λ w, w) <$> l !! i.
Proof.
  revert l i. induction n as [|n IH]; intros l i.
  - case_bool_decide; [lia|].
    replace (signal_first 0 l) with l by (by destruct l).
    by destruct (l !! i).
  - destruct l as [|w l]; [done|]. destruct i as [|i]; [done|].
    cbn [signal_first]. rewrite !lookup_cons, IH.
    by rewrite (bool_decide_ext (i < n)%nat (S i < S n)%nat) by lia.
Qed.

(** The loop leaves only through the flag: with the flag set for the first
    time at iteration [k] it returns there, whatever the clock showed. *)
Lemma wait_loop_signalled flag clock start timeout k :
  flag k = true → (∀ i, (i < k)%nat → flag i = false) →
  ∀ fuel i timedOut, (i ≤ k)%nat → (k - i < fuel)%nat →
    is_Some (wait_loop fuel flag clock start timeout i timedOut).
Proof.
  intros Hk Hbefore fuel. induction fuel as [|fuel IH]; intros i b Hi Hf; [lia|].
  simpl. destruct (decide (i = k)) as [->|Hne].
  - rewrite Hk. eauto.
  - rewrite Hbefore by lia. apply IH; lia.
Qed.

Lemma wait_loop_unsignalled flag clock start timeout fuel :
  ∀ i timedOut, (∀ j, (i ≤ j < i + fuel)%nat → flag j = false) →
    wait_loop fuel flag clock start timeout i timedOut = None.
Proof.
  induction fuel as [|fuel IH]; intros i b Hflag; simpl; [done|].
  rewrite Hflag by lia. apply IH. intros j Hj. apply Hflag. lia.
Qed.

(** A caller that has to wait is added to the wait list by [enqueue], and
    neither the mutex word nor any other list changes. *)
Lemma MutexLock_enter_waits mask address owner thread s :
  ReadMemory s address ≠ 0 →
  MutexLock_enter mask address owner true thread s
  = (mkProcess (memory s)
       (<[address := enqueue thread (mutexes s !!! address)]> (mutexes s))
       (conditionals s), true).
Proof.
  intros Hword. unfold MutexLock_enter.
  by destruct (Z.eqb_spec (ReadMemory s address) 0).
Qed.

(** Whatever the arrivals, [MutexUnlock] by the owner flags the front of the
    wait list and leaves the mutex word alone, and no arrival has a priority
    value above that of the front. *)
Lemma MutexUnlock_flags_front mask address owner s arrivals :
  arrivals ≠ [] →
  Z.land (ReadMemory s address) mask = KThread.handle owner →
  mutexes s !!! address = arrived arrivals →
  ∃ first rest,
    arrived arrivals = first :: rest
    ∧ MutexUnlock mask address owner s
      = (mkProcess (memory s)
           (<[address := WaitStatus.signal first :: rest]> (mutexes s))
           (conditionals s), true)
    ∧ ∀ thread, thread ∈ arrivals →
        KThread.priority thread ≤ WaitStatus.priority first.
Proof.
  intros Hne Hown Hlist.
  destruct (arrived arrivals) as [|first rest] eqn:E.
  { by apply arrived_nonempty in Hne. }
  exists first, rest. split; [done|]. split.
  - unfold MutexUnlock. by rewrite Hown, Z.eqb_refl, Hlist.
  - intros thread Hin. by eapply arrived_front.
Qed.

(** C2. With waiters of priorities 5, 10 and 15 enqueued by [MutexLock] in
    any order of arrival, [MutexUnlock] by the owner leaves the mutex word
    alone and sets the flag of the record at the front of the wait list,
    which is the one of priority 15; the record of priority 5, the
    highest-priority waiter, stays unsignalled at the back. *)
Theorem MutexUnlock_5_10_15 mask address owner s arrivals :
  arrivals ∈ permutations [T5; T10; T15] →
  Z.land (ReadMemory s address) mask = KThread.handle owner →
  mutexes s !!! address = arrived arrivals →
  MutexUnlock mask address owner s
  = (mkProcess (memory s)
       (<[address := [WaitStatus.mk 15 115 true; WaitStatus.mk 10 110 false;
                      WaitStatus.mk 5 105 false]]> (mutexes s))
       (conditionals s), true).
Proof.
  intros Hperm Hown Hlist. unfold MutexUnlock.
  rewrite Hown, Z.eqb_refl. simpl. rewrite Hlist.
  vm_compute in Hperm.
  repeat (apply elem_of_cons in Hperm as [->|Hperm]; [reflexivity|]).
  by apply elem_of_nil in Hperm.
Qed.

Lemma MutexUnlock_5_10_15_witness :
  MutexUnlock 0xBFFFFFFF 0x1000 (KThread.mk 0x100 100 20) contended
  = (mkProcess (memory contended)
       (<[0x1000 := [WaitStatus.mk 15 115 true; WaitStatus.mk 10 110 false;
                     WaitStatus.mk 5 105 false]]> (mutexes contended))
       (conditionals contended), true).
Proof.
  apply (MutexUnlock_5_10_15 0xBFFFFFFF 0x1000 (KThread.mk 0x100 100 20)
           contended [T10; T5; T15]).
  - vm_compute. repeat first [apply list_elem_of_here | apply list_elem_of_further].
  - reflexivity.
  - reflexivity.
Defined.

(** C6. With waiters of priorities 3, 7 and 7 enqueued by
    [ConditionalVariableWait] in any order of arrival,
    [ConditionalVariableSignal] with count 1 flags exactly one record, one of
    priority 7 at the front of the list; all three records stay queued and
    the record of priority 3 is not signalled. *)
Theorem ConditionalVariableSignal_3_7_7 address s arrivals :
  arrivals ∈ permutations [W3; W7; W7'] →
  conditionals s !!! address = arrived arrivals →
  let waiters := conditionals (ConditionalVariableSignal address 1 s) !!! address in
  WaitStatus.priority <$> waiters = [7; 7; 3]
  ∧ WaitStatus.flag <$> waiters = [true; false; false].
Proof.
  intros Hperm Hlist waiters. subst waiters.
  unfold ConditionalVariableSignal. simpl.
  rewrite lookup_total_insert_eq, Hlist.
  vm_compute in Hperm.
  repeat (apply elem_of_cons in Hperm as [->|Hperm]; [by vm_compute|]).
  by apply elem_of_nil in Hperm.
Qed.

Lemma ConditionalVariableSignal_3_7_7_witness :
  let waiters :=
    conditionals (ConditionalVariableSignal 0x2000 1 awaited) !!! 0x2000 in
  WaitStatus.priority <$> waiters = [7; 7; 3]
  ∧ WaitStatus.flag <$> waiters = [true; false; false].
Proof.
  apply (ConditionalVariableSignal_3_7_7 0x2000 awaited [W3; W7; W7']).
  - vm_compute. repeat first [apply list_elem_of_here | apply list_elem_of_further].
  - reflexivity.
Defined.

(** In general the records signalled are the leading ones of the list, all
    records stay queued, and every signalled record carries a priority value
    at least as large as every record that is left unsignalled by the call. *)
Lemma ConditionalVariableSignal_leading address amount s :
  let before := conditionals s !!! address in
  let after := conditionals (ConditionalVariableSignal address amount s) !!! address in
  let n := Z.to_nat (Z.min (Z.of_nat (length before)) (wrap64 amount)) in
  (∀ i, after !! i
        = (if bool_decide (i < n)%nat then WaitStatus.signal else λ w, w)
            <$> before !! i)
  ∧ (descending before →
     ∀ i j w v, (i < n)%nat → (n ≤ j)%nat →
       before !! i = Some w → before !! j = Some v →
       WaitStatus.priority v ≤ WaitStatus.priority w).
Proof.
  intros before after n. split.
  - intros i. subst after. unfold ConditionalVariableSignal. simpl.
    rewrite lookup_total_insert_eq. apply signal_first_lookup.
  - intros Hd i j w v Hi Hj Hw Hv.
    rewrite <- (take_drop_middle before i w Hw) in Hd, Hv.
    apply StronglySorted_app in Hd as (_ & _ & Hd).
    apply StronglySorted_cons in Hd as [Hall _].
    apply lookup_lt_Some in Hw as Hlen.
    rewrite lookup_app_r in Hv by (rewrite length_take; lia).
    rewrite length_take, Nat.min_l in Hv by lia.
    destruct (j - i)%nat as [|k] eqn:E; [lia|]. simpl in Hv.
    rewrite Forall_forall in Hall.
    apply list_elem_of_lookup_2 in Hv. apply Hall in Hv. lia.
Qed.

(** C3. While the caller's record is not signalled the call does not return:
    whatever the timeout and whatever the clock shows, after any number of
    iterations in which the flag was unset the wait loop is still running. *)
Theorem ConditionalVariableWait_no_timeout fuel address timeout thread flag
    clock start woken :
  (∀ i, (i < fuel)%nat → flag i = false) →
  ConditionalVariableWait fuel address timeout thread flag clock start woken
  = None.
Proof.
  intros Hflag. unfold ConditionalVariableWait.
  rewrite wait_loop_unsignalled; [done|]. intros j Hj. apply Hflag. lia.
Qed.

(** A wait with a timeout of 10 ticks, never signalled, with the clock
    advancing by 100 ticks per iteration, looked at after 50 iterations. *)
Lemma ConditionalVariableWait_no_timeout_witness :
  ConditionalVariableWait 50 0x2000 10 W3 (λ _, false) (λ i, 100 * Z.of_nat i)
    0 awaited = None.
Proof.
  apply (ConditionalVariableWait_no_timeout 50 0x2000 10 W3 (λ _, false)
           (λ i, 100 * Z.of_nat i) 0 awaited).
  intros i _. reflexivity.
Defined.

(** Signalled at the fifth check, long after the timeout of 10 ticks has
    elapsed, the loop ends there and the call reports a timeout. *)
Lemma ConditionalVariableWait_late_signal :
  ConditionalVariableWait 50 0x2000 10 W3 (λ i, bool_decide (i = 5%nat))
    (λ i, 100 * Z.of_nat i) 0 awaited
  = Some (mkProcess (memory awaited) (mutexes awaited)
            (<[0x2000 := dequeue 203 (conditionals awaited !!! 0x2000)]>
               (conditionals awaited)), false).
Proof. reflexivity. Qed.

(** C7. [MutexUnlock] reports success exactly when the owner field of the
    mutex word is the caller's handle; on failure the process state (guest
    memory and every wait list) is the one it started from; on success with
    no waiter for the address the mutex word reads 0 afterwards. *)
Theorem MutexUnlock_owner_check mask address thread s :
  (snd (MutexUnlock mask address thread s) = true
   ↔ Z.land (ReadMemory s address) mask = KThread.handle thread)
  ∧ (snd (MutexUnlock mask address thread s) = false
     → fst (MutexUnlock mask address thread s) = s)
  ∧ (snd (MutexUnlock mask address thread s) = true
     → mutexes s !!! address = []
     → ReadMemory (fst (MutexUnlock mask address thread s)) address = 0).
Proof.
  unfold MutexUnlock.
  destruct (Z.eqb_spec (Z.land (ReadMemory s address) mask) (KThread.handle thread))
    as [Heq|Hne]; simpl.
  - split; [|split].
    + by destruct (mutexes s !!! address).
    + by destruct (mutexes s !!! address).
    + intros _ ->. simpl. unfold ReadMemory, WriteMemory. simpl.
      by rewrite decide_True.
  - split; [|split]; [split|..]; done.
Qed.

End KProcessFacts.

(** ** Ready queues of the scheduler *)

Module SchedulerFacts.
Import Scheduler.

Lemma to_i8_small p : 0 ≤ p < 128 → to_i8 p = p.
Proof.
  intros Hp. unfold to_i8, wrap8. rewrite Z.mod_small by lia.
  destruct (Z.ltb_spec p 128); lia.
Qed.

Lemma IsHigherPriority_valid s p :
  0 ≤ p < 128 → IsHigherPriority s p = λ u, p <? prio s u.
Proof. intros Hp. unfold IsHigherPriority, prio. by rewrite to_i8_small. Qed.

Lemma cores_at_on_core s thread c core :
  on_core s thread c core →
  cores_at (coreId (threads s thread)) s = Ok (c, core) s.
Proof.
  intros (Hpos & -> & Hc). unfold cores_at.
  destruct (Z.ltb_spec (coreId (threads s thread)) 0); [lia|]. by rewrite Hc.
Qed.

Lemma queue_at_alter (c : nat) (q : list tid) (cs : list CoreContext) :
  (c < length cs)%nat →
  default [] (queue <$> alter (set_queue q) c cs !! c) = q.
Proof.
  intros Hc. rewrite list_lookup_alter_eq.
  destruct (lookup_lt_is_Some_2 cs c Hc) as [core ->]. done.
Qed.

Lemma upper_bound_sorted s p q :
  0 ≤ p < 128 → sorted_queue s q →
  upper_bound (IsHigherPriority s p) q = length (upto (prio s) p q).
Proof.
  intros Hp Hs. rewrite IsHigherPriority_valid by done.
  by apply upper_bound_ascending.
Qed.

Lemma splice_front_sorted s front rest :
  valid_priorities s → sorted_queue s (front :: rest) →
  splice_front (upper_bound (IsHigherPriority s (prio s front)) (front :: rest))
    (front :: rest)
  = rotated s (front :: rest).
Proof.
  intros Hv Hs. rewrite upper_bound_sorted by done.
  rewrite upto_cons_le by lia.
  cbn [length splice_front rotated].
  apply StronglySorted_cons in Hs as [_ Hs].
  by rewrite (take_upto (prio s)), (drop_upto (prio s)).
Qed.

Lemma sorted_above_front s p front rest :
  sorted_queue s (front :: rest) → p < prio s front →
  Forall (λ u, p < prio s u) (front :: rest).
Proof.
  intros Hs Hp. apply StronglySorted_cons in Hs as [Hall _].
  constructor; [done|]. eapply Forall_impl; [exact Hall|]. simpl. intros; lia.
Qed.

Lemma InsertThread_queue s thread c core :
  valid_priorities s → on_core s thread c core → sorted_queue s (queue core) →
  ∃ s', InsertThread thread s = Ok tt s'
        ∧ queue_at s' c = inserted s thread (queue core)
        ∧ ∀ u, prio s' u = prio s u.
Proof.
  intros Hv Hon Hs. unfold InsertThread. run.
  rewrite (cores_at_on_core _ _ _ _ Hon).
  destruct Hon as (_ & _ & Hc). apply lookup_lt_Some in Hc as Hlen.
  fold (prio s thread).
  rewrite upper_bound_sorted by done.
  unfold queue_at, inserted.
  destruct (queue core) as [|front rest] eqn:Eq.
  - simpl. destruct (bool_decide _); run;
      (eexists; split; [reflexivity|]; simpl; split; [by apply queue_at_alter|done]).
  - destruct (Z.ltb_spec (prio s thread) (prio s front)) as [Hlt|Hge].
    + rewrite (upto_none (prio s)) by (by apply sorted_above_front).
      fold (prio s front). rewrite (splice_front_sorted s front rest) by done.
      simpl.
      destruct (decide (current s ≠ front)); run;
        [destruct (negb (pendingYield _)); run|];
        destruct (bool_decide (thread ≠ current s)); run;
        (eexists; split; [reflexivity|]; simpl;
         split; [by apply queue_at_alter|];
         intros u; unfold prio; simpl; repeat case_decide; done).
    + destruct (decide (length (upto (prio s) (prio s thread) (front :: rest)) = 0%nat))
        as [Hz|_]; [by rewrite upto_cons_le in Hz by lia|].
      eexists; split; [reflexivity|]. simpl. split; [|done].
      rewrite queue_at_alter by done.
      by apply insert_at_upto.
Qed.

Lemma sorted_queue_agree s s' q :
  (∀ u, u ∈ q → prio s' u = prio s u) → sorted_queue s q → sorted_queue s' q.
Proof. apply ascending_agree. Qed.

Lemma inserted_sorted s thread q :
  sorted_queue s q → sorted_queue s (inserted s thread q).
Proof.
  intros Hs. unfold inserted. destruct q as [|front rest]; [repeat constructor|].
  destruct (Z.ltb_spec (prio s thread) (prio s front)) as [Hlt|Hge].
  - apply StronglySorted_cons in Hs as [Hall Hs].
    constructor; [by apply ascending_place|].
    apply Forall_app. split.
    + apply Forall_forall. intros u Hu. apply list_elem_of_filter in Hu as [_ Hu].
      rewrite Forall_forall in Hall. apply Hall in Hu. lia.
    + constructor; [lia|].
      eapply Forall_impl; [apply Forall_above|]. simpl. intros; lia.
  - by apply (ascending_place (prio s) thread).
Qed.

Lemma rotated_sorted s q : sorted_queue s q → sorted_queue s (rotated s q).
Proof.
  intros Hs. destruct q as [|front rest]; [constructor|]. simpl.
  apply StronglySorted_cons in Hs as [_ Hs]. by apply ascending_place.
Qed.

Lemma Rotate_queue cooperative now s c core rest :
  valid_priorities s → on_core s (current s) c core →
  queue core = current s :: rest → sorted_queue s (queue core) →
  ∃ s', Rotate cooperative now s = Ok tt s'
        ∧ queue_at s' c = rotated s (queue core)
        ∧ ∀ u, prio s' u = prio s u.
Proof.
  intros Hv Hon Eq Hs. unfold Rotate. run.
  rewrite (cores_at_on_core _ _ _ _ Hon).
  destruct Hon as (_ & _ & Hc). apply lookup_lt_Some in Hc as Hlen.
  rewrite Eq in *. rewrite decide_True by done.
  fold (prio s (current s)).
  rewrite (splice_front_sorted s (current s) rest) by done.
  destruct (bool_decide (head _ ≠ _)); run;
    destruct (cooperative && isPreempted _); run;
    (eexists; split; [reflexivity|]; simpl;
     split; [by apply queue_at_alter|];
     intros u; unfold prio; simpl; repeat case_decide; done).
Qed.

Lemma removed_sorted s thread q :
  sorted_queue s q → sorted_queue s (removed thread q).
Proof.
  intros Hs. unfold removed. destruct (find_pos thread q); [|done].
  by apply ascending_delete.
Qed.

Lemma RemoveThread_queue now s c core :
  on_core s (current s) c core →
  ∃ s', RemoveThread now s = Ok tt s'
        ∧ queue_at s' c = removed (current s) (queue core)
        ∧ ∀ u, prio s' u = prio s u.
Proof.
  intros Hon. unfold RemoveThread. run.
  rewrite (cores_at_on_core _ _ _ _ Hon).
  destruct Hon as (_ & _ & Hc). apply lookup_lt_Some in Hc as Hlen.
  unfold removed, queue_at.
  destruct (find_pos (current s) (queue core)) as [it|] eqn:Ef; run.
  - destruct (bool_decide (it = 0%nat)); run;
      [destruct (negb (timesliceStart _ =? 0)); run;
       destruct (bool_decide (delete it (queue core) ≠ [])); run|];
      destruct (isPreempted (threads s (current s))) eqn:Ep; run;
      (eexists; split; [reflexivity|]; simpl;
       split; [by apply queue_at_alter|];
       intros u; unfold prio; simpl; repeat case_decide; done).
  - destruct (isPreempted (threads s (current s))) eqn:Ep; run;
      (eexists; split; [reflexivity|]; simpl;
       split; [by rewrite Hc|];
       intros u; unfold prio; simpl; repeat case_decide; done).
Qed.

Lemma reinserted_sorted_behind_front s thread q :
  sorted_queue s q → sorted_queue s (tail (reinserted s thread q)).
Proof.
  intros Hs. unfold reinserted. destruct q as [|front rest]; [constructor|].
  destruct (Z.ltb_spec (prio s thread) (prio s front)) as [Hlt|Hge]; simpl.
  - pose proof (sorted_above_front s _ _ _ Hs Hlt) as Hall.
    apply Forall_cons in Hall as [_ Hall].
    apply StronglySorted_cons in Hs as [_ Hs].
    constructor; [done|]. eapply Forall_impl; [exact Hall|]. simpl. intros; lia.
  - pose proof (ascending_place (prio s) thread (front :: rest) Hs) as Hp.
    destruct (upto _ _ _ ++ _) as [|x l]; [constructor|].
    by apply StronglySorted_cons in Hp as [_ ?].
Qed.

Lemma reinserted_sorted s thread q :
  sorted_queue s q → (∀ front, head q = Some front → prio s front ≤ prio s thread) →
  sorted_queue s (reinserted s thread q).
Proof.
  intros Hs Hfront. unfold reinserted. destruct q as [|front rest]; [repeat constructor|].
  specialize (Hfront front eq_refl).
  destruct (Z.ltb_spec (prio s thread) (prio s front)) as [Hlt|Hge]; [lia|].
  by apply (ascending_place (prio s) thread).
Qed.

Lemma UpdatePriority_queue s thread c core it :
  valid_priorities s → on_core s thread c core →
  find_pos thread (queue core) = Some (S it) →
  sorted_queue s (delete (S it) (queue core)) →
  ∃ s', UpdatePriority thread s = Ok tt s'
        ∧ queue_at s' c = reinserted s thread (delete (S it) (queue core))
        ∧ ∀ u, prio s' u = prio s u.
Proof.
  intros Hv Hon Hfind Hs. unfold UpdatePriority. run.
  rewrite (cores_at_on_core _ _ _ _ Hon).
  destruct Hon as (_ & _ & Hc). apply lookup_lt_Some in Hc as Hlen.
  rewrite Hfind. simpl.
  apply find_pos_Some in Hfind as Hit. apply lookup_lt_Some in Hit as Hlt.
  rewrite bool_decide_eq_false_2 by lia. simpl.
  fold (prio s thread).
  rewrite bool_decide_eq_false_2; cycle 1.
  { intros E. symmetry in E. revert E. eapply upper_bound_stop; [exact Hit|].
    unfold IsHigherPriority. rewrite to_i8_small by apply Hv.
    apply Z.ltb_irrefl. }
  set (q := delete (S it) (queue core)) in *.
  rewrite upper_bound_sorted by (apply Hv || done).
  assert (∀ s1 : Sched, (∀ u, prio s1 u = prio s u) → (c < length (cores s1))%nat →
          ∃ s', (if bool_decide (length (upto (prio s) (prio s thread) q) = 0%nat)
                    && bool_decide (length (upto (prio s) (prio s thread) q) ≠ length q)
                 then
                   put_queue c (insert_at 1 thread q);;
                   match insert_at 1 thread q with
                   | front :: _ => yield_once front
                   | [] => undefined
                   end
                 else put_queue c
                        (insert_at (length (upto (prio s) (prio s thread) q)) thread q))
                  s1 = Ok tt s'
                ∧ queue_at s' c = reinserted s thread q
                ∧ ∀ u, prio s' u = prio s u) as Hrest.
  { intros s1 Hp1 Hlen1. unfold reinserted.
    destruct q as [|front rest] eqn:Eq.
    - simpl. run. eexists; split; [reflexivity|]. simpl.
      split; [by apply queue_at_alter|done].
    - destruct (Z.ltb_spec (prio s thread) (prio s front)) as [Hlt'|Hge].
      + rewrite (upto_none (prio s)) by (by apply sorted_above_front).
        simpl. run. destruct (negb (pendingYield _)); run;
          (eexists; split; [reflexivity|]; simpl; unfold queue_at; simpl;
           split; [by apply queue_at_alter|];
           intros u; rewrite <- Hp1; unfold prio; simpl; repeat case_decide; done).
      + rewrite (bool_decide_eq_false_2
                   (length (upto (prio s) (prio s thread) (front :: rest)) = 0%nat))
          by (by rewrite upto_cons_le by lia).
        simpl. run.
        eexists; split; [reflexivity|]. simpl. split; [|done].
        unfold queue_at. simpl. rewrite queue_at_alter by done.
        by apply insert_at_upto. }
  destruct (isPreempted (threads s thread)
            && negb (prio s thread =? preemptionPriority core)); run.
  - match goal with
    | |- ∃ s', _ ?s1 = _ ∧ _ => destruct (Hrest s1) as (s' & E & Hq & Hp)
    end.
    + intros u. unfold prio. simpl. by destruct (decide (u = thread)).
    + simpl. by rewrite length_alter.
    + exists s'. by rewrite <- E.
  - match goal with
    | |- ∃ s', _ ?s1 = _ ∧ _ => destruct (Hrest s1) as (s' & E & Hq & Hp)
    end.
    + done.
    + simpl. by rewrite length_alter.
    + exists s'. by rewrite <- E.
Qed.

Lemma not_elem_of_delete (q : list tid) i x :
  NoDup q → q !! i = Some x → x ∉ delete i q.
Proof.
  intros Hnd Hi. rewrite delete_take_drop.
  rewrite <- (take_drop_middle q i x Hi) in Hnd.
  apply NoDup_app in Hnd as (_ & Hleft & Hright).
  apply NoDup_cons in Hright as [Hright _].
  intros Hin. apply elem_of_app in Hin as [Hin|Hin]; [|done].
  apply (Hleft x Hin). left.
Qed.

Lemma UpdatePriority_reinserts s thread p c core it :
  valid_priorities s → 0 ≤ p < 128 → on_core s thread c core →
  NoDup (queue core) → sorted_queue s (queue core) →
  queue core !! S it = Some thread →
  ∃ s', UpdatePriority thread (with_priority thread p s) = Ok tt s'
        ∧ queue_at s' c
          = reinserted (with_priority thread p s) thread (delete (S it) (queue core))
        ∧ sorted_queue s' (tail (queue_at s' c))
        ∧ ((∀ front, head (queue core) = Some front → prio s front ≤ p)
           → sorted_queue s' (queue_at s' c)).
Proof.
  intros Hv Hp Hon Hnd Hs Hit.
  set (s1 := with_priority thread p s).
  assert (prio s1 thread = p) as Hpt.
  { unfold prio, s1. simpl. by rewrite decide_True. }
  assert (∀ u, u ≠ thread → prio s1 u = prio s u) as Hpo.
  { intros u Hu. unfold prio, s1. simpl. by rewrite decide_False. }
  assert (valid_priorities s1) as Hv1.
  { intros u. destruct (decide (u = thread)) as [->|Hu]; [by rewrite Hpt|].
    rewrite Hpo by done. apply Hv. }
  assert (on_core s1 thread c core) as Hon1.
  { destruct Hon as (H0 & Hc & Hl). unfold on_core, s1. simpl.
    by rewrite decide_True. }
  pose proof (not_elem_of_delete _ _ _ Hnd Hit) as Hnotin.
  assert (sorted_queue s1 (delete (S it) (queue core))) as Hs1.
  { eapply sorted_queue_agree; [|by apply ascending_delete].
    intros u Hu. apply Hpo. intros ->. done. }
  destruct (UpdatePriority_queue s1 thread c core it Hv1 Hon1) as (s' & E & Hq & Hp');
    [by apply find_pos_NoDup|done|].
  exists s'. split; [done|]. split; [done|]. rewrite Hq. split.
  - eapply sorted_queue_agree; [intros; apply Hp'|].
    by apply reinserted_sorted_behind_front.
  - intros Hfront. eapply sorted_queue_agree; [intros; apply Hp'|].
    apply reinserted_sorted; [done|]. intros front Hhead.
    destruct (queue core) as [|x rest] eqn:Eq; [done|]. simpl in Hhead.
    injection Hhead as ->. rewrite Hpt.
    rewrite Hpo; [by apply Hfront|]. intros ->.
    apply Hnotin. simpl. left.
Qed.

(** A priority of 200 reads as -56 once converted to [i8]: the thread is
    inserted in front of B and A, of priorities 5 and 10. *)
Lemma InsertThread_wide_priority :
  queue_of (InsertThread C (with_priority C 200 two_ready)) 0
  = Some [C; B; A].
Proof. vm_compute. reflexivity. Qed.

(** [Rotate] by a thread that is not the front: a force-yielded caller only
    has its own bookkeeping updated, any other caller gets the exception
    before anything is written. *)
Lemma Rotate_behind_front cooperative now s c core front rest :
  on_core s (current s) c core → queue core = front :: rest →
  front ≠ current s →
  if forceYield (threads s (current s)) then
    ∃ s', Rotate cooperative now s = Ok tt s'
          ∧ queue_at s' c = queue core
          ∧ ∀ u, prio s' u = prio s u
  else Rotate cooperative now s = Throw Exception s.
Proof.
  intros Hon Eq Hne. unfold Rotate. run.
  rewrite (cores_at_on_core _ _ _ _ Hon), Eq.
  destruct Hon as (_ & _ & Hc).
  rewrite decide_False by done.
  destruct (forceYield (threads s (current s))); run; [|done].
  destruct (cooperative && isPreempted _); run;
    (eexists; split; [reflexivity|]; unfold queue_at; simpl;
     split; [by rewrite Hc|];
     intros u; unfold prio; simpl; repeat case_decide; done).
Qed.

Lemma find_pos_absent (x : tid) (l : list tid) : x ∉ l → find_pos x l = None.
Proof.
  intros Hnot. destruct (find_pos x l) as [i|] eqn:E; [|done].
  apply find_pos_Some in E. by apply list_elem_of_lookup_2 in E.
Qed.

(** [UpdatePriority] for the front of the queue, or for a thread that is not
    queued, returns at once. *)
Lemma UpdatePriority_untouched s thread c core :
  on_core s thread c core →
  head (queue core) = Some thread ∨ thread ∉ queue core →
  UpdatePriority thread s = Ok tt s.
Proof.
  intros Hon Hcase. unfold UpdatePriority. run.
  rewrite (cores_at_on_core _ _ _ _ Hon).
  destruct Hcase as [Hhead|Hnot].
  - destruct (queue core) as [|front rest]; [done|]. injection Hhead as ->.
    unfold find_pos. simpl. by rewrite decide_True.
  - rewrite find_pos_absent by done. simpl.
    by rewrite bool_decide_eq_true_2.
Qed.

(** C1 (as the code has it). On a ready queue sorted by non-decreasing
    priority, operation by operation:
    - [InsertThread], with priorities in the range 0..127, returns with a
      sorted queue in which the thread stands behind every entry of priority
      at most its own (when it outranks the front, the old front is moved
      behind its own priority band first);
    - [Rotate] called by the front, with priorities in the range 0..127,
      returns with a sorted queue in which the caller stands behind the
      other entries of its priority;
    - [Rotate] called by a thread that is not the front of the (non-empty)
      queue returns with the queue as it is when the caller is marked
      force-yielded, and throws with the whole state as it is otherwise;
    - [RemoveThread], whatever the priorities, returns with the caller
      unlinked and the queue sorted;
    - [UpdatePriority], with priorities in the range 0..127 and no thread
      queued twice, for a queued thread that is not the front, after its
      priority field was written, unlinks the thread and links it directly
      behind the front when it now outranks the front, at the position of its
      priority otherwise; the entries behind the front are sorted afterwards,
      and the whole queue is unless the thread outranks the front;
    - [UpdatePriority] for the front, or for a thread that is not queued,
      after its priority field was written, returns with the whole state as
      it is; the queue is still sorted when the thread is not queued. *)
Theorem ready_queue_order s c core :
  cores s !! c = Some core → sorted_queue s (queue core) →
  (valid_priorities s →
   ∀ thread, on_core s thread c core →
     ∃ s', InsertThread thread s = Ok tt s'
           ∧ queue_at s' c = inserted s thread (queue core)
           ∧ sorted_queue s' (queue_at s' c))
  ∧ (valid_priorities s →
     ∀ cooperative now rest,
       on_core s (current s) c core → queue core = current s :: rest →
       ∃ s', Rotate cooperative now s = Ok tt s'
             ∧ queue_at s' c = rotated s (queue core)
             ∧ sorted_queue s' (queue_at s' c))
  ∧ (∀ cooperative now front rest,
       on_core s (current s) c core → queue core = front :: rest →
       front ≠ current s →
       if forceYield (threads s (current s)) then
         ∃ s', Rotate cooperative now s = Ok tt s'
               ∧ queue_at s' c = queue core
               ∧ sorted_queue s' (queue_at s' c)
       else Rotate cooperative now s = Throw Exception s)
  ∧ (∀ now, on_core s (current s) c core →
       ∃ s', RemoveThread now s = Ok tt s'
             ∧ queue_at s' c = removed (current s) (queue core)
             ∧ sorted_queue s' (queue_at s' c))
  ∧ (valid_priorities s → NoDup (queue core) →
     ∀ thread p it,
       on_core s thread c core →
       queue core !! S it = Some thread → 0 ≤ p < 128 →
       ∃ s', UpdatePriority thread (with_priority thread p s) = Ok tt s'
             ∧ queue_at s' c
               = reinserted (with_priority thread p s) thread
                   (delete (S it) (queue core))
             ∧ sorted_queue s' (tail (queue_at s' c))
             ∧ ((∀ front, head (queue core) = Some front → prio s front ≤ p)
                → sorted_queue s' (queue_at s' c)))
  ∧ (∀ thread p,
       on_core s thread c core →
       head (queue core) = Some thread ∨ thread ∉ queue core →
       UpdatePriority thread (with_priority thread p s)
       = Ok tt (with_priority thread p s)
       ∧ (thread ∉ queue core →
          sorted_queue (with_priority thread p s) (queue core))).
Proof.
  intros Hc Hs. refine (conj _ (conj _ (conj _ (conj _ (conj _ _))))).
  - intros Hv thread Hon.
    destruct (InsertThread_queue s thread c core Hv Hon Hs) as (s' & E & Hq & Hp).
    exists s'. split; [done|]. split; [done|]. rewrite Hq.
    eapply sorted_queue_agree; [intros; apply Hp|]. by apply inserted_sorted.
  - intros Hv cooperative now rest Hon Eq.
    destruct (Rotate_queue cooperative now s c core rest Hv Hon Eq Hs)
      as (s' & E & Hq & Hp).
    exists s'. split; [done|]. split; [done|]. rewrite Hq.
    eapply sorted_queue_agree; [intros; apply Hp|]. by apply rotated_sorted.
  - intros cooperative now front rest Hon Eq Hne.
    pose proof (Rotate_behind_front cooperative now s c core front rest Hon Eq Hne)
      as Hrot.
    destruct (forceYield (threads s (current s))); [|done].
    destruct Hrot as (s' & E & Hq & Hp).
    exists s'. split; [done|]. split; [done|]. rewrite Hq.
    eapply sorted_queue_agree; [intros; apply Hp|]. done.
  - intros now Hon.
    destruct (RemoveThread_queue now s c core Hon) as (s' & E & Hq & Hp).
    exists s'. split; [done|]. split; [done|]. rewrite Hq.
    eapply sorted_queue_agree; [intros; apply Hp|]. by apply removed_sorted.
  - intros Hv Hnd thread p it Hon Hit Hp.
    by apply UpdatePriority_reinserts.
  - intros thread p Hon Hcase. split.
    + apply (UpdatePriority_untouched (with_priority thread p s) thread c core);
        [|done].
      destruct Hon as (H0 & Hcid & Hl). unfold on_core. simpl.
      by rewrite decide_True.
    + intros Hnot. eapply sorted_queue_agree; [|exact Hs].
      intros u Hu. unfold prio. simpl. rewrite decide_False; [done|].
      by intros ->.
Qed.

Lemma valid_priorities_scenario cs pq cur yp tr :
  valid_priorities (mkSched cs (threads idle_core) pq cur yp tr).
Proof. intros u. unfold prio. simpl. case_decide; lia. Qed.

Lemma ready_queue_order_witness :
  (∃ s', InsertThread 3%nat three_ready = Ok tt s'
         ∧ queue_at s' 0 = [B; C; 3%nat; A]
         ∧ sorted_queue s' (queue_at s' 0))
  ∧ (∃ s', UpdatePriority A (with_priority A 3 three_ready) = Ok tt s'
           ∧ queue_at s' 0 = [B; A; C]
           ∧ sorted_queue s' (tail (queue_at s' 0))).
Proof.
  destruct (ready_queue_order three_ready 0 (mkCore 0 1 [B; C; A]))
    as (Hinsert & _ & _ & _ & Hupdate & _).
  - reflexivity.
  - repeat constructor; vm_compute; discriminate.
  - split.
    + destruct (Hinsert (valid_priorities_scenario _ _ _ _ _) 3%nat)
        as (s' & E & Hq & Hsorted).
      { repeat split. vm_compute. discriminate. }
      exists s'. split; [exact E|]. split; [|exact Hsorted].
      rewrite Hq. vm_compute. reflexivity.
    + destruct (Hupdate (valid_priorities_scenario _ _ _ _ _)) with A 3 1%nat
        as (s' & E & Hq & Hsorted & _).
      { repeat constructor; vm_compute; intros H;
          repeat (apply elem_of_cons in H as [H|H]; [discriminate|]);
          by apply elem_of_nil in H. }
      { repeat split. vm_compute. discriminate. }
      { reflexivity. }
      { lia. }
      exists s'. split; [exact E|]. split; [|exact Hsorted].
      rewrite Hq. vm_compute. reflexivity.
Defined.

(** The queue B(5), A(10) is sorted; once A's priority is set to 3,
    [UpdatePriority] leaves A behind B: the queue reads 5, 3. *)
Lemma UpdatePriority_unsorted :
  sorted_queue two_ready (queue_at two_ready 0)
  ∧ ∃ s', UpdatePriority A (with_priority A 3 two_ready) = Ok tt s'
          ∧ queue_at s' 0 = [B; A]
          ∧ ¬ sorted_queue s' (queue_at s' 0).
Proof.
  split.
  { repeat constructor; vm_compute; discriminate. }
  destruct (UpdatePriority_queue (with_priority A 3 two_ready) A 0
              (mkCore 0 1 [B; A]) 0)
    as (s' & E & Hq & Hp).
  - intros u. unfold prio. simpl. repeat case_decide; simpl; lia.
  - repeat split. vm_compute. discriminate.
  - reflexivity.
  - repeat constructor.
  - exists s'. split; [exact E|].
    assert (queue_at s' 0 = [B; A]) as Hq' by (rewrite Hq; vm_compute; reflexivity).
    split; [exact Hq'|]. rewrite Hq'. intros Hsorted.
    apply StronglySorted_cons in Hsorted as [Hall _].
    apply Forall_cons in Hall as [Hle _].
    rewrite !Hp in Hle. vm_compute in Hle. by apply Hle.
Qed.

(** C5 (as the code has it). Inserting A(10), B(5), C(5) into the empty core
    gives the order B, C, A; a rotation by B, the head, then gives C, B, A:
    B goes behind C, the other thread of priority 5, and stays in front of A. *)
Theorem scenario_insert_rotate caller cooperative now :
  queue_of (insert_A_B_C caller idle_core) 0 = Some [B; C; A]
  ∧ queue_of ((insert_A_B_C caller;; switch_to B;; Rotate cooperative now)
                idle_core) 0
    = Some [C; B; A].
Proof.
  destruct caller as [|[|[|n]]]; destruct cooperative;
    split; vm_compute; reflexivity.
Qed.

(** The order C, A, B is not what the rotation produces. *)
Lemma scenario_rotate_not_C_A_B :
  queue_of (insert_A_B_C A idle_core) 0 = Some [B; C; A]
  ∧ queue_of ((insert_A_B_C A;; switch_to B;; Rotate true 0) idle_core) 0
    ≠ Some [C; A; B].
Proof. split; vm_compute; [reflexivity|discriminate]. Qed.

Lemma cores_at_cases z s :
  (∃ c core, cores_at z s = Ok (c, core) s
             ∧ 0 ≤ z ∧ c = Z.to_nat z ∧ cores s !! c = Some core)
  ∨ cores_at z s = Throw OutOfRange s.
Proof.
  unfold cores_at. destruct (Z.ltb_spec z 0); [by right|].
  destruct (cores s !! Z.to_nat z) as [core|] eqn:E; [|by right].
  left. by exists (Z.to_nat z), core.
Qed.

(** C4. For a thread at the head of its core's queue [UpdatePriority]
    returns at once and leaves the whole scheduler state as it was: no yield
    signal is sent, whatever the priority of the thread behind it, and no
    preemption timer is armed, whatever the threshold of the core. *)
Theorem UpdatePriority_head_returns s thread c core rest :
  on_core s thread c core → queue core = thread :: rest →
  UpdatePriority thread s = Ok tt s.
Proof.
  intros Hon Eq. unfold UpdatePriority. run.
  rewrite (cores_at_on_core _ _ _ _ Hon). rewrite Eq.
  unfold find_pos. simpl. by rewrite decide_True.
Qed.

Lemma UpdatePriority_head_returns_witness :
  UpdatePriority A outranked_head = Ok tt outranked_head.
Proof.
  apply (UpdatePriority_head_returns outranked_head A 0 (mkCore 0 1 [A; B]) [B]).
  - repeat split. vm_compute. discriminate.
  - reflexivity.
Defined.

(** With a second thread in the caller's queue the call is defined and
    takes the decision the source spells out. *)
Lemma WakeParkedThread_two_queued s c core parkedThread parked first next rest :
  parkedQueue s = parkedThread :: parked → on_core s (current s) c core →
  queue core = first :: next :: rest →
  WakeParkedThread s
  = when ((prio s parkedThread <? prio s (current s))
          || ((prio s parkedThread =? prio s (current s))
              && (negb (prio s next =? prio s (current s))
                  || (timesliceStart (threads s parkedThread)
                      <? timesliceStart (threads s next)))))
      (update parkedThread (set_coreId (coreId (threads s (current s))));;
       emit ParkedNotify) s.
Proof.
  intros Hparked Hon Eq. unfold WakeParkedThread, prio. run.
  rewrite Hparked, (cores_at_on_core _ _ _ _ Hon), Eq. simpl.
  by destruct (priority (threads s next) =? priority (threads s (current s))).
Qed.

(** C9. With a parked thread waiting and at most one thread in the caller's
    queue, [WakeParkedThread] reads the priority of a next thread that does
    not exist: the call is undefined behaviour. *)
Theorem WakeParkedThread_null_next s c core :
  parkedQueue s ≠ [] → on_core s (current s) c core →
  (length (queue core) ≤ 1)%nat →
  WakeParkedThread s = Undefined.
Proof.
  intros Hparked Hon Hlen. unfold WakeParkedThread. run.
  destruct (parkedQueue s) as [|parkedThread ?]; [done|].
  rewrite (cores_at_on_core _ _ _ _ Hon).
  by rewrite bool_decide_eq_false_2 by lia.
Qed.

Lemma WakeParkedThread_null_next_witness :
  WakeParkedThread one_running_one_parked = Undefined.
Proof.
  apply (WakeParkedThread_null_next one_running_one_parked 0 (mkCore 0 1 [B])).
  - discriminate.
  - repeat split. vm_compute. discriminate.
  - simpl. lia.
Defined.

(** C10. Whenever [Rotate] returns, the caller's [isPreempted],
    [pendingYield] and [forceYield] flags are all false, whatever
    [cooperative] is; and it does return when the caller is at the head of
    its core's queue, or is marked force-yielded while the queue is not
    empty. *)
Theorem Rotate_clears_flags cooperative now s :
  (∀ s', Rotate cooperative now s = Ok tt s' →
     isPreempted (threads s' (current s)) = false
     ∧ pendingYield (threads s' (current s)) = false
     ∧ forceYield (threads s' (current s)) = false)
  ∧ (∀ c core front rest,
       on_core s (current s) c core → queue core = front :: rest →
       front = current s ∨ forceYield (threads s (current s)) = true →
       ∃ s', Rotate cooperative now s = Ok tt s').
Proof.
  split.
  - intros s'. unfold Rotate. run.
    destruct (cores_at_cases (coreId (threads s (current s))) s)
      as [(c & core & -> & _)| ->]; [|done].
    destruct (queue core) as [|front rest]; [done|].
    destruct (decide (front = current s)); run;
      [destruct (bool_decide (head _ ≠ _)); run
      |destruct (negb (forceYield (threads s (current s)))); run; [done|]];
      destruct (cooperative && isPreempted _); run;
      intros [= <-]; simpl; by rewrite !decide_True.
  - intros c core front rest Hon Eq Hcase. unfold Rotate. run.
    rewrite (cores_at_on_core _ _ _ _ Hon), Eq.
    destruct (decide (front = current s)) as [->|Hne]; run.
    + destruct (bool_decide (head _ ≠ _)); run;
        destruct (cooperative && isPreempted _); run; eauto.
    + destruct Hcase as [?|Hforce]; [done|]. rewrite Hforce. run.
      destruct (cooperative && isPreempted _); run; eauto.
Qed.

(** *** Load balancing and the affinity mask *)

Lemma static_refl s : static s s.
Proof. done. Qed.

Lemma static_trans s1 s2 s3 : static s1 s2 → static s2 s3 → static s1 s3.
Proof.
  intros H12 H23 u. destruct (H12 u) as [? ?], (H23 u) as [? ?].
  split; congruence.
Qed.

Create HintDb sched.
#[local] Hint Resolve static_refl static_trans : sched.

Lemma InsertThread_static thread s : settled (static s) (InsertThread thread s).
Proof.
  unfold InsertThread. run.
  destruct (cores_at_cases (coreId (threads s thread)) s)
    as [(c & core & -> & _)| ->]; [|apply static_refl].
  destruct (decide (upper_bound _ _ = 0%nat)); run; [|solve_static].
  destruct (queue core) as [|front rest]; run.
  - destruct (bool_decide (thread ≠ current s)); run; solve_static.
  - destruct (decide (current s ≠ front)); run;
      [destruct (negb (pendingYield _)); run|];
      destruct (bool_decide (thread ≠ current s)); run; solve_static.
Qed.

Lemma RemoveThread_static now s : settled (static s) (RemoveThread now s).
Proof.
  unfold RemoveThread. run.
  destruct (cores_at_cases (coreId (threads s (current s))) s)
    as [(c & core & -> & _)| ->]; [|apply static_refl].
  destruct (find_pos (current s) (queue core)) as [it|]; run.
  - destruct (bool_decide (it = 0%nat)); run;
      [destruct (negb (timesliceStart _ =? 0)); run;
       destruct (bool_decide (delete it (queue core) ≠ [])); run|];
      destruct (isPreempted (threads s (current s))); run; solve_static.
  - destruct (isPreempted (threads s (current s))); run; solve_static.
Qed.

(** The loop over the cores does not touch the state; a core it selects
    passed the affinity test, and it selects one as soon as some core passes. *)
Lemma select_core_spec s0 s thread currentCore now (all : list CoreContext) :
  ∀ cs i optimalCore minTimeslice,
    (∀ j core, cs !! j = Some core → all !! (i + j)%nat = Some core) →
    (∀ o, optimalCore = Some o →
       ∃ core, all !! o = Some core
               ∧ affinityMask (threads s0 thread) !! Z.to_nat (id core) = Some true) →
    match select_core s0 thread currentCore now i cs optimalCore minTimeslice s with
    | Ok (optimalCore', _) s' =>
        s' = s
        ∧ (∀ o, optimalCore' = Some o →
             ∃ core, all !! o = Some core
                     ∧ affinityMask (threads s0 thread) !! Z.to_nat (id core)
                       = Some true)
        ∧ (optimalCore' = None →
           optimalCore = None
           ∧ ∀ j core, cs !! j = Some core →
               affinityMask (threads s0 thread) !! Z.to_nat (id core) ≠ Some true)
    | Throw _ s' => s' = s
    | Undefined => False
    end.
Proof.
  induction cs as [|candidateCore cs IH]; intros i opt m Hcs Hopt; simpl.
  - run. split; [done|]. split; [done|]. intros ->. split; [done|].
    intros j core Hj. done.
  - run. unfold mask_test.
    specialize (Hcs 0%nat candidateCore eq_refl) as Hhere.
    rewrite Nat.add_0_r in Hhere.
    assert (∀ j core, cs !! j = Some core → all !! (S i + j)%nat = Some core)
      as Hcs'.
    { intros j core Hj. specialize (Hcs (S j) core Hj).
      by rewrite Nat.add_succ_r in Hcs. }
    destruct (affinityMask (threads s0 thread) !! Z.to_nat (id candidateCore))
      as [[|]|] eqn:Etest; [| |done].
    + destruct (bool_decide (opt = None) || _ || _) eqn:Epick.
      * specialize (IH (S i) (Some i)
                      (estimate s0 thread (now i) (queue candidateCore)) Hcs').
        destruct (select_core _ _ _ _ _ _ _ _ _) as [[opt' m'] s'| |];
          [|apply IH; intros o [= <-]; eauto..].
        destruct IH as (-> & Hsome & Hnone); [intros o [= <-]; eauto|].
        split; [done|]. split; [done|].
        intros Hn. by destruct (Hnone Hn) as [[=] _].
      * specialize (IH (S i) opt m Hcs' Hopt).
        destruct (select_core _ _ _ _ _ _ _ _ _) as [[opt' m'] s'| |]; [|done..].
        destruct IH as (-> & Hsome & Hnone).
        split; [done|]. split; [done|].
        intros Hn. destruct (Hnone Hn) as [-> _]. done.
    + specialize (IH (S i) opt m Hcs' Hopt).
      destruct (select_core _ _ _ _ _ _ _ _ _) as [[opt' m'] s'| |]; [|done..].
      destruct IH as (-> & Hsome & Hnone).
      split; [done|]. split; [done|].
      intros Hn. destruct (Hnone Hn) as [-> Hall]. split; [done|].
      intros [|j] core Hj; simpl in Hj.
      * injection Hj as <-. by rewrite Etest.
      * exact (Hall j core Hj).
Qed.

Lemma static_in_mask s s' thread :
  in_mask (threads s thread) → static s s' → in_mask (threads s' thread).
Proof.
  intros [Hpos Hbit] Hst. destruct (Hst thread) as [Ec Em].
  unfold in_mask. by rewrite Ec, Em.
Qed.

(** C8. For a thread whose core assignment lies in its affinity mask,
    [LoadBalance] is defined (it returns, or throws one of the exceptions of
    the source), and afterwards the thread's [coreId] still lies in its
    affinity mask. *)
Theorem LoadBalance_affinity s thread alwaysInsert now nowRemove :
  core_ids_ok s → in_mask (threads s thread) →
  settled (λ s', in_mask (threads s' thread))
    (LoadBalance thread alwaysInsert now nowRemove s).
Proof.
  intros Hids Hin. unfold LoadBalance. run.
  destruct (cores_at_cases (coreId (threads s thread)) s)
    as [(c & core & -> & Hpos & Hc & Hcore)| ->]; [|done].
  assert (∀ s1, static s s1 →
          settled (λ s', in_mask (threads s' thread))
            ((when alwaysInsert (InsertThread thread);;
              emit (LogDebug thread);; mret c) s1)) as Hlate.
  { intros s1 Hs1. destruct alwaysInsert; run.
    - pose proof (InsertThread_static thread s1) as Hi.
      destruct (InsertThread thread s1) as [[] s2|e s2|]; simpl in *; [| |done];
        apply (static_in_mask s _ thread Hin); eauto with sched.
    - by apply (static_in_mask s _ thread Hin). }
  destruct (negb (bool_decide (queue core = [])) && _);
    [|by apply Hlate, static_refl].
  pose proof (select_core_spec s s thread c now (cores s) (cores s) 0 None 0) as Hsel.
  destruct (select_core _ _ _ _ _ _ _ _ _) as [[optimalCore m] s1|e s1|];
    [| |by apply Hsel].
  2: { rewrite Hsel by done. exact Hin. }
  destruct Hsel as (-> & Hsome & Hnone); [done..|].
  destruct (decide (optimalCore ≠ Some c)) as [Hne|];
    [|by apply Hlate, static_refl].
  assert (∀ s1, static s s1 →
          settled (λ s', in_mask (threads s' thread))
            (match optimalCore with
             | None => undefined
             | Some o =>
                 match cores s !! o with
                 | None => undefined
                 | Some optimal =>
                     update thread (set_coreId (to_i8 (id optimal)));;
                     InsertThread thread;;
                     emit (LogDebug thread);;
                     mret o
                 end
             end s1)) as Hmove.
  { intros s1 Hs1. destruct optimalCore as [o|].
    - destruct (Hsome o eq_refl) as (optimal & Ho & Htest). rewrite Ho. run.
      destruct (Hids o optimal Ho) as [Hid Hsmall].
      match goal with
      | |- context [InsertThread thread ?s2] =>
          pose proof (InsertThread_static thread s2) as Hi;
          destruct (InsertThread thread s2) as [[] s3|e s3|]
      end; simpl in *; [| |done];
        destruct (Hi thread) as [Ec Em]; destruct (Hs1 thread) as [_ Em1];
        simpl in Ec, Em; rewrite decide_True in Ec, Em by done; simpl in Ec, Em;
        unfold in_mask; rewrite Ec, Em, Em1, to_i8_small by lia;
        (split; [lia|done]).
    - destruct Hnone as [_ Hnone]; [done|].
      destruct Hin as [_ Hbit]. exfalso. apply (Hnone c core Hcore).
      destruct (Hids c core Hcore) as [-> _].
      by rewrite Nat2Z.id, Hc. }
  destruct (negb alwaysInsert && bool_decide (thread = current s)).
  - run. pose proof (RemoveThread_static nowRemove s) as Hr.
    destruct (RemoveThread nowRemove s) as [[] s1|e s1|]; simpl in *; [| |done].
    + by apply Hmove.
    + by apply (static_in_mask s _ thread Hin).
  - destruct (negb alwaysInsert && bool_decide (thread ≠ current s)); run.
    + exact Hin.
    + apply Hmove, static_refl.
Qed.

Lemma LoadBalance_affinity_witness :
  settled (λ s', in_mask (threads s' C))
    (LoadBalance C false (λ _, 0) 0 two_cores).
Proof.
  apply (LoadBalance_affinity two_cores C false (λ _, 0) 0).
  - intros i core Hcore. destruct i as [|[|i]]; simpl in Hcore;
      [injection Hcore as <-; simpl; split; [reflexivity|lia]..|discriminate].
  - split; [simpl; lia|reflexivity].
Defined.

(** In that state the call moves C to the idle core 1. *)
Lemma LoadBalance_two_cores :
  match LoadBalance C false (λ _, 0) 0 two_cores with
  | Ok core s' => core = 1%nat ∧ coreId (threads s' C) = 1
                  ∧ queue_at s' 0 = [B; A] ∧ queue_at s' 1 = [C]
  | _ => False
  end.
Proof. vm_compute. done. Qed.

End SchedulerFacts.

(** ** Thread-local storage pages *)

Module TlsFacts.
Import Tls.

Section WithConstants.
Variables (TlsSlots TlsSlotSize PAGE_SIZE : Z).
Hypothesis slots_u8 : 0 < TlsSlots < 256.

Lemma new_page_ok a : page_ok TlsSlots (new_page TlsSlots a).
Proof.
  unfold page_ok, new_page. simpl. split; [lia|].
  by rewrite Z.sub_0_r.
Qed.

Lemma slot_at_ok page i :
  page_ok TlsSlots page → 0 ≤ i < TlsSlots →
  slot_at page i = Some (bool_decide (i < index page)).
Proof.
  intros [Hidx Hslot] Hi. unfold slot_at.
  destruct (Z.ltb_spec i 0); [lia|]. rewrite Hslot.
  case_bool_decide.
  - rewrite lookup_app_l by (rewrite length_replicate; lia).
    apply lookup_replicate_2. lia.
  - rewrite lookup_app_r by (rewrite length_replicate; lia).
    rewrite length_replicate. apply lookup_replicate_2. lia.
Qed.

Lemma Full_ok page :
  page_ok TlsSlots page →
  Full TlsSlots page = Some (bool_decide (index page = TlsSlots)).
Proof.
  intros Hok. unfold Full. rewrite slot_at_ok by (done || lia).
  destruct Hok as [Hidx _]. f_equal. apply bool_decide_ext. lia.
Qed.

Lemma taken_ok page :
  page_ok TlsSlots page → index page < TlsSlots → page_ok TlsSlots (taken page).
Proof.
  intros [Hidx Hslot] Hlt. unfold page_ok, taken. simpl. split; [lia|].
  rewrite Hslot.
  rewrite insert_app_r_alt by (rewrite length_replicate; lia).
  rewrite length_replicate, Nat.sub_diag.
  replace (Z.to_nat (TlsSlots - index page))
    with (S (Z.to_nat (TlsSlots - (index page + 1)))) by lia.
  replace (Z.to_nat (index page + 1)) with (S (Z.to_nat (index page))) by lia.
  simpl. rewrite (cons_middle true), app_assoc, <- replicate_S_end. done.
Qed.

Lemma ReserveSlot_free page :
  page_ok TlsSlots page → index page < TlsSlots →
  ReserveSlot TlsSlots TlsSlotSize page
  = Value (slot_address TlsSlotSize page (index page), taken page).
Proof.
  intros Hok Hlt. pose proof Hok as [Hidx _]. unfold ReserveSlot.
  rewrite Full_ok by done. rewrite bool_decide_eq_false_2 by lia.
  rewrite slot_at_ok by (done || lia).
  unfold Get, wrap8. rewrite Z.mod_small by lia.
  destruct (Z.leb_spec TlsSlots (index page)); [lia|]. done.
Qed.

Lemma ReserveSlot_full page :
  page_ok TlsSlots page → index page = TlsSlots →
  ReserveSlot TlsSlots TlsSlotSize page = Raise page.
Proof.
  intros Hok Heq. unfold ReserveSlot.
  rewrite Full_ok by done. by rewrite bool_decide_eq_true_2.
Qed.

Lemma reserve_many_from page k :
  page_ok TlsSlots page → index page + Z.of_nat k ≤ TlsSlots →
  ∃ page',
    reserve_many TlsSlots TlsSlotSize k page
    = Value ((λ j, slot_address TlsSlotSize page (index page + Z.of_nat j))
               <$> seq 0 k, page')
    ∧ page_ok TlsSlots page'
    ∧ index page' = index page + Z.of_nat k
    ∧ address page' = address page.
Proof.
  revert page. induction k as [|k IH]; intros page Hok Hle.
  - exists page. simpl. rewrite Z.add_0_r. done.
  - cbn [reserve_many]. rewrite ReserveSlot_free by (done || lia).
    destruct (IH (taken page)) as (page' & -> & Hok' & Hidx & Haddr).
    { apply taken_ok; [done|lia]. }
    { simpl. lia. }
    exists page'. split; [|split; [done|split; [simpl in *; lia|done]]].
    f_equal. f_equal. cbn [seq fmap list_fmap]. f_equal.
    + unfold slot_address. by rewrite Z.add_0_r.
    + rewrite <- fmap_S_seq, <- list_fmap_compose.
      apply list_fmap_ext. intros _ j _. unfold slot_address. simpl.
      f_equal. lia.
Qed.

(** A page hands out its slots in order, each one once: [k] reservations
    on a new page return the addresses of slots 0 to [k - 1] as long as [k]
    is at most [TlsSlots]; the reservation after the last slot throws. *)
Theorem TlsPage_hands_out_each_slot_once a :
  (∀ k, Z.of_nat k ≤ TlsSlots →
     ∃ page,
       reserve_many TlsSlots TlsSlotSize k (new_page TlsSlots a)
       = Value ((λ j, wrap64 (a + TlsSlotSize * Z.of_nat j)) <$> seq 0 k, page)
       ∧ index page = Z.of_nat k)
  ∧ ∃ page,
      reserve_many TlsSlots TlsSlotSize (S (Z.to_nat TlsSlots))
        (new_page TlsSlots a)
      = Raise page
      ∧ index page = TlsSlots.
Proof.
  split.
  - intros k Hk.
    destruct (reserve_many_from (new_page TlsSlots a) k) as (page & E & _ & Hidx & _).
    { apply new_page_ok. }
    { simpl. lia. }
    exists page. split; [|simpl in Hidx; lia]. rewrite E. done.
  - destruct (reserve_many_from (new_page TlsSlots a) (Z.to_nat TlsSlots))
      as (page & E & Hok & Hidx & _).
    { apply new_page_ok. }
    { simpl. lia. }
    exists page. simpl in Hidx. split; [|lia].
    assert (∀ n p l,
              reserve_many TlsSlots TlsSlotSize n (new_page TlsSlots a) = Value (l, p) →
              page_ok TlsSlots p → index p = TlsSlots →
              reserve_many TlsSlots TlsSlotSize (S n) (new_page TlsSlots a) = Raise p)
      as Hlast.
    { intros n. generalize (new_page TlsSlots a).
      induction n as [|n IH]; intros q p l Hn Hp Hfull.
      - simpl in Hn. injection Hn as <- <-. simpl.
        by rewrite ReserveSlot_full.
      - cbn [reserve_many] in Hn |- *.
        destruct (ReserveSlot TlsSlots TlsSlotSize q) as [[a' q']| |]; [|done..].
        destruct (reserve_many TlsSlots TlsSlotSize n q') as [[l' q'']| |] eqn:En;
          [|done..].
        injection Hn as <- <-.
        specialize (IH q' q'' l' En Hp Hfull). cbn [reserve_many] in IH.
        by rewrite IH. }
    eapply Hlast; [exact E|done|lia].
Qed.

Lemma first_free_find pages :
  Forall (page_ok TlsSlots) pages →
  ∀ i, first_free TlsSlots i pages
       = Some ((λ x, (i + x.1)%nat)
                 <$> list_find (λ p, index p < TlsSlots) pages).
Proof.
  induction 1 as [|page pages Hok _ IH]; intros i; simpl; [done|].
  rewrite Full_ok by done. pose proof Hok as [Hidx _].
  case_bool_decide as Hfull.
  - rewrite decide_False by lia. rewrite IH.
    destruct (list_find _ pages) as [[j q]|]; simpl; [|done].
    do 2 f_equal. lia.
  - rewrite decide_True by lia. simpl. do 2 f_equal. lia.
Qed.

(** [GetTlsSlot] on pages in order never throws: it hands out the next slot
    of the first page that has one left, and maps a new page only when every
    page is full, handing out slot 0 of the new page; the pages stay in
    order. *)
Theorem GetTlsSlot_next_free region mapped pages :
  Forall (page_ok TlsSlots) pages →
  match list_find (λ p, index p < TlsSlots) pages with
  | Some (i, page) =>
      GetTlsSlot TlsSlots TlsSlotSize PAGE_SIZE region mapped pages
      = Value (slot_address TlsSlotSize page (index page),
               mkTlsState (<[i := taken page]> pages) None)
      ∧ Forall (page_ok TlsSlots) (<[i := taken page]> pages)
  | None =>
      GetTlsSlot TlsSlots TlsSlotSize PAGE_SIZE region mapped pages
      = Value (slot_address TlsSlotSize (new_page TlsSlots mapped) 0,
               mkTlsState (pages ++ [taken (new_page TlsSlots mapped)])
                 (Some match last pages with
                       | None => if snd region =? 0 then 0 else fst region
                       | Some lastPage => wrap64 (address lastPage + PAGE_SIZE)
                       end))
      ∧ Forall (page_ok TlsSlots) (pages ++ [taken (new_page TlsSlots mapped)])
  end.
Proof.
  intros Hok. unfold GetTlsSlot. rewrite first_free_find by done.
  destruct (list_find _ pages) as [[i page]|] eqn:Efind; simpl.
  - apply list_find_Some in Efind as (Hi & Hfree & _). rewrite Hi.
    assert (page_ok TlsSlots page) as Hpage.
    { rewrite Forall_forall in Hok. apply Hok. by eapply list_elem_of_lookup_2. }
    rewrite ReserveSlot_free by done. split; [done|].
    apply Forall_insert; [done|]. by apply taken_ok.
  - rewrite bool_decide_eq_false_2 by (by destruct pages).
    rewrite ReserveSlot_free by (apply new_page_ok || (simpl; lia)).
    split; [done|]. apply Forall_app. split; [done|].
    constructor; [|done]. apply taken_ok; [apply new_page_ok|simpl; lia].
Qed.

End WithConstants.

Lemma TlsPage_hands_out_each_slot_once_witness :
  (∀ k, Z.of_nat k ≤ 8 →
     ∃ page,
       reserve_many 8 0x200 k (new_page 8 0x7000)
       = Value ((λ j, wrap64 (0x7000 + 0x200 * Z.of_nat j)) <$> seq 0 k, page)
       ∧ index page = Z.of_nat k)
  ∧ ∃ page,
      reserve_many 8 0x200 (S (Z.to_nat 8)) (new_page 8 0x7000) = Raise page
      ∧ index page = 8.
Proof. apply (TlsPage_hands_out_each_slot_once 8 0x200). lia. Defined.

Lemma GetTlsSlot_next_free_witness :
  GetTlsSlot 8 0x200 0x1000 (0x7000, 0x1000) 0x7000 []
  = Value (slot_address 0x200 (new_page 8 0x7000) 0,
           mkTlsState ([] ++ [taken (new_page 8 0x7000)]) (Some 0x7000))
  ∧ Forall (page_ok 8) ([] ++ [taken (new_page 8 0x7000)]).
Proof.
  apply (GetTlsSlot_next_free 8 0x200 0x1000 ltac:(lia) (0x7000, 0x1000) 0x7000 []).
  constructor.
Defined.

End TlsFacts.

(** ** More on the wait lists and the mutex word *)

Module KProcessMore.
Import KProcess KProcessFacts.

(** A thread that joins a wait list is placed behind every record whose
    priority value is at least its own and in front of the smaller ones; the
    records already there keep their order. *)
Theorem enqueue_position thread l :
  descending l →
  enqueue thread l
  = filter (λ w, KThread.priority thread ≤ WaitStatus.priority w) l
    ++ record_of thread
    :: filter (λ w, WaitStatus.priority w < KThread.priority thread) l.
Proof.
  unfold descending, ascending.
  induction 1 as [|it rest Hs IH Hit]; [done|]. simpl.
  destruct (Z.geb_spec (WaitStatus.priority it) (KThread.priority thread))
    as [Hge|Hlt].
  - rewrite filter_cons_True by lia. rewrite filter_cons_False by lia.
    simpl. by rewrite IH.
  - rewrite filter_cons_False by lia. rewrite filter_cons_True by lia.
    assert (Forall (λ w, WaitStatus.priority w < KThread.priority thread) rest)
      as Hall.
    { eapply Forall_impl; [exact Hit|]. simpl. intros; lia. }
    replace (filter (λ w, KThread.priority thread ≤ WaitStatus.priority w) rest)
      with (@nil WaitStatus.t).
    + simpl. do 2 f_equal. symmetry.
      clear -Hall. induction Hall as [|w l Hw _ IHl]; [done|].
      rewrite filter_cons_True by done. by rewrite IHl.
    + symmetry. clear -Hall. induction Hall as [|w l Hw _ IHl]; [done|].
      rewrite filter_cons_False by lia. done.
Qed.

Lemma enqueue_position_witness :
  enqueue W7' (arrived [W3; W7])
  = filter (λ w, KThread.priority W7' ≤ WaitStatus.priority w) (arrived [W3; W7])
    ++ record_of W7'
    :: filter (λ w, WaitStatus.priority w < KThread.priority W7')
         (arrived [W3; W7]).
Proof. apply (enqueue_position W7' (arrived [W3; W7])), arrived_descending. Defined.

Lemma ReadMemory_WriteMemory v address s :
  ReadMemory (WriteMemory v address s) address = wrap32 v.
Proof.
  unfold ReadMemory, WriteMemory. cbn [memory]. rewrite decide_True by done.
  unfold wrap32. apply Zmod_mod.
Qed.

Lemma ReadMemory_WriteMemory_ne v a address s :
  a ≠ address → ReadMemory (WriteMemory v address s) a = ReadMemory s a.
Proof.
  intros Ha. unfold ReadMemory, WriteMemory. cbn [memory].
  by rewrite decide_False.
Qed.

Lemma wrap32_land_ones z : wrap32 z = Z.land z (Z.ones 32).
Proof. unfold wrap32. by rewrite Z.land_ones. Qed.

Lemma wrap32_owner mask handle :
  owner_handle mask handle → wrap32 (Z.land mask handle) = Z.land mask handle.
Proof.
  intros [Hu Hfit]. rewrite wrap32_land_ones, <- Z.land_assoc.
  by rewrite <- wrap32_land_ones, Hu.
Qed.

Lemma not32_idem mask : wrap32 (not32 mask) = not32 mask.
Proof.
  unfold not32. rewrite !wrap32_land_ones, <- Z.land_assoc.
  by rewrite Z.land_diag.
Qed.

Lemma not32_disjoint mask : Z.land (not32 mask) mask = 0.
Proof.
  unfold not32. rewrite wrap32_land_ones.
  rewrite (Z.land_comm (Z.lnot mask)), <- Z.land_assoc.
  rewrite (Z.land_comm (Z.lnot mask)), Z.land_lnot_diag. apply Z.land_0_r.
Qed.

(** The word [MutexLock] writes for an owner, with or without the waiters
    bits, reads back as a [u32] whose owner field is the handle. *)
Lemma owner_word mask handle (waiters : bool) :
  owner_handle mask handle →
  let word := Z.lor (Z.land mask handle) (if waiters then not32 mask else 0) in
  wrap32 word = word ∧ Z.land word mask = handle.
Proof.
  intros Hh word. pose proof Hh as [Hu Hfit]. subst word. split.
  - rewrite wrap32_land_ones, Z.land_lor_distr_l, <- !wrap32_land_ones.
    rewrite wrap32_owner by done. destruct waiters; [by rewrite not32_idem|done].
  - rewrite Z.land_lor_distr_l, <- Z.land_assoc, (Z.land_comm handle).
    rewrite Hfit, Hfit. destruct waiters.
    + by rewrite not32_disjoint, Z.lor_0_r.
    + by rewrite Z.lor_0_r.
Qed.



(** Hand-off. A waiter that wakes up inside [MutexLock] erases its record
    and writes the word: for a handle within the owner mask the owner field
    of the word is then the waiter's handle, so that its own [MutexUnlock]
    succeeds and that of a thread with another handle fails; the bits outside
    the owner mask are set exactly when other waiters remain. *)
Theorem MutexLock_wake_owns mask address thread other s :
  owner_handle mask (KThread.handle thread) →
  let s' := MutexLock_wake mask address thread s in
  let remaining := dequeue (KThread.pid thread) (mutexes s !!! address) in
  mutexes s' !!! address = remaining
  ∧ ReadMemory s' address
    = Z.lor (KThread.handle thread)
        (if bool_decide (remaining = []) then 0 else not32 mask)
  ∧ snd (MutexUnlock mask address thread s') = true
  ∧ (KThread.handle other ≠ KThread.handle thread →
     MutexUnlock mask address other s' = (s', false)).
Proof.
  intros Hh s' remaining. pose proof Hh as [Hu Hfit].
  destruct (owner_word mask (KThread.handle thread)
              (negb (bool_decide (remaining = []))) Hh) as [Hw32 Hfield].
  assert (ReadMemory s' address
          = Z.lor (Z.land mask (KThread.handle thread))
              (if bool_decide (remaining = []) then 0 else not32 mask)) as Hword.
  { unfold s', MutexLock_wake. rewrite ReadMemory_WriteMemory.
    fold remaining. destruct (bool_decide (remaining = [])); exact Hw32. }
  assert (Z.land (ReadMemory s' address) mask = KThread.handle thread) as Hown.
  { rewrite Hword. destruct (bool_decide (remaining = [])); exact Hfield. }
  split; [|split; [|split]].
  - unfold s', MutexLock_wake. cbn [WriteMemory mutexes].
    by rewrite lookup_total_insert_eq.
  - by rewrite Hword, Hfit.
  - unfold MutexUnlock. rewrite Hown, Z.eqb_refl. cbn [negb].
    by destruct (mutexes s' !!! address).
  - intros Hother. unfold MutexUnlock. rewrite Hown.
    destruct (Z.eqb_spec (KThread.handle thread) (KThread.handle other)); [|done].
    congruence.
Qed.

Lemma MutexLock_wake_owns_witness :
  let s' := MutexLock_wake 0xBFFFFFFF 0x1000 T15 contended in
  let remaining := dequeue (KThread.pid T15) (mutexes contended !!! 0x1000) in
  mutexes s' !!! 0x1000 = remaining
  ∧ ReadMemory s' 0x1000
    = Z.lor (KThread.handle T15)
        (if bool_decide (remaining = []) then 0 else not32 0xBFFFFFFF)
  ∧ snd (MutexUnlock 0xBFFFFFFF 0x1000 T15 s') = true
  ∧ (KThread.handle T10 ≠ KThread.handle T15 →
     MutexUnlock 0xBFFFFFFF 0x1000 T10 s' = (s', false)).
Proof.
  apply (MutexLock_wake_owns 0xBFFFFFFF 0x1000 T15 T10 contended).
  split; reflexivity.
Defined.

Lemma length_signal_first n l : length (signal_first n l) = length l.
Proof.
  revert l. induction n as [|n IH]; intros [|w l]; simpl; [done..|].
  by rewrite IH.
Qed.

Lemma signal_first_max n m l :
  signal_first n (signal_first m l) = signal_first (n `max` m) l.
Proof.
  apply list_eq. intros i. rewrite !signal_first_lookup.
  destruct (l !! i) as [w|]; [|done]. simpl. f_equal.
  repeat case_bool_decide; try lia; done.
Qed.

(** Signalling never drops, reorders or un-signals a waiter: after
    [ConditionalVariableSignal] the list of the address holds the same
    threads with the same priorities in the same order, and every record that
    was flagged still is. *)
Theorem ConditionalVariableSignal_keeps_records address amount s :
  let before := conditionals s !!! address in
  let after := conditionals (ConditionalVariableSignal address amount s) !!! address in
  WaitStatus.pid <$> after = WaitStatus.pid <$> before
  ∧ WaitStatus.priority <$> after = WaitStatus.priority <$> before
  ∧ ∀ i w, before !! i = Some w → WaitStatus.flag w = true →
      WaitStatus.flag <$> after !! i = Some true.
Proof.
  intros before after. subst after. unfold ConditionalVariableSignal.
  cbn [conditionals]. rewrite lookup_total_insert_eq. fold before.
  set (n := Z.to_nat _).
  split; [|split].
  - apply list_eq. intros i. rewrite !list_lookup_fmap, signal_first_lookup.
    destruct (before !! i); [|done]. simpl. by case_bool_decide.
  - apply list_eq. intros i. rewrite !list_lookup_fmap, signal_first_lookup.
    destruct (before !! i); [|done]. simpl. by case_bool_decide.
  - intros i w Hw Hflag. rewrite signal_first_lookup, Hw. simpl.
    case_bool_decide; [done|by rewrite Hflag].
Qed.

(** Two signals in a row amount to one with the larger count. *)
Theorem ConditionalVariableSignal_twice address a b s :
  wrap64 a = a → wrap64 b = b →
  conditionals (ConditionalVariableSignal address b
                  (ConditionalVariableSignal address a s)) !!! address
  = conditionals (ConditionalVariableSignal address (Z.max a b) s) !!! address.
Proof.
  intros Ha Hb. unfold ConditionalVariableSignal. cbn [conditionals].
  rewrite !lookup_total_insert_eq, length_signal_first, signal_first_max.
  assert (wrap64 (Z.max a b) = Z.max a b) as Hmax.
  { destruct (Z.max_spec a b) as [[_ ->]|[_ ->]]; done. }
  rewrite Ha, Hb, Hmax. f_equal.
  assert (0 ≤ a) by (rewrite <- Ha; apply Z.mod_pos_bound; done).
  assert (0 ≤ b) by (rewrite <- Hb; apply Z.mod_pos_bound; done).
  lia.
Qed.

Lemma ConditionalVariableSignal_twice_witness :
  conditionals (ConditionalVariableSignal 0x2000 1
                  (ConditionalVariableSignal 0x2000 2 awaited)) !!! 0x2000
  = conditionals (ConditionalVariableSignal 0x2000 (Z.max 2 1) awaited) !!! 0x2000.
Proof.
  apply (ConditionalVariableSignal_twice 0x2000 2 1 awaited); reflexivity.
Defined.

Lemma wait_loop_returns flag clock start timeout k :
  flag k = true → (∀ i, (i < k)%nat → flag i = false) →
  ∀ fuel i timedOut, (i ≤ k)%nat → (k - i < fuel)%nat →
    wait_loop fuel flag clock start timeout i timedOut
    = Some (timedOut
            || existsb (λ j, timeout <=? wrap64 (clock j - start))
                 (seq i (k - i))).
Proof.
  intros Hk Hbefore fuel. induction fuel as [|fuel IH]; intros i b Hi Hf; [lia|].
  simpl. destruct (decide (i = k)) as [->|Hne].
  - rewrite Hk, Nat.sub_diag. simpl. by rewrite orb_false_r.
  - rewrite Hbefore by lia. rewrite IH by lia.
    replace (k - i)%nat with (S (k - S i)) by lia. simpl.
    destruct (timeout <=? wrap64 (clock i - start)); [|done].
    by rewrite orb_true_r.
Qed.

(** The call returns at the first check that finds the record signalled,
    whatever the clock shows by then; it erases the caller's record from the
    list it finds at that moment, and it returns true exactly when none of
    the earlier checks saw [timeout] ticks elapsed since the start. *)
Theorem ConditionalVariableWait_returns_on_signal fuel address timeout thread
    flag clock start woken k :
  flag k = true → (∀ i, (i < k)%nat → flag i = false) → (k < fuel)%nat →
  ConditionalVariableWait fuel address timeout thread flag clock start woken
  = Some (mkProcess (memory woken) (mutexes woken)
            (<[address := dequeue (KThread.pid thread)
                             (conditionals woken !!! address)]>
               (conditionals woken)),
          negb (existsb (λ j, timeout <=? wrap64 (clock j - start)) (seq 0 k))).
Proof.
  intros Hk Hbefore Hfuel. unfold ConditionalVariableWait.
  rewrite (wait_loop_returns flag clock start timeout k) by (done || lia).
  by rewrite Nat.sub_0_r.
Qed.

Lemma ConditionalVariableWait_returns_on_signal_witness :
  ConditionalVariableWait 50 0x2000 10 W3 (λ i, bool_decide (i = 5%nat))
    (λ i, 100 * Z.of_nat i) 0 awaited
  = Some (mkProcess (memory awaited) (mutexes awaited)
            (<[0x2000 := dequeue (KThread.pid W3) (conditionals awaited !!! 0x2000)]>
               (conditionals awaited)),
          negb (existsb (λ j, 10 <=? wrap64 (100 * Z.of_nat j - 0)) (seq 0 5))).
Proof.
  apply (ConditionalVariableWait_returns_on_signal 50 0x2000 10 W3
           (λ i, bool_decide (i = 5%nat)) (λ i, 100 * Z.of_nat i) 0 awaited 5).
  - reflexivity.
  - intros i Hi. apply bool_decide_eq_false_2. lia.
  - lia.
Defined.

Lemma length_enqueue thread l : length (enqueue thread l) = S (length l).
Proof.
  induction l as [|it rest IH]; simpl; [done|].
  destruct (Z.geb _ _); simpl; [by rewrite IH|done].
Qed.

(** A signal that reaches the record of a newly arrived waiter is used up by
    it: once that waiter has erased its record, the list is the one it found
    on arrival with one record less signalled. *)
Lemma dequeue_signal_enqueue thread l :
  not_waiting thread l →
  ∀ n,
    (∃ w, w ∈ signal_first n (enqueue thread l)
          ∧ WaitStatus.pid w = KThread.pid thread ∧ WaitStatus.flag w = true) →
    ∃ m, n = S m
         ∧ dequeue (KThread.pid thread) (signal_first n (enqueue thread l))
           = signal_first m l.
Proof.
  induction 1 as [|it rest Hit Hrest IH]; intros n (w & Hin & Hpid & Hflag).
  - destruct n as [|m]; simpl in *.
    + apply list_elem_of_singleton in Hin. by subst w.
    + exists m. split; [done|]. rewrite Z.eqb_refl. by destruct m.
  - simpl in *. destruct (Z.geb _ _); simpl in *.
    + destruct n as [|n']; simpl in *.
      * apply elem_of_cons in Hin as [->|Hin]; [done|].
        destruct (IH 0%nat) as (m & [=] & _). exists w. by destruct (enqueue thread rest).
      * apply elem_of_cons in Hin as [->|Hin]; [done|].
        destruct (IH n') as (m & -> & Hdq); [by exists w|].
        exists (S m). split; [done|].
        destruct (Z.eqb_spec (WaitStatus.pid it) (KThread.pid thread)); [done|].
        by rewrite Hdq.
    + destruct n as [|m]; simpl in *.
      * apply elem_of_cons in Hin as [->|Hin]; [done|].
        apply elem_of_cons in Hin as [->|Hin]; [done|].
        rewrite Forall_forall in Hrest. by destruct (Hrest w Hin).
      * exists m. split; [done|]. by rewrite Z.eqb_refl.
Qed.

(** A wait that ends has used up one signal. A thread with no record at the
    address enters [ConditionalVariableWait]; a [ConditionalVariableSignal]
    then flags its record, among others; the caller sees the flag and leaves.
    The process is then exactly as a signal with a count one less would have
    left the state the caller found on entry: the other waiters keep their
    places, the signal has flagged the same records of theirs less one, and
    guest memory and the mutex lists are untouched. The call returns true
    exactly when none of the earlier checks saw [timeout] ticks elapsed. *)
Theorem ConditionalVariableWait_uses_one_signal fuel address timeout amount
    thread flag clock start k s :
  not_waiting thread (conditionals s !!! address) →
  let woken := ConditionalVariableSignal address amount
                 (ConditionalVariableWait_enter address thread s) in
  (∃ w, w ∈ conditionals woken !!! address
        ∧ WaitStatus.pid w = KThread.pid thread ∧ WaitStatus.flag w = true) →
  flag k = true → (∀ i, (i < k)%nat → flag i = false) → (k < fuel)%nat →
  0 < wrap64 amount
  ∧ ConditionalVariableWait fuel address timeout thread flag clock start woken
    = Some (ConditionalVariableSignal address (wrap64 amount - 1) s,
            negb (existsb (λ j, timeout <=? wrap64 (clock j - start)) (seq 0 k))).
Proof.
  intros Hnot woken Hflagged Hk Hbefore Hfuel. subst woken.
  unfold ConditionalVariableWait.
  rewrite (wait_loop_returns flag clock start timeout k) by (done || lia).
  rewrite Nat.sub_0_r. simpl.
  unfold ConditionalVariableWait_leave, ConditionalVariableSignal,
    ConditionalVariableWait_enter in *. cbn [memory mutexes conditionals] in *.
  rewrite !lookup_total_insert_eq in *.
  rewrite length_enqueue in *.
  set (l := conditionals s !!! address) in *.
  destruct (dequeue_signal_enqueue thread l Hnot _ Hflagged) as (m & Hn & ->).
  pose proof (Z.mod_pos_bound amount (2 ^ 64) ltac:(lia)) as Hw.
  fold (wrap64 amount) in Hw.
  assert (0 < wrap64 amount) as Hpos by lia.
  split; [done|].
  assert (wrap64 (wrap64 amount - 1) = wrap64 amount - 1) as ->
    by (unfold wrap64 at 1; apply Z.mod_small; lia).
  replace (Z.to_nat (Z.min (Z.of_nat (length l)) (wrap64 amount - 1))) with m
    by lia.
  by rewrite !insert_insert_eq.
Qed.

Lemma ConditionalVariableWait_uses_one_signal_witness :
  0 < wrap64 3
  ∧ ConditionalVariableWait 50 0x2000 10 T5 (λ i, bool_decide (i = 5%nat))
      (λ i, 100 * Z.of_nat i) 0
      (ConditionalVariableSignal 0x2000 3
         (ConditionalVariableWait_enter 0x2000 T5 awaited))
    = Some (ConditionalVariableSignal 0x2000 (wrap64 3 - 1) awaited,
            negb (existsb (λ j, 10 <=? wrap64 (100 * Z.of_nat j - 0)) (seq 0 5))).
Proof.
  apply (ConditionalVariableWait_uses_one_signal 50 0x2000 10 3 T5
           (λ i, bool_decide (i = 5%nat)) (λ i, 100 * Z.of_nat i) 0 5 awaited).
  - repeat constructor; vm_compute; discriminate.
  - exists (WaitStatus.mk 5 105 true). split; [|done].
    assert (conditionals
              (ConditionalVariableSignal 0x2000 3
                 (ConditionalVariableWait_enter 0x2000 T5 awaited)) !!! 0x2000
            = [WaitStatus.mk 7 207 true; WaitStatus.mk 7 208 true;
               WaitStatus.mk 5 105 true; WaitStatus.mk 3 203 false]) as ->
      by (vm_compute; reflexivity).
    do 2 right. left.
  - reflexivity.
  - intros i Hi. apply bool_decide_eq_false_2. lia.
  - lia.
Defined.

End KProcessMore.

(** ** More on the ready queues *)

Module SchedulerMore.
Import Scheduler SchedulerFacts.

Lemma insert_at_Permutation (n : nat) (x : tid) (l : list tid) :
  insert_at n x l ≡ₚ x :: l.
Proof.
  unfold insert_at. rewrite <- Permutation_middle. by rewrite take_drop.
Qed.

Lemma splice_front_Permutation (n : nat) (l : list tid) : splice_front n l ≡ₚ l.
Proof.
  destruct l as [|x r]; [done|]. destruct n as [|k]; [done|]. simpl.
  rewrite <- Permutation_middle. by rewrite take_drop.
Qed.

Lemma linked_Permutation s thread q : linked s thread q ≡ₚ thread :: q.
Proof.
  unfold linked. case_decide; [|apply insert_at_Permutation].
  destruct q as [|front rest]; [done|].
  by rewrite splice_front_Permutation.
Qed.

Lemma queue_at_other (c c' : nat) (f : CoreContext → CoreContext)
    (cs : list CoreContext) :
  c' ≠ c → default [] (queue <$> alter f c cs !! c') = default [] (queue <$> cs !! c').
Proof. intros Hne. by rewrite list_lookup_alter_ne. Qed.

(** [InsertThread] in full: for a thread with a valid core assignment the
    call returns; only the queue of that core changes, into [linked]; of the
    thread objects only the flags of the displaced front change; the trace
    grows by [insert_events]. *)
Lemma InsertThread_state s thread c core :
  on_core s thread c core →
  ∃ s', InsertThread thread s = Ok tt s'
        ∧ cores s' = alter (set_queue (linked s thread (queue core))) c (cores s)
        ∧ current s' = current s
        ∧ parkedQueue s' = parkedQueue s
        ∧ trace s' = trace s ++ insert_events s thread c (queue core)
        ∧ (∀ u, priority (threads s' u) = priority (threads s u)
                ∧ coreId (threads s' u) = coreId (threads s u)
                ∧ affinityMask (threads s' u) = affinityMask (threads s u)
                ∧ isPreempted (threads s' u) = isPreempted (threads s u)
                ∧ (head (queue core) ≠ Some u → threads s' u = threads s u))
        ∧ (∀ front,
             head (queue core) = Some front →
             upper_bound (IsHigherPriority s (prio s thread)) (queue core) = 0%nat →
             forceYield (threads s' front) = true
             ∧ (current s ≠ front →
                pendingYield (threads s' front) = true
                ∧ YieldPending s' = YieldPending s)
             ∧ (current s = front → YieldPending s' = true)).
Proof.
  intros Hon. unfold InsertThread, linked, insert_events, prio. run.
  rewrite (cores_at_on_core _ _ _ _ Hon).
  destruct (decide (upper_bound _ _ = 0%nat)) as [Hz|Hnz]; run.
  - destruct (queue core) as [|front rest] eqn:Eq; run.
    + destruct (bool_decide (thread ≠ current s)); run;
        (eexists; split; [reflexivity|]; simpl; rewrite ?app_nil_r;
         repeat split; done).
    + destruct (decide (current s ≠ front)) as [Hcf|Hcf]; run.
      * rewrite (bool_decide_eq_true_2 _ Hcf). simpl.
        rewrite decide_True by done. simpl.
        destruct (pendingYield (threads s front)) eqn:Epy; run;
          destruct (bool_decide (thread ≠ current s)); run;
          (eexists; split; [reflexivity|]; simpl; rewrite ?app_nil_r, <- ?app_assoc;
           split; [done|]; split; [done|]; split; [done|]; split; [done|]; split;
           [intros u; repeat split; try (repeat (destruct (decide _); simpl); done);
            intros Hu; repeat (destruct (decide _); simpl); congruence
           |intros f [= <-] _; rewrite ?decide_True by done; simpl;
            repeat split; done]).
      * rewrite (bool_decide_eq_false_2 _ Hcf). simpl.
        destruct (bool_decide (thread ≠ current s)); run;
          (eexists; split; [reflexivity|]; simpl; rewrite ?app_nil_r;
           split; [done|]; split; [done|]; split; [done|]; split; [done|]; split;
           [intros u; repeat split; try (repeat (destruct (decide _); simpl); done);
            intros Hu; repeat (destruct (decide _); simpl); congruence
           |intros f [= <-] _; rewrite ?decide_True by done; simpl;
            repeat split; done]).
  - eexists; split; [reflexivity|]. simpl. rewrite app_nil_r.
    repeat split; done.
Qed.

(** [InsertThread] adds the thread and nothing else: for any queue and any
    priorities the queue of the thread's core afterwards holds the thread
    once more and every thread it held before, and the queues of the other
    cores and the parked queue are as they were. *)
Theorem InsertThread_adds_thread s thread c core :
  on_core s thread c core →
  ∃ s', InsertThread thread s = Ok tt s'
        ∧ queue_at s' c ≡ₚ thread :: queue core
        ∧ (∀ c', c' ≠ c → queue_at s' c' = queue_at s c')
        ∧ parkedQueue s' = parkedQueue s.
Proof.
  intros Hon.
  destruct (InsertThread_state s thread c core Hon)
    as (s' & E & Hcores & _ & Hparked & _).
  destruct Hon as (_ & _ & Hc). apply lookup_lt_Some in Hc as Hlen.
  exists s'. split; [done|]. unfold queue_at. rewrite Hcores.
  split; [|split; [|done]].
  - rewrite queue_at_alter by done. apply linked_Permutation.
  - intros c' Hne. by apply queue_at_other.
Qed.

Lemma on_core_three_ready u : on_core three_ready u 0 (mkCore 0 1 [B; C; A]).
Proof. repeat split. vm_compute. discriminate. Qed.

Lemma InsertThread_adds_thread_witness :
  ∃ s', InsertThread 3%nat three_ready = Ok tt s'
        ∧ queue_at s' 0 ≡ₚ 3%nat :: [B; C; A]
        ∧ (∀ c', c' ≠ 0%nat → queue_at s' c' = queue_at three_ready c')
        ∧ parkedQueue s' = parkedQueue three_ready.
Proof.
  apply (InsertThread_adds_thread three_ready 3%nat 0 (mkCore 0 1 [B; C; A])).
  repeat split. vm_compute. discriminate.
Defined.

Lemma displaces_front s thread front rest :
  valid_priorities s → sorted_queue s (front :: rest) →
  upper_bound (IsHigherPriority s (prio s thread)) (front :: rest) = 0%nat
  ↔ prio s thread < prio s front.
Proof.
  intros Hv Hs. rewrite upper_bound_sorted by done.
  destruct (Z.lt_ge_cases (prio s thread) (prio s front)) as [Hlt|Hge].
  - rewrite (upto_none (prio s)) by (by apply sorted_above_front). done.
  - rewrite upto_cons_le by lia. simpl. split; [done|lia].
Qed.

(** Signals and notifications on insertion. On a sorted queue
    [InsertThread] emits at most a yield signal followed by a notification
    of the core, and nothing else. [SendSignal t] is sent exactly when [t]
    is the front, the inserted thread outranks it, [t] is not the caller and
    no yield is pending for [t]. [frontCondition] of the core is notified
    exactly when the thread goes to the front (the queue is empty or the
    thread outranks the front) and is not the caller; no other core is
    notified. A displaced front is marked force-yielded and, unless it is the
    caller (whose [YieldPending] flag is set instead), pending; no
    preemption timer is touched. *)
Theorem InsertThread_signals_displaced_front s thread c core :
  valid_priorities s → on_core s thread c core → sorted_queue s (queue core) →
  ∃ s' es,
    InsertThread thread s = Ok tt s'
    ∧ trace s' = trace s ++ es
    ∧ es
      = (match queue core with
         | front :: _ =>
             if (prio s thread <? prio s front)
                && bool_decide (current s ≠ front)
                && negb (pendingYield (threads s front))
             then [SendSignal front] else []
         | [] => []
         end)
        ++ (if match queue core with
               | front :: _ => prio s thread <? prio s front
               | [] => true
               end
               && bool_decide (thread ≠ current s)
            then [FrontNotify c] else [])
    ∧ (∀ t, SendSignal t ∈ es
            ↔ head (queue core) = Some t ∧ prio s thread < prio s t
              ∧ current s ≠ t ∧ pendingYield (threads s t) = false)
    ∧ (∀ c', FrontNotify c' ∈ es
             ↔ c' = c ∧ thread ≠ current s
               ∧ ∀ front, head (queue core) = Some front →
                   prio s thread < prio s front)
    ∧ (∀ t b, TimerSet t b ∉ es)
    ∧ (∀ t, head (queue core) = Some t → prio s thread < prio s t →
         forceYield (threads s' t) = true
         ∧ (current s ≠ t → pendingYield (threads s' t) = true)
         ∧ (current s = t → YieldPending s' = true)).
Proof.
  intros Hv Hon Hs.
  destruct (InsertThread_state s thread c core Hon)
    as (s' & E & _ & _ & _ & Htrace & _ & Hflags).
  eexists s', _. split; [done|].
  assert (insert_events s thread c (queue core)
          = (match queue core with
             | front :: _ =>
                 if (prio s thread <? prio s front)
                    && bool_decide (current s ≠ front)
                    && negb (pendingYield (threads s front))
                 then [SendSignal front] else []
             | [] => []
             end)
            ++ (if match queue core with
                   | front :: _ => prio s thread <? prio s front
                   | [] => true
                   end
                   && bool_decide (thread ≠ current s)
                then [FrontNotify c] else [])) as Hes.
  { unfold insert_events. destruct (queue core) as [|front rest] eqn:Eq.
    - by rewrite decide_True.
    - pose proof (displaces_front s thread front rest Hv Hs) as Hdis.
      case_decide as Hub.
      + apply Hdis in Hub. by rewrite (proj2 (Z.ltb_lt _ _) Hub).
      + destruct (Z.ltb_spec (prio s thread) (prio s front)) as [Hlt|Hge];
          [by apply Hdis in Hlt|done]. }
  rewrite Hes in Htrace. split; [exact Htrace|]. split; [reflexivity|].
  destruct (queue core) as [|front rest] eqn:Eq; simpl.
  - split; [|split; [|split]].
    + intros t. split; [|by intros [[=] _]].
      case_bool_decide; set_solver.
    + intros c'. case_bool_decide as Hcur; simpl.
      * rewrite list_elem_of_singleton. split.
        -- intros [= ->]. done.
        -- by intros [-> _].
      * split; [by intros ?%elem_of_nil|]. by intros (_ & ? & _).
    + intros t b. case_bool_decide; set_solver.
    + by intros t [=].
  - pose proof (displaces_front s thread front rest Hv Hs) as Hdis.
    destruct (Z.ltb_spec (prio s thread) (prio s front)) as [Hlt|Hge]; simpl.
    + split; [|split; [|split]].
      * intros t. rewrite elem_of_app. split.
        -- intros [Hin|Hin]; [|case_bool_decide; set_solver].
           destruct (bool_decide (current s ≠ front)) eqn:Ec;
             [|by apply elem_of_nil in Hin].
           destruct (pendingYield (threads s front)) eqn:Ep;
             [by apply elem_of_nil in Hin|].
           apply bool_decide_eq_true_1 in Ec. simpl in Hin.
           apply list_elem_of_singleton in Hin. injection Hin as ->. done.
        -- intros ([= <-] & _ & Hc & Hp). left.
           rewrite (bool_decide_eq_true_2 _ Hc), Hp. simpl. left.
      * intros c'. rewrite elem_of_app. split.
        -- intros [Hin|Hin].
           ++ destruct (_ && _); [|by apply elem_of_nil in Hin].
              by apply list_elem_of_singleton in Hin.
           ++ case_bool_decide as Hcur; [|by apply elem_of_nil in Hin].
              apply list_elem_of_singleton in Hin. injection Hin as ->.
              split; [done|]. split; [done|]. by intros f [= <-].
        -- intros (-> & Hcur & _). right.
           rewrite bool_decide_eq_true_2 by done. left.
      * intros t b. rewrite elem_of_app. intros [Hin|Hin].
        -- destruct (_ && _); [|by apply elem_of_nil in Hin].
           by apply list_elem_of_singleton in Hin.
        -- case_bool_decide; set_solver.
      * intros t [= <-] _. apply Hdis in Hlt.
        destruct (Hflags front eq_refl Hlt) as (Hf & Hp & Hy).
        split; [done|]. split; [|done]. intros Hc. by apply Hp.
    + split; [|split; [|split]].
      * intros t. split; [by intros ?%elem_of_nil|].
        intros ([= <-] & Hlt & _). lia.
      * intros c'. split; [by intros ?%elem_of_nil|].
        intros (_ & _ & Hfront). specialize (Hfront front eq_refl). lia.
      * intros t b. by intros ?%elem_of_nil.
      * intros t [= <-] Hlt. lia.
Qed.

Lemma InsertThread_signals_displaced_front_witness :
  ∃ s' es,
    InsertThread 3%nat three_ready = Ok tt s'
    ∧ trace s' = trace three_ready ++ es
    ∧ es
      = (match [B; C; A] with
         | front :: _ =>
             if (prio three_ready 3%nat <? prio three_ready front)
                && bool_decide (current three_ready ≠ front)
                && negb (pendingYield (threads three_ready front))
             then [SendSignal front] else []
         | [] => []
         end)
        ++ (if match [B; C; A] with
               | front :: _ => prio three_ready 3%nat <? prio three_ready front
               | [] => true
               end
               && bool_decide (3%nat ≠ current three_ready)
            then [FrontNotify 0] else [])
    ∧ (∀ t, SendSignal t ∈ es
            ↔ head [B; C; A] = Some t ∧ prio three_ready 3%nat < prio three_ready t
              ∧ current three_ready ≠ t
              ∧ pendingYield (threads three_ready t) = false)
    ∧ (∀ c', FrontNotify c' ∈ es
             ↔ c' = 0%nat ∧ 3%nat ≠ current three_ready
               ∧ ∀ front, head [B; C; A] = Some front →
                   prio three_ready 3%nat < prio three_ready front)
    ∧ (∀ t b, TimerSet t b ∉ es)
    ∧ (∀ t, head [B; C; A] = Some t → prio three_ready 3%nat < prio three_ready t →
         forceYield (threads s' t) = true
         ∧ (current three_ready ≠ t → pendingYield (threads s' t) = true)
         ∧ (current three_ready = t → YieldPending s' = true)).
Proof.
  apply (InsertThread_signals_displaced_front three_ready 3%nat 0
           (mkCore 0 1 [B; C; A])).
  - apply valid_priorities_scenario.
  - repeat split. vm_compute. discriminate.
  - repeat constructor; vm_compute; discriminate.
Defined.

Ltac solve_threads :=
  intros; simpl; repeat (destruct (decide _); simpl); congruence.

(** [Rotate] by the front of a queue, in full. *)
Lemma Rotate_state cooperative now s c core rest :
  on_core s (current s) c core → queue core = current s :: rest →
  let q' := splice_front
              (upper_bound (IsHigherPriority s (prio s (current s))) (queue core))
              (queue core) in
  ∃ s', Rotate cooperative now s = Ok tt s'
        ∧ cores s' = alter (set_queue q') c (cores s)
        ∧ trace s'
          = trace s
            ++ (if bool_decide (head q' ≠ Some (current s)) then [FrontNotify c] else [])
            ++ (if cooperative && isPreempted (threads s (current s))
                then [TimerSet (current s) false] else [])
        ∧ (∀ u, u ≠ current s → threads s' u = threads s u)
        ∧ (∀ u, priority (threads s' u) = priority (threads s u))
        ∧ averageTimeslice (threads s' (current s))
          = next_average now (threads s (current s)).
Proof.
  intros Hon Eq q'. subst q'. unfold Rotate, prio. run.
  rewrite (cores_at_on_core _ _ _ _ Hon), Eq. rewrite decide_True by done.
  destruct (bool_decide (head _ ≠ _)); run;
    destruct (cooperative && isPreempted _); run;
    (eexists; split; [reflexivity|]; simpl; rewrite ?app_nil_r, <- ?app_assoc;
     repeat split; try done; try solve_threads;
     rewrite ?decide_True by done; done).
Qed.

Lemma rotated_head s front rest :
  sorted_queue s (front :: rest) → NoDup (front :: rest) →
  head (rotated s (front :: rest)) = Some front
  ↔ ∀ next, head rest = Some next → prio s front < prio s next.
Proof.
  intros Hs Hnd. apply StronglySorted_cons in Hs as [Hall Hs]. simpl.
  destruct rest as [|next rest']; [done|].
  apply Forall_cons in Hall as [Hle _].
  destruct (Z.lt_ge_cases (prio s front) (prio s next)) as [Hlt|Hge].
  - rewrite upto_cons_gt by done.
    rewrite (upto_none (prio s))
      by (apply StronglySorted_cons in Hs as [Hall' _];
          eapply Forall_impl; [exact Hall'|]; simpl; intros; lia).
    simpl. split; [|done]. by intros _ ? [= <-].
  - rewrite upto_cons_le by lia. simpl. split.
    + intros [= ->]. apply NoDup_cons in Hnd as [Hnot _].
      destruct Hnot. left.
    + intros Hnext. specialize (Hnext next eq_refl). lia.
Qed.

(** Round robin. A rotation by the front of a sorted queue hands the core
    to the thread behind it exactly when that thread has the same priority:
    then the front of the queue changes and the core's condition is
    notified; otherwise the caller is still the front and nobody is notified.
    The preemption timer is disarmed exactly for a cooperative yield of a
    preempted thread, and no yield signal is sent. *)
Theorem Rotate_hands_over_within_band cooperative now s c core rest :
  valid_priorities s → on_core s (current s) c core →
  queue core = current s :: rest → sorted_queue s (queue core) →
  NoDup (queue core) →
  ∃ s' es,
    Rotate cooperative now s = Ok tt s'
    ∧ trace s' = trace s ++ es
    ∧ (head (queue_at s' c) = Some (current s)
       ↔ ∀ next, head rest = Some next → prio s (current s) < prio s next)
    ∧ (FrontNotify c ∈ es ↔ head (queue_at s' c) ≠ Some (current s))
    ∧ (TimerSet (current s) false ∈ es
       ↔ cooperative && isPreempted (threads s (current s)) = true)
    ∧ (∀ t, SendSignal t ∉ es).
Proof.
  intros Hv Hon Eq Hs Hnd.
  destruct (Rotate_state cooperative now s c core rest Hon Eq)
    as (s' & E & Hcores & Htrace & _).
  destruct Hon as (_ & _ & Hc). apply lookup_lt_Some in Hc as Hlen.
  rewrite Eq in Hcores, Htrace, Hs, Hnd.
  rewrite (splice_front_sorted s (current s) rest Hv Hs) in Hcores, Htrace.
  eexists s', _. split; [done|]. split; [exact Htrace|].
  assert (queue_at s' c = rotated s (current s :: rest)) as Hq.
  { unfold queue_at. rewrite Hcores. by apply queue_at_alter. }
  rewrite Hq. split; [by apply rotated_head|].
  split; [|split].
  - rewrite elem_of_app. case_bool_decide as Hh.
    + split; [done|]. intros _. left. left.
    + split; [|done]. intros [Hin|Hin]; [by apply elem_of_nil in Hin|].
      destruct (_ && _); [|by apply elem_of_nil in Hin].
      by apply list_elem_of_singleton in Hin.
  - rewrite elem_of_app. destruct (cooperative && _).
    + split; [done|]. intros _. right. left.
    + split; [|done]. intros [Hin|Hin]; [|by apply elem_of_nil in Hin].
      case_bool_decide; [|by apply elem_of_nil in Hin].
      by apply list_elem_of_singleton in Hin.
  - intros t. rewrite elem_of_app. intros [Hin|Hin].
    + case_bool_decide; [|by apply elem_of_nil in Hin].
      by apply list_elem_of_singleton in Hin.
    + destruct (_ && _); [|by apply elem_of_nil in Hin].
      by apply list_elem_of_singleton in Hin.
Qed.

Lemma Rotate_hands_over_within_band_witness :
  ∃ s' es,
    Rotate true 7 three_ready = Ok tt s'
    ∧ trace s' = trace three_ready ++ es
    ∧ (head (queue_at s' 0) = Some (current three_ready)
       ↔ ∀ next, head [C; A] = Some next →
           prio three_ready (current three_ready) < prio three_ready next)
    ∧ (FrontNotify 0 ∈ es ↔ head (queue_at s' 0) ≠ Some (current three_ready))
    ∧ (TimerSet (current three_ready) false ∈ es
       ↔ true && isPreempted (threads three_ready (current three_ready)) = true)
    ∧ (∀ t, SendSignal t ∉ es).
Proof.
  apply (Rotate_hands_over_within_band true 7 three_ready 0 (mkCore 0 1 [B; C; A])
           [C; A]).
  - apply valid_priorities_scenario.
  - repeat split. vm_compute. discriminate.
  - reflexivity.
  - repeat constructor; vm_compute; discriminate.
  - repeat constructor; vm_compute; intros H;
      repeat (apply elem_of_cons in H as [H|H]; [discriminate|]);
      by apply elem_of_nil in H.
Defined.

(** A thread that is neither the front of its core's queue nor marked
    force-yielded gets the exception of [Rotate], and nothing has changed by
    then; on an empty queue the call reads the front of an empty list. *)
Theorem Rotate_not_front cooperative now s c core :
  on_core s (current s) c core →
  (∀ front rest, queue core = front :: rest → front ≠ current s →
     forceYield (threads s (current s)) = false →
     Rotate cooperative now s = Throw Exception s)
  ∧ (queue core = [] → Rotate cooperative now s = Undefined).
Proof.
  intros Hon. split.
  - intros front rest Eq Hne Hforce. unfold Rotate. run.
    rewrite (cores_at_on_core _ _ _ _ Hon), Eq.
    rewrite decide_False by done. by rewrite Hforce.
  - intros Eq. unfold Rotate. run.
    by rewrite (cores_at_on_core _ _ _ _ Hon), Eq.
Qed.

Lemma Rotate_not_front_witness :
  (∀ front rest, [B; C; A] = front :: rest → front ≠ C →
     forceYield (threads (as_thread C three_ready) C) = false →
     Rotate true 7 (as_thread C three_ready)
     = Throw Exception (as_thread C three_ready))
  ∧ ([B; C; A] = [] → Rotate true 7 (as_thread C three_ready) = Undefined).
Proof.
  apply (Rotate_not_front true 7 (as_thread C three_ready) 0 (mkCore 0 1 [B; C; A])).
  repeat split. vm_compute. discriminate.
Defined.

Lemma insert_at_head (n : nat) (x : tid) (front : tid) (l : list tid) :
  n ≠ 0%nat → head (insert_at n x (front :: l)) = Some front.
Proof. intros Hn. destruct n as [|n]; done. Qed.

(** [UpdatePriority] neither loses nor duplicates a thread and never moves
    the front: for any queue and any priorities the call returns, the queue
    of the thread's core holds the same threads as before with the same
    thread at its head, and the other queues are as they were. *)
Theorem UpdatePriority_keeps_threads_and_front s thread c core :
  on_core s thread c core →
  ∃ s', UpdatePriority thread s = Ok tt s'
        ∧ queue_at s' c ≡ₚ queue core
        ∧ head (queue_at s' c) = head (queue core)
        ∧ (∀ c', c' ≠ c → queue_at s' c' = queue_at s c')
        ∧ parkedQueue s' = parkedQueue s.
Proof.
  intros Hon. unfold UpdatePriority. run.
  rewrite (cores_at_on_core _ _ _ _ Hon).
  destruct Hon as (_ & _ & Hc). apply lookup_lt_Some in Hc as Hlen.
  assert (queue_at s c = queue core) as Hq0 by (unfold queue_at; by rewrite Hc).
  destruct (find_pos thread (queue core)) as [[|it]|] eqn:Efind; simpl.
  - rewrite orb_true_r. eexists; split; [reflexivity|]. by rewrite Hq0.
  - apply find_pos_Some in Efind as Hit. apply lookup_lt_Some in Hit as Hlt.
    rewrite bool_decide_eq_false_2 by lia. simpl.
    case_bool_decide as Hsame; [eexists; split; [reflexivity|]; by rewrite Hq0|].
    destruct (queue core) as [|front rest] eqn:Eq; [done|].
    simpl in Hit. cbn [delete list_delete].
    set (q' := front :: delete it rest).
    assert (∀ n, n ≠ 0%nat → insert_at n thread q' ≡ₚ front :: rest) as Hperm.
    { intros n _. rewrite insert_at_Permutation. unfold q'.
      rewrite Permutation_swap. constructor.
      symmetry. by apply delete_Permutation. }
    set (target := upper_bound _ q').
    assert (∀ s1 : Sched,
              length (cores s1) = length (cores s) →
              (∀ c', c' ≠ c → queue_at s1 c' = queue_at s c') →
              parkedQueue s1 = parkedQueue s →
              ∃ s', (if bool_decide (target = 0%nat)
                        && bool_decide (target ≠ length q')
                     then
                       put_queue c (insert_at 1 thread q');;
                       match insert_at 1 thread q' with
                       | front :: _ => yield_once front
                       | [] => undefined
                       end
                     else put_queue c (insert_at target thread q')) s1 = Ok tt s'
                    ∧ queue_at s' c ≡ₚ front :: rest
                    ∧ head (queue_at s' c) = Some front
                    ∧ (∀ c', c' ≠ c → queue_at s' c' = queue_at s c')
                    ∧ parkedQueue s' = parkedQueue s) as Hrest.
    { intros s1 Hlen1 Hframe Hparked.
      destruct (bool_decide (target = 0%nat) && bool_decide (target ≠ length q'))
        eqn:Ecase; run.
      - destruct (negb (pendingYield (threads s1 front))); run;
          (eexists; split; [reflexivity|]; unfold queue_at; simpl;
           rewrite queue_at_alter by lia;
           split; [by apply (Hperm 1%nat)|]; split; [done|]; split; [|done];
           intros c' Hne; rewrite queue_at_other by done; by apply Hframe).
      - assert (target ≠ 0%nat) as Hn.
        { intros Hz. rewrite Hz in Ecase. by simpl in Ecase. }
        eexists; split; [reflexivity|]. unfold queue_at. simpl.
        rewrite queue_at_alter by lia.
        split; [by apply Hperm|]. split; [by apply insert_at_head|].
        split; [|done].
        intros c' Hne. rewrite queue_at_other by done. by apply Hframe. }
    destruct (isPreempted (threads s thread) && _); run;
      match goal with
      | |- ∃ s', _ ?s1 = _ ∧ _ => destruct (Hrest s1) as (s' & E & Hrest')
      end;
      try (simpl; by rewrite length_alter);
      try (intros c' Hne; unfold queue_at; simpl; by rewrite queue_at_other);
      try done;
      (exists s'; split; [exact E|exact Hrest']).
  - rewrite bool_decide_eq_true_2 by done. simpl.
    eexists; split; [reflexivity|]. by rewrite Hq0.
Qed.

Lemma UpdatePriority_keeps_threads_and_front_witness :
  ∃ s', UpdatePriority A (with_priority A 3 three_ready) = Ok tt s'
        ∧ queue_at s' 0 ≡ₚ [B; C; A]
        ∧ head (queue_at s' 0) = head [B; C; A]
        ∧ (∀ c', c' ≠ 0%nat →
             queue_at s' c' = queue_at (with_priority A 3 three_ready) c')
        ∧ parkedQueue s' = parkedQueue (with_priority A 3 three_ready).
Proof.
  apply (UpdatePriority_keeps_threads_and_front (with_priority A 3 three_ready) A 0
           (mkCore 0 1 [B; C; A])).
  repeat split. vm_compute. discriminate.
Defined.

Lemma removed_cons_eq (x : tid) l : removed x (x :: l) = l.
Proof. unfold removed, find_pos. simpl. by rewrite decide_True. Qed.

Lemma removed_cons_ne (x a : tid) l : a ≠ x → removed x (a :: l) = a :: removed x l.
Proof.
  intros Hne. unfold removed, find_pos. simpl. rewrite decide_False by done.
  destruct (list_find _ l) as [[i y]|]; done.
Qed.

Lemma removed_middle (x : tid) l1 l2 : x ∉ l1 → removed x (l1 ++ x :: l2) = l1 ++ l2.
Proof.
  induction l1 as [|a l1 IH]; intros Hnot; simpl.
  - apply removed_cons_eq.
  - apply not_elem_of_cons in Hnot as [Hne Hnot].
    rewrite removed_cons_ne by done. by rewrite IH.
Qed.

Lemma removed_absent (x : tid) l : x ∉ l → removed x l = l.
Proof.
  induction l as [|a l IH]; intros Hnot; [done|].
  apply not_elem_of_cons in Hnot as [Hne Hnot].
  rewrite removed_cons_ne by done. by rewrite IH.
Qed.

Lemma removed_Permutation (x : tid) l : x ∈ l → x :: removed x l ≡ₚ l.
Proof.
  induction l as [|a l IH]; intros Hin; [by apply elem_of_nil in Hin|].
  destruct (decide (a = x)) as [->|Hne].
  - by rewrite removed_cons_eq.
  - apply elem_of_cons in Hin as [->|Hin]; [done|].
    rewrite removed_cons_ne by done. rewrite Permutation_swap. by rewrite IH.
Qed.

Lemma removed_NoDup (x : tid) l : NoDup l → x ∉ removed x l.
Proof.
  induction 1 as [|a l Ha Hnd IH]; [by apply not_elem_of_nil|].
  destruct (decide (a = x)) as [->|Hne].
  - by rewrite removed_cons_eq.
  - rewrite removed_cons_ne by done. apply not_elem_of_cons. done.
Qed.

(** [RemoveThread] in full. *)
Lemma RemoveThread_state now s c core :
  on_core s (current s) c core →
  let q' := removed (current s) (queue core) in
  ∃ s', RemoveThread now s = Ok tt s'
        ∧ queue_at s' c = q'
        ∧ (∀ c', c' ≠ c → queue_at s' c' = queue_at s c')
        ∧ length (cores s') = length (cores s)
        ∧ (∀ i core', cores s' !! i = Some core' →
             ∃ core0, cores s !! i = Some core0 ∧ id core' = id core0
                      ∧ preemptionPriority core' = preemptionPriority core0)
        ∧ current s' = current s
        ∧ parkedQueue s' = parkedQueue s
        ∧ YieldPending s' = false
        ∧ isPreempted (threads s' (current s)) = false
        ∧ (∀ u, u ≠ current s → threads s' u = threads s u)
        ∧ (∀ u, priority (threads s' u) = priority (threads s u)
                ∧ coreId (threads s' u) = coreId (threads s u)
                ∧ affinityMask (threads s' u) = affinityMask (threads s u))
        ∧ trace s'
          = trace s
            ++ (if bool_decide (head (queue core) = Some (current s))
                   && bool_decide (q' ≠ [])
                then [FrontNotify c] else [])
            ++ (if isPreempted (threads s (current s))
                then [TimerSet (current s) false] else []).
Proof.
  intros Hon q'. subst q'. unfold RemoveThread. run.
  rewrite (cores_at_on_core _ _ _ _ Hon).
  destruct Hon as (_ & _ & Hc). apply lookup_lt_Some in Hc as Hlen.
  assert (∀ f : CoreContext → CoreContext,
            (∀ x, id (f x) = id x ∧ preemptionPriority (f x) = preemptionPriority x) →
            ∀ i core', alter f c (cores s) !! i = Some core' →
              ∃ core0, cores s !! i = Some core0 ∧ id core' = id core0
                       ∧ preemptionPriority core' = preemptionPriority core0)
    as Hids.
  { intros f Hf i core' Hi. destruct (decide (i = c)) as [->|Hne].
    - rewrite list_lookup_alter_eq, Hc in Hi. injection Hi as <-.
      exists core. destruct (Hf core). done.
    - rewrite list_lookup_alter_ne in Hi by done. eauto. }
  unfold removed, queue_at.
  destruct (find_pos (current s) (queue core)) as [it|] eqn:Ef; run.
  - apply find_pos_Some in Ef as Hit.
    assert (bool_decide (head (queue core) = Some (current s))
            = bool_decide (it = 0%nat)) as Hhead.
    { apply bool_decide_ext. split.
      - intros Hh. destruct (queue core) as [|x l]; [done|].
        injection Hh as ->. unfold find_pos in Ef. simpl in Ef.
        rewrite decide_True in Ef by done. by injection Ef.
      - intros ->. by destruct (queue core). }
    rewrite Hhead.
    destruct (bool_decide (it = 0%nat)); run;
      [destruct (negb (timesliceStart _ =? 0)); run;
       destruct (bool_decide (delete it (queue core) ≠ [])); run|];
      destruct (isPreempted (threads s (current s))) eqn:Ep; run;
      (eexists; split; [reflexivity|]; simpl;
       rewrite ?app_nil_r, <- ?app_assoc, ?length_alter;
       split; [by apply queue_at_alter|];
       split; [intros c' Hne; by apply queue_at_other|];
       split; [done|];
       split; [by apply Hids|];
       repeat split; try done; try solve_threads;
       rewrite ?decide_True by done; done).
  - assert (bool_decide (head (queue core) = Some (current s)) = false) as Hhead.
    { apply bool_decide_eq_false_2. intros Hh.
      apply find_pos_None in Ef. apply Ef.
      destruct (queue core) as [|x l]; [done|]. injection Hh as ->. left. }
    rewrite Hhead.
    destruct (isPreempted (threads s (current s))) eqn:Ep; run;
      (eexists; split; [reflexivity|]; simpl; rewrite ?app_nil_r, ?Hc;
       repeat split; try done; try solve_threads;
       try (intros; eauto);
       rewrite ?decide_True by done; done).
Qed.

(** [RemoveThread] unlinks the caller and cleans up after it: the call
    returns; on a queue without duplicates the caller is gone from the queue
    of its core and every other thread is still there (a caller that was not
    queued leaves the queue as it is); no other queue changes; the caller's
    [isPreempted] flag and its [YieldPending] flag are cleared; the timer is
    disarmed exactly when the caller was preempted, and the core's condition
    is notified exactly when the caller was the front and a thread remains. *)
Theorem RemoveThread_unlinks now s c core :
  on_core s (current s) c core → NoDup (queue core) →
  ∃ s' es,
    RemoveThread now s = Ok tt s'
    ∧ current s ∉ queue_at s' c
    ∧ (current s ∈ queue core → current s :: queue_at s' c ≡ₚ queue core)
    ∧ (current s ∉ queue core → queue_at s' c = queue core)
    ∧ (∀ c', c' ≠ c → queue_at s' c' = queue_at s c')
    ∧ isPreempted (threads s' (current s)) = false
    ∧ YieldPending s' = false
    ∧ trace s' = trace s ++ es
    ∧ (FrontNotify c ∈ es
       ↔ head (queue core) = Some (current s) ∧ tail (queue core) ≠ [])
    ∧ (∀ b, TimerSet (current s) b ∈ es
            ↔ b = false ∧ isPreempted (threads s (current s)) = true).
Proof.
  intros Hon Hnd.
  destruct (RemoveThread_state now s c core Hon)
    as (s' & E & Hq & Hframe & _ & _ & _ & _ & Hy & Hp & _ & _ & Htrace).
  eexists s', _. split; [done|]. rewrite Hq.
  split; [by apply removed_NoDup|].
  split; [apply removed_Permutation|].
  split; [apply removed_absent|].
  split; [done|]. split; [done|]. split; [done|]. split; [exact Htrace|].
  assert (bool_decide (head (queue core) = Some (current s))
          && bool_decide (removed (current s) (queue core) ≠ []) = true
          ↔ head (queue core) = Some (current s) ∧ tail (queue core) ≠ []) as Hn.
  { rewrite andb_true_iff, !bool_decide_eq_true.
    split; intros [Hh Ht]; (split; [done|]);
      destruct (queue core) as [|x l]; try done;
      injection Hh as ->; by rewrite removed_cons_eq in *. }
  split.
  - rewrite elem_of_app, <- Hn.
    destruct (_ && bool_decide (removed _ _ ≠ [])).
    + split; [done|]. intros _. left. left.
    + split; [|done]. intros [Hin|Hin]; [by apply elem_of_nil in Hin|].
      destruct (isPreempted (threads s (current s)));
        [|by apply elem_of_nil in Hin].
      by apply list_elem_of_singleton in Hin.
  - intros b. rewrite elem_of_app.
    destruct (isPreempted (threads s (current s))).
    + split.
      * intros [Hin|Hin].
        -- destruct (_ && _); [|by apply elem_of_nil in Hin].
           by apply list_elem_of_singleton in Hin.
        -- apply list_elem_of_singleton in Hin. by injection Hin as ->.
      * intros [-> _]. right. left.
    + split; [|by intros [_ ?]]. intros [Hin|Hin]; [|by apply elem_of_nil in Hin].
      destruct (_ && _); [|by apply elem_of_nil in Hin].
      by apply list_elem_of_singleton in Hin.
Qed.

Lemma RemoveThread_unlinks_witness :
  ∃ s' es,
    RemoveThread 7 three_ready = Ok tt s'
    ∧ current three_ready ∉ queue_at s' 0
    ∧ (current three_ready ∈ [B; C; A] →
       current three_ready :: queue_at s' 0 ≡ₚ [B; C; A])
    ∧ (current three_ready ∉ [B; C; A] → queue_at s' 0 = [B; C; A])
    ∧ (∀ c', c' ≠ 0%nat → queue_at s' c' = queue_at three_ready c')
    ∧ isPreempted (threads s' (current three_ready)) = false
    ∧ YieldPending s' = false
    ∧ trace s' = trace three_ready ++ es
    ∧ (FrontNotify 0 ∈ es
       ↔ head [B; C; A] = Some (current three_ready) ∧ tail [B; C; A] ≠ [])
    ∧ (∀ b, TimerSet (current three_ready) b ∈ es
            ↔ b = false
              ∧ isPreempted (threads three_ready (current three_ready)) = true).
Proof.
  apply (RemoveThread_unlinks 7 three_ready 0 (mkCore 0 1 [B; C; A])).
  - repeat split. vm_compute. discriminate.
  - repeat constructor; vm_compute; intros H;
      repeat (apply elem_of_cons in H as [H|H]; [discriminate|]);
      by apply elem_of_nil in H.
Defined.

Lemma linked_sorted s thread q :
  valid_priorities s → sorted_queue s q → linked s thread q = inserted s thread q.
Proof.
  intros Hv Hs. unfold linked, inserted.
  destruct q as [|front rest].
  - by case_decide.
  - pose proof (displaces_front s thread front rest Hv Hs) as Hdis.
    case_decide as Hub.
    + apply Hdis in Hub as Hlt.
      destruct (Z.ltb_spec (prio s thread) (prio s front)); [|lia].
      by rewrite (splice_front_sorted s front rest).
    + destruct (Z.ltb_spec (prio s thread) (prio s front)) as [Hlt|Hge];
        [by apply Hdis in Hlt|].
      rewrite upper_bound_sorted by done. by apply insert_at_upto.
Qed.

(** Insert, then remove. On a sorted queue that does not hold the caller,
    [InsertThread] of the caller followed by its [RemoveThread] gives the
    queue back as it was when the caller does not outrank the front; when it
    does, the front it displaced has been moved behind the other threads of
    its priority and stays there. *)
Theorem InsertThread_then_RemoveThread now s c core :
  valid_priorities s → on_core s (current s) c core →
  sorted_queue s (queue core) → current s ∉ queue core →
  ∃ s1 s2,
    InsertThread (current s) s = Ok tt s1
    ∧ RemoveThread now s1 = Ok tt s2
    ∧ queue_at s2 c
      = match queue core with
        | front :: _ =>
            if prio s (current s) <? prio s front then rotated s (queue core)
            else queue core
        | [] => []
        end.
Proof.
  intros Hv Hon Hs Hnot.
  destruct (InsertThread_state s (current s) c core Hon)
    as (s1 & E1 & Hcores & Hcur & _ & _ & Hthreads & _).
  pose proof Hon as (Hpos & Hcidx & Hc).
  assert (on_core s1 (current s1) c (set_queue (linked s (current s) (queue core)) core))
    as Hon1.
  { rewrite Hcur. destruct (Hthreads (current s)) as (_ & Hcid & _).
    unfold on_core. rewrite Hcid, Hcores, list_lookup_alter_eq, Hc. done. }
  destruct (RemoveThread_state now s1 c _ Hon1) as (s2 & E2 & Hq & _).
  exists s1, s2. split; [done|]. split; [done|].
  rewrite Hq, Hcur. cbn [queue set_queue].
  rewrite linked_sorted by done. unfold inserted.
  destruct (queue core) as [|front rest] eqn:Eq.
  - apply removed_cons_eq.
  - destruct (Z.ltb_spec (prio s (current s)) (prio s front)) as [Hlt|Hge].
    + apply removed_cons_eq.
    + rewrite removed_middle.
      * symmetry. by apply ascending_split.
      * intros Hin. apply list_elem_of_filter in Hin as [_ Hin]. done.
Qed.

Lemma InsertThread_then_RemoveThread_witness :
  ∃ s1 s2,
    InsertThread (current (as_thread 3%nat three_ready)) (as_thread 3%nat three_ready)
    = Ok tt s1
    ∧ RemoveThread 7 s1 = Ok tt s2
    ∧ queue_at s2 0
      = match [B; C; A] with
        | front :: _ =>
            if prio (as_thread 3%nat three_ready) (current (as_thread 3%nat three_ready))
               <? prio (as_thread 3%nat three_ready) front
            then rotated (as_thread 3%nat three_ready) [B; C; A]
            else [B; C; A]
        | [] => []
        end.
Proof.
  apply (InsertThread_then_RemoveThread 7 (as_thread 3%nat three_ready) 0
           (mkCore 0 1 [B; C; A])).
  - apply valid_priorities_scenario.
  - repeat split. vm_compute. discriminate.
  - repeat constructor; vm_compute; discriminate.
  - vm_compute. intros H.
    repeat (apply elem_of_cons in H as [H|H]; [discriminate|]).
    by apply elem_of_nil in H.
Defined.

(** The loop of [LoadBalance] in full: with the mask in range for every core
    it returns without touching the state, and what it has chosen is
    [best_below] the cores examined. *)
Lemma select_core_best s thread currentCore now (all : list CoreContext) s1 :
  ∀ cs i optimalCore minTimeslice,
    (∀ j core, cs !! j = Some core → all !! (i + j)%nat = Some core) →
    mask_covers s thread cs →
    best_below s thread currentCore now all i optimalCore minTimeslice →
    ∃ optimalCore' minTimeslice',
      select_core s thread currentCore now i cs optimalCore minTimeslice s1
      = Ok (optimalCore', minTimeslice') s1
      ∧ best_below s thread currentCore now all (i + length cs)
          optimalCore' minTimeslice'.
Proof.
  induction cs as [|candidateCore cs IH]; intros i opt m Hcs Hcov Hbest; simpl.
  - run. exists opt, m. by rewrite Nat.add_0_r.
  - run. unfold mask_test.
    specialize (Hcs 0%nat candidateCore eq_refl) as Hhere.
    rewrite Nat.add_0_r in Hhere.
    assert (∀ j core, cs !! j = Some core → all !! (S i + j)%nat = Some core)
      as Hcs'.
    { intros j core Hj. specialize (Hcs (S j) core Hj).
      by rewrite Nat.add_succ_r in Hcs. }
    apply Forall_cons in Hcov as [[b Etest] Hcov].
    rewrite Etest. replace (i + S (length cs))%nat with (S i + length cs)%nat by lia.
    set (timeslice := estimate s thread (now i) (queue candidateCore)).
    assert (∀ j t, candidate s thread now all j t → j = i →
              t = timeslice ∧ b = true) as Hi.
    { intros j t (core & Hj & Hperm & ->) ->. rewrite Hhere in Hj.
      injection Hj as <-. unfold permitted in Hperm. split; [done|congruence]. }
    destruct b.
    + assert (candidate s thread now all i timeslice) as Hcand
        by (by exists candidateCore).
      destruct (bool_decide (opt = None) || (timeslice <? m)
                || (timeslice =? m) && bool_decide (i = currentCore)) eqn:Epick.
      * apply IH; [done..|]. split; [lia|]. split; [done|].
        intros j t Hj Hc. destruct (decide (j = i)) as [->|Hne].
        { destruct (Hi i t Hc eq_refl) as [-> _]. split; [lia|done]. }
        destruct opt as [o|]; [|by destruct (Hbest j t ltac:(lia))].
        destruct Hbest as (Ho & Hco & Hmin).
        destruct (Hmin j t ltac:(lia) Hc) as [Hle Htie].
        simpl in Epick.
        destruct (Z.ltb_spec timeslice m); [split; [lia|]; intros; lia|].
        destruct (Z.eqb_spec timeslice m); [|done]. simpl in Epick.
        apply bool_decide_eq_true in Epick. split; [lia|]. intros _ _. by left.
      * apply orb_false_iff in Epick as [Epick Etie].
        apply orb_false_iff in Epick as [Enone Elt].
        apply bool_decide_eq_false in Enone.
        destruct opt as [o|]; [|done].
        destruct Hbest as (Ho & Hco & Hmin).
        apply Z.ltb_ge in Elt.
        apply IH; [done..|]. split; [lia|]. split; [done|].
        intros j t Hj Hc. destruct (decide (j = i)) as [->|Hne];
          [|apply Hmin; [lia|done]].
        destruct (Hi i t Hc eq_refl) as [-> _]. split; [done|].
        intros Heq _. right. split; [|lia].
        intros ->. rewrite Heq, Z.eqb_refl in Etie.
        by rewrite bool_decide_eq_true_2 in Etie.
    + apply IH; [done..|].
      destruct opt as [o|].
      * destruct Hbest as (Ho & Hco & Hmin). split; [lia|]. split; [done|].
        intros j t Hj Hc. destruct (decide (j = i)) as [->|Hne];
          [by destruct (Hi i t Hc eq_refl)|apply Hmin; [lia|done]].
      * intros j t Hj Hc. destruct (decide (j = i)) as [->|Hne];
          [by destruct (Hi i t Hc eq_refl)|by apply (Hbest j t ltac:(lia))].
Qed.

Lemma candidate_lt s thread now cs j t :
  candidate s thread now cs j t → (j < length cs)%nat.
Proof. intros (core & Hj & _). by apply lookup_lt_Some in Hj. Qed.

(** Choice of the core in [LoadBalance]. When the affinity test is in range
    for every core, the loop over the cores returns and leaves the state as
    it is. It selects no core only when the mask permits none. The core it
    selects is permitted and has the least estimate among the permitted
    cores; when another permitted core has the same estimate, the selected
    one is the current core, or else the other one is not the current core
    and comes later in [cores]. *)
Theorem select_core_minimal s thread currentCore now cs s1 :
  mask_covers s thread cs →
  ∃ optimalCore minTimeslice,
    select_core s thread currentCore now 0 cs None 0 s1
    = Ok (optimalCore, minTimeslice) s1
    ∧ match optimalCore with
      | None => ∀ j t, ¬ candidate s thread now cs j t
      | Some o =>
          candidate s thread now cs o minTimeslice
          ∧ ∀ j t, candidate s thread now cs j t →
              minTimeslice ≤ t
              ∧ (minTimeslice = t → j ≠ o →
                 o = currentCore ∨ (j ≠ currentCore ∧ (o < j)%nat))
      end.
Proof.
  intros Hcov.
  destruct (select_core_best s thread currentCore now cs s1 cs 0 None 0)
    as (opt & m & E & Hbest); [done|done|intros j t Hj; lia|].
  exists opt, m. split; [done|]. simpl in Hbest.
  destruct opt as [o|].
  - destruct Hbest as (_ & Hc & Hmin). split; [done|].
    intros j t Hj. apply Hmin; [|done]. by apply candidate_lt in Hj.
  - intros j t Hj. apply (Hbest j t); [|done]. by apply candidate_lt in Hj.
Qed.

Lemma select_core_minimal_witness :
  ∃ optimalCore minTimeslice,
    select_core two_cores C 0 (λ _, 7) 0 (cores two_cores) None 0 two_cores
    = Ok (optimalCore, minTimeslice) two_cores
    ∧ match optimalCore with
      | None => ∀ j t, ¬ candidate two_cores C (λ _, 7) (cores two_cores) j t
      | Some o =>
          candidate two_cores C (λ _, 7) (cores two_cores) o minTimeslice
          ∧ ∀ j t, candidate two_cores C (λ _, 7) (cores two_cores) j t →
              minTimeslice ≤ t
              ∧ (minTimeslice = t → j ≠ o →
                 o = 0%nat ∨ (j ≠ 0%nat ∧ (o < j)%nat))
      end.
Proof.
  apply (select_core_minimal two_cores C 0 (λ _, 7) (cores two_cores) two_cores).
  repeat constructor; eexists; vm_compute; reflexivity.
Defined.

Lemma InsertThread_lands s thread c core :
  on_core s thread c core →
  ∃ s', InsertThread thread s = Ok tt s'
        ∧ thread ∈ queue_at s' c
        ∧ coreId (threads s' thread) = coreId (threads s thread).
Proof.
  intros Hon.
  destruct (InsertThread_state s thread c core Hon)
    as (s' & E & Hcores & _ & _ & _ & Hthreads & _).
  destruct Hon as (_ & _ & Hc). apply lookup_lt_Some in Hc as Hlen.
  exists s'. split; [done|]. split; [|apply Hthreads].
  unfold queue_at. rewrite Hcores, queue_at_alter by done.
  rewrite linked_Permutation. left.
Qed.

(** The tail of [LoadBalance] on the paths that do not migrate. *)
Lemma LoadBalance_stay s thread alwaysInsert c core :
  on_core s thread c core →
  ∃ s', (when alwaysInsert (InsertThread thread);;
         emit (LogDebug thread);; mret c) s = Ok c s'
        ∧ coreId (threads s' thread) = Z.of_nat c
        ∧ (alwaysInsert = true → thread ∈ queue_at s' c).
Proof.
  intros Hon. pose proof Hon as (Hpos & -> & _).
  destruct alwaysInsert; run.
  - destruct (InsertThread_lands s thread _ core Hon) as (s' & -> & Hin & Hid).
    eexists. split; [reflexivity|]. simpl. split; [lia|done].
  - eexists. split; [reflexivity|]. simpl. split; [lia|done].
Qed.

(** The tail of [LoadBalance] on the path that migrates to core [o]. *)
Lemma LoadBalance_move s thread o optimal core :
  id optimal = Z.of_nat o → (o < 128)%nat → cores s !! o = Some core →
  ∃ s', (update thread (set_coreId (to_i8 (id optimal)));;
         InsertThread thread;; emit (LogDebug thread);; mret o) s = Ok o s'
        ∧ coreId (threads s' thread) = Z.of_nat o
        ∧ thread ∈ queue_at s' o.
Proof.
  intros Hid Ho Hc. run. rewrite Hid, to_i8_small by lia.
  match goal with
  | |- context [InsertThread thread ?s2] =>
      destruct (InsertThread_lands s2 thread o core) as (s' & -> & Hin & Hcid)
  end.
  { unfold on_core. simpl. rewrite decide_True by done. simpl.
    rewrite Nat2Z.id. split; [lia|done]. }
  eexists. split; [reflexivity|]. simpl. split; [|done].
  rewrite Hcid. simpl. by rewrite decide_True.
Qed.

(** Migration in [LoadBalance]. For a thread on a permitted core, with the
    affinity test in range for every core and the caller allowed to migrate
    it ([alwaysInsert], or the thread is the caller), [LoadBalance] returns
    a core [o] and leaves the thread assigned to it; the thread is in the
    queue of [o] when it was inserted or migrated. It leaves its core only
    when the queue there is not empty and [o] is a permitted core whose
    estimate is the least of all permitted cores and strictly less than the
    estimate of the core it leaves. *)
Theorem LoadBalance_moves_to_best s thread alwaysInsert now nowRemove c cur :
  core_ids_ok s → on_core s thread c cur → permitted s thread cur →
  mask_covers s thread (cores s) →
  alwaysInsert = true ∨ thread = current s →
  ∃ o s',
    LoadBalance thread alwaysInsert now nowRemove s = Ok o s'
    ∧ coreId (threads s' thread) = Z.of_nat o
    ∧ (alwaysInsert = true ∨ o ≠ c → thread ∈ queue_at s' o)
    ∧ (o ≠ c →
       queue cur ≠ []
       ∧ ∃ m, candidate s thread now (cores s) o m
              ∧ (∀ j t, candidate s thread now (cores s) j t → m ≤ t)
              ∧ (∀ t, candidate s thread now (cores s) c t → m < t)).
Proof.
  intros Hids Hon Hperm Hcov Hcaller. unfold LoadBalance. run.
  rewrite (cores_at_on_core _ _ _ _ Hon).
  destruct (LoadBalance_stay s thread alwaysInsert c cur Hon)
    as (s' & Estay & Hcid & Hin).
  assert (∃ o s',
    (when alwaysInsert (InsertThread thread);;
     emit (LogDebug thread);; mret c) s = Ok o s'
    ∧ coreId (threads s' thread) = Z.of_nat o
    ∧ (alwaysInsert = true ∨ o ≠ c → thread ∈ queue_at s' o)
    ∧ (o ≠ c →
       queue cur ≠ []
       ∧ ∃ m, candidate s thread now (cores s) o m
              ∧ (∀ j t, candidate s thread now (cores s) j t → m ≤ t)
              ∧ (∀ t, candidate s thread now (cores s) c t → m < t))) as Hstay.
  { exists c, s'. split; [done|]. split; [done|]. split; [|done].
    intros [->|?]; [by apply Hin|done]. }
  destruct (bool_decide (queue cur = [])) eqn:Eempty; [exact Hstay|].
  apply bool_decide_eq_false in Eempty.
  destruct (bool_decide (mask_count _ = 1%nat)); [exact Hstay|]. simpl.
  destruct (select_core_best s thread c now (cores s) s (cores s) 0 None 0)
    as (opt & m & -> & Hbest); [done|done|intros j t Hj; lia|].
  simpl in Hbest. pose proof Hon as (_ & _ & Hc).
  destruct opt as [o|].
  2: { destruct (Hbest c (estimate s thread (now c) (queue cur))).
       - by apply lookup_lt_Some in Hc.
       - by exists cur. }
  destruct Hbest as (Ho & Hcand & Hmin).
  destruct (decide (Some o ≠ Some c)) as [Hne|]; [|exact Hstay].
  assert (o ≠ c) as Hoc by congruence.
  pose proof Hcand as (optimal & Hopt & _ & _). rewrite Hopt.
  destruct (Hids o optimal Hopt) as [Hid Ho128].
  assert (∀ s1, length (cores s1) = length (cores s) →
          ∃ s',
            (update thread (set_coreId (to_i8 (id optimal)));;
             InsertThread thread;; emit (LogDebug thread);; mret o) s1 = Ok o s'
            ∧ coreId (threads s' thread) = Z.of_nat o
            ∧ thread ∈ queue_at s' o) as Hmove.
  { intros s1 Hlen.
    destruct (lookup_lt_is_Some_2 (cores s1) o) as [core1 Hcore1]; [lia|].
    by apply (LoadBalance_move s1 thread o optimal core1). }
  assert (∀ s2, thread ∈ queue_at s2 o →
          (alwaysInsert = true ∨ o ≠ c → thread ∈ queue_at s2 o)
          ∧ (o ≠ c →
             queue cur ≠ []
             ∧ ∃ m, candidate s thread now (cores s) o m
                    ∧ (∀ j t, candidate s thread now (cores s) j t → m ≤ t)
                    ∧ (∀ t, candidate s thread now (cores s) c t → m < t)))
    as Hdone.
  { intros s2 Hin2. split; [done|]. intros _. split; [done|].
    exists m. split; [done|]. split.
    - intros j t Hj. apply (Hmin j t); [by apply candidate_lt in Hj|done].
    - intros t Hct.
      destruct (Hmin c t) as [Hle Htie]; [by apply candidate_lt in Hct|done|].
      destruct (decide (m = t)) as [Heq|]; [|lia].
      destruct (Htie Heq) as [?|[? _]]; done. }
  destruct alwaysInsert; simpl.
  - destruct (Hmove s eq_refl) as (s2 & E2 & Hcid2 & Hin2).
    exists o, s2. split; [exact E2|]. split; [done|]. by apply Hdone.
  - destruct Hcaller as [?| ->]; [done|].
    rewrite bool_decide_eq_true_2 by done.
    destruct (RemoveThread_state nowRemove s c cur Hon)
      as (s1 & -> & _ & _ & Hlen & _).
    destruct (Hmove s1 Hlen) as (s2 & E2 & Hcid2 & Hin2).
    exists o, s2. split; [exact E2|]. split; [done|]. by apply Hdone.
Qed.

Lemma LoadBalance_moves_to_best_witness :
  ∃ o s',
    LoadBalance C false (λ _, 7) 7 two_cores = Ok o s'
    ∧ coreId (threads s' C) = Z.of_nat o
    ∧ (false = true ∨ o ≠ 0%nat → C ∈ queue_at s' o)
    ∧ (o ≠ 0%nat →
       [B; C; A] ≠ []
       ∧ ∃ m, candidate two_cores C (λ _, 7) (cores two_cores) o m
              ∧ (∀ j t, candidate two_cores C (λ _, 7) (cores two_cores) j t →
                        m ≤ t)
              ∧ (∀ t, candidate two_cores C (λ _, 7) (cores two_cores) 0 t →
                      m < t)).
Proof.
  apply (LoadBalance_moves_to_best two_cores C false (λ _, 7) 7 0
           (mkCore 0 1 [B; C; A])).
  - intros [|[|i]] core [= <-]; vm_compute; split; (done || lia).
  - repeat split. vm_compute. discriminate.
  - reflexivity.
  - repeat constructor; eexists; vm_compute; reflexivity.
  - by right.
Defined.

Lemma to_i8_high p : 128 ≤ p < 256 → to_i8 p = p - 256.
Proof.
  intros Hp. unfold to_i8, wrap8. rewrite Z.mod_small by lia.
  destruct (Z.ltb_spec p 128); lia.
Qed.

(** Priorities of 128 and more. The priority is a [u8] that
    [IsHigherPriority] receives as an [i8]: a thread whose priority lies in
    128..255 compares as higher than every thread, so [InsertThread] puts it
    at the front of any queue, whatever the priorities queued there, and
    marks the front it displaces as force-yielded. *)
Theorem InsertThread_priority_above_127 s thread c core :
  (∀ u, 0 ≤ prio s u < 256) → 128 ≤ prio s thread →
  on_core s thread c core →
  ∃ s', InsertThread thread s = Ok tt s'
        ∧ head (queue_at s' c) = Some thread
        ∧ ∀ front, head (queue core) = Some front →
            forceYield (threads s' front) = true.
Proof.
  intros Hu8 Hhigh Hon.
  assert (upper_bound (IsHigherPriority s (prio s thread)) (queue core) = 0%nat)
    as Hub.
  { apply (upper_bound_partition _ [] (queue core)); [constructor|].
    apply Forall_forall. intros u _. unfold IsHigherPriority.
    pose proof (Hu8 thread) as Ht. pose proof (Hu8 u) as Hu.
    rewrite to_i8_high by lia.
    apply Z.ltb_lt. unfold prio in *. lia. }
  destruct (InsertThread_state s thread c core Hon)
    as (s' & E & Hcores & _ & _ & _ & _ & Hfront).
  destruct Hon as (_ & _ & Hc). apply lookup_lt_Some in Hc as Hlen.
  exists s'. split; [done|]. split.
  - unfold queue_at. rewrite Hcores, queue_at_alter by done.
    unfold linked. rewrite decide_True by done.
    by destruct (queue core).
  - intros front Hhead. by destruct (Hfront front Hhead Hub) as [? _].
Qed.

Lemma InsertThread_priority_above_127_witness :
  ∃ s', InsertThread A (with_priority A 200 three_ready) = Ok tt s'
        ∧ head (queue_at s' 0) = Some A
        ∧ ∀ front, head [B; C; A] = Some front →
            forceYield (threads s' front) = true.
Proof.
  apply (InsertThread_priority_above_127 (with_priority A 200 three_ready) A 0
           (mkCore 0 1 [B; C; A])).
  - intros u. unfold prio. simpl.
    destruct (decide (u = A)); simpl; [lia|].
    destruct (decide (u = A)); simpl; lia.
  - vm_compute. discriminate.
  - repeat split. vm_compute. discriminate.
Defined.

(** Signals and timers of [UpdatePriority]. For a queued thread that is not
    the front, with the other entries sorted, the call disarms the thread's
    preemption timer exactly when it was armed and the thread's priority is
    no longer the preemption priority of the core, and sends a yield signal
    to the front exactly when the thread now outranks it and no yield is
    pending for it; nothing else is written to a thread object. *)
Theorem UpdatePriority_events s thread c core it front :
  valid_priorities s → on_core s thread c core →
  find_pos thread (queue core) = Some (S it) →
  head (queue core) = Some front →
  sorted_queue s (delete (S it) (queue core)) →
  ∃ s',
    UpdatePriority thread s = Ok tt s'
    ∧ trace s'
      = trace s
        ++ (if isPreempted (threads s thread)
               && negb (prio s thread =? preemptionPriority core)
            then [TimerSet thread false] else [])
        ++ (if (prio s thread <? prio s front)
               && negb (pendingYield (threads s front))
            then [SendSignal front] else [])
    ∧ isPreempted (threads s' thread)
      = isPreempted (threads s thread)
        && (prio s thread =? preemptionPriority core)
    ∧ (prio s thread < prio s front → pendingYield (threads s' front) = true)
    ∧ (∀ u, u ≠ thread → u ≠ front → threads s' u = threads s u).
Proof.
  intros Hv Hon Hfind Hhead Hs. unfold UpdatePriority. run.
  rewrite (cores_at_on_core _ _ _ _ Hon).
  destruct Hon as (_ & _ & Hc). apply lookup_lt_Some in Hc as Hlen.
  rewrite Hfind. simpl.
  apply find_pos_Some in Hfind as Hit. apply lookup_lt_Some in Hit as Hlt.
  rewrite bool_decide_eq_false_2 by lia. simpl.
  fold (prio s thread).
  rewrite bool_decide_eq_false_2; cycle 1.
  { intros E. symmetry in E. revert E. eapply upper_bound_stop; [exact Hit|].
    unfold IsHigherPriority. rewrite to_i8_small by apply Hv.
    apply Z.ltb_irrefl. }
  destruct (queue core) as [|front' rest] eqn:Eq; [done|].
  injection Hhead as ->. cbn [delete list_delete] in *.
  set (q := front :: delete it rest) in *.
  rewrite upper_bound_sorted by (apply Hv || done).
  assert (∀ s1 : Sched,
            pendingYield (threads s1 front) = pendingYield (threads s front) →
            ∃ s', (if bool_decide (length (upto (prio s) (prio s thread) q) = 0%nat)
                      && bool_decide (length (upto (prio s) (prio s thread) q)
                                      ≠ length q)
                   then
                     put_queue c (insert_at 1 thread q);;
                     match insert_at 1 thread q with
                     | front :: _ => yield_once front
                     | [] => undefined
                     end
                   else put_queue c
                          (insert_at (length (upto (prio s) (prio s thread) q))
                             thread q))
                    s1 = Ok tt s'
                  ∧ trace s'
                    = trace s1
                      ++ (if (prio s thread <? prio s front)
                             && negb (pendingYield (threads s front))
                          then [SendSignal front] else [])
                  ∧ (prio s thread < prio s front →
                     pendingYield (threads s' front) = true)
                  ∧ (∀ u, isPreempted (threads s' u) = isPreempted (threads s1 u))
                  ∧ (∀ u, u ≠ front → threads s' u = threads s1 u)) as Hrest.
  { intros s1 Hpy. subst q.
    destruct (Z.ltb_spec (prio s thread) (prio s front)) as [Hlt'|Hge].
    - rewrite (upto_none (prio s)) by (by apply sorted_above_front).
      simpl. run. rewrite Hpy.
      destruct (pendingYield (threads s front)) eqn:Epy; run;
        (eexists; split; [reflexivity|]; simpl; rewrite ?app_nil_r;
         split; [done|]; split;
         [intros _; rewrite ?decide_True by done; simpl; congruence|];
         split; intros u; repeat (destruct (decide _); simpl); congruence).
    - rewrite (bool_decide_eq_false_2
                 (length (upto (prio s) (prio s thread)
                            (front :: delete it rest)) = 0%nat))
        by (by rewrite upto_cons_le by lia).
      simpl. run. eexists; split; [reflexivity|]. simpl. rewrite app_nil_r.
      split; [done|]. split; [lia|]. done. }
  destruct (isPreempted (threads s thread)) eqn:Epre; simpl;
    [destruct (Z.eqb_spec (prio s thread) (preemptionPriority core)) as [Heq|Hne];
     simpl|]; run.
  - match goal with
    | |- ∃ s', _ ?s1 = _ ∧ _ => destruct (Hrest s1) as (s' & E & Ht & Hp & Hi & Ho)
    end; [done|].
    exists s'. split; [by rewrite <- E|]. split; [by rewrite Ht|].
    split; [by rewrite Hi|]. split; [done|]. intros u _ Hu. by apply Ho.
  - match goal with
    | |- ∃ s', _ ?s1 = _ ∧ _ => destruct (Hrest s1) as (s' & E & Ht & Hp & Hi & Ho)
    end.
    { simpl. by destruct (decide (front = thread)). }
    exists s'. split; [by rewrite <- E|]. split.
    { rewrite Ht. simpl. by rewrite <- app_assoc. }
    split. { rewrite Hi. simpl. by rewrite decide_True. }
    split; [done|]. intros u Hut Hu. rewrite Ho by done. simpl.
    by rewrite decide_False.
  - match goal with
    | |- ∃ s', _ ?s1 = _ ∧ _ => destruct (Hrest s1) as (s' & E & Ht & Hp & Hi & Ho)
    end; [done|].
    exists s'. split; [by rewrite <- E|]. split; [by rewrite Ht|].
    split; [by rewrite Hi|]. split; [done|]. intros u _ Hu. by apply Ho.
Qed.

Lemma UpdatePriority_events_witness :
  ∃ s',
    UpdatePriority A (with_priority A 3 three_ready) = Ok tt s'
    ∧ trace s'
      = trace (with_priority A 3 three_ready)
        ++ (if isPreempted (threads (with_priority A 3 three_ready) A)
               && negb (prio (with_priority A 3 three_ready) A
                        =? preemptionPriority (mkCore 0 1 [B; C; A]))
            then [TimerSet A false] else [])
        ++ (if (prio (with_priority A 3 three_ready) A
                <? prio (with_priority A 3 three_ready) B)
               && negb (pendingYield (threads (with_priority A 3 three_ready) B))
            then [SendSignal B] else [])
    ∧ isPreempted (threads s' A)
      = isPreempted (threads (with_priority A 3 three_ready) A)
        && (prio (with_priority A 3 three_ready) A
            =? preemptionPriority (mkCore 0 1 [B; C; A]))
    ∧ (prio (with_priority A 3 three_ready) A
       < prio (with_priority A 3 three_ready) B →
       pendingYield (threads s' B) = true)
    ∧ (∀ u, u ≠ A → u ≠ B → threads s' u = threads (with_priority A 3 three_ready) u).
Proof.
  apply (UpdatePriority_events (with_priority A 3 three_ready) A 0
           (mkCore 0 1 [B; C; A]) 1 B).
  - intros u. unfold prio. simpl.
    destruct (decide (u = A)); simpl; [lia|].
    destruct (decide (u = A)); simpl; lia.
  - repeat split. vm_compute. discriminate.
  - reflexivity.
  - reflexivity.
  - repeat constructor; vm_compute; discriminate.
Defined.

End SchedulerMore.

Module ParkingFacts.
Import Scheduler SchedulerFacts SchedulerMore Parking.

(** The loop of [ParkThread]: it changes nothing but the [coreId] of the
    thread, which ends up as the identifier of the last eligible core of
    [cs], and stays as it was when there is none. *)
Lemma pick_core_spec s thread originalCoreId :
  ∀ cs s1,
    mask_covers s thread cs →
    ∃ s1',
      pick_core s thread originalCoreId cs s1 = Ok tt s1'
      ∧ cores s1' = cores s1 ∧ parkedQueue s1' = parkedQueue s1
      ∧ current s1' = current s1
      ∧ (∀ u, priority (threads s1' u) = priority (threads s1 u))
      ∧ ((Forall (λ core, ¬ eligible s thread originalCoreId core) cs
          ∧ coreId (threads s1' thread) = coreId (threads s1 thread))
         ∨ ∃ pre core post,
             cs = pre ++ core :: post
             ∧ eligible s thread originalCoreId core
             ∧ Forall (λ core, ¬ eligible s thread originalCoreId core) post
             ∧ coreId (threads s1' thread) = to_i8 (id core)).
Proof.
  induction cs as [|core cs IH]; intros s1 Hcov; simpl.
  - run. exists s1. repeat split; try done. by left.
  - apply Forall_cons in Hcov as [[b Etest] Hcov].
    assert (∀ s2,
      cores s2 = cores s1 → parkedQueue s2 = parkedQueue s1 →
      current s2 = current s1 →
      (∀ u, priority (threads s2 u) = priority (threads s1 u)) →
      (¬ eligible s thread originalCoreId core
       ∧ coreId (threads s2 thread) = coreId (threads s1 thread))
      ∨ (eligible s thread originalCoreId core
         ∧ coreId (threads s2 thread) = to_i8 (id core)) →
      ∃ s1',
        pick_core s thread originalCoreId cs s2 = Ok tt s1'
        ∧ cores s1' = cores s1 ∧ parkedQueue s1' = parkedQueue s1
        ∧ current s1' = current s1
        ∧ (∀ u, priority (threads s1' u) = priority (threads s1 u))
        ∧ ((Forall (λ core, ¬ eligible s thread originalCoreId core) (core :: cs)
            ∧ coreId (threads s1' thread) = coreId (threads s1 thread))
           ∨ ∃ pre core' post,
               core :: cs = pre ++ core' :: post
               ∧ eligible s thread originalCoreId core'
               ∧ Forall (λ core, ¬ eligible s thread originalCoreId core) post
               ∧ coreId (threads s1' thread) = to_i8 (id core'))) as Hrest.
    { intros s2 Hc2 Hp2 Hcur2 Hprio2 Hhere.
      destruct (IH s2 Hcov) as (s1' & E & Hc & Hp & Hcur & Hprio & Hsel).
      exists s1'. split; [done|]. split; [congruence|]. split; [congruence|].
      split; [congruence|]. split; [intros u; by rewrite Hprio|].
      destruct Hsel as [[Hnone Hid]|(pre & core' & post & -> & Hel & Hpost & Hid)].
      - destruct Hhere as [[Hne Hid2]|[Hel Hid2]].
        + left. split; [by constructor|congruence].
        + right. exists [], core, cs. split; [done|]. split; [done|].
          split; [done|congruence].
      - right. exists (core :: pre), core', post. done. }
    run. unfold mask_test. destruct (decide (originalCoreId ≠ id core)) as [Hne|Heq].
    + rewrite (bool_decide_eq_true_2 _ Hne), Etest. simpl.
      destruct b; simpl.
      * destruct (queue core) as [|front rest] eqn:Eq; simpl.
        -- apply Hrest; simpl;
             [done|done|done|intros u; by destruct (decide (u = thread))|].
           right. split; [|by rewrite decide_True].
           unfold eligible. by rewrite Eq.
        -- destruct (Z.ltb_spec (priority (threads s thread))
                       (priority (threads s front))) as [Hlt|Hge]; simpl.
           ++ apply Hrest; simpl;
                [done|done|done|intros u; by destruct (decide (u = thread))|].
              right. split; [|by rewrite decide_True].
              unfold eligible. by rewrite Eq.
           ++ apply Hrest; try done. left. split; [|done].
              unfold eligible. rewrite Eq. intros (_ & _ & ?). lia.
      * apply Hrest; try done. left. split; [|done].
        intros (_ & Hperm & _). unfold permitted in Hperm. congruence.
    + rewrite (bool_decide_eq_false_2 _ Heq). simpl.
      apply Hrest; try done. left. split; [|done]. by intros (? & _).
Qed.

Lemma filter_key_agree (key key' : tid → Z) (p : Z) (l : list tid) :
  (∀ u, key' u = key u) →
  upto key' p l = upto key p l ∧ above key' p l = above key p l.
Proof.
  intros Hk. unfold upto, above.
  split; apply list_filter_iff; intros u; by rewrite Hk.
Qed.

Section WithParkedCoreId.
Variable ParkedCoreId : Z.
Hypothesis ParkedCoreId_i8 : -128 ≤ ParkedCoreId < 128.

Lemma to_i8_ParkedCoreId : to_i8 ParkedCoreId = ParkedCoreId.
Proof.
  unfold to_i8, wrap8. destruct (decide (0 ≤ ParkedCoreId)).
  - rewrite Z.mod_small by lia. destruct (Z.ltb_spec ParkedCoreId 128); lia.
  - replace (ParkedCoreId mod 2 ^ 8) with (ParkedCoreId + 256).
    + destruct (Z.ltb_spec (ParkedCoreId + 256) 128); lia.
    + apply (Z.mod_unique_pos _ _ (-1)); lia.
Qed.

(** [ParkThread], up to the wait. The caller is unlinked from the queue of
    its core, and no other ready queue changes. It parks exactly when no
    core is eligible: its [coreId] is then [ParkedCoreId] and it has joined
    the parked queue, which stays sorted, behind the parked threads of its
    priority. Otherwise it is assigned to the last eligible core in [cores],
    the parked queue is as it was, and the [InsertThread] that ends
    [ParkThread] returns with the caller in the queue of that core. *)
Theorem ParkThread_parks_or_moves now s c core :
  ¬ (0 ≤ ParkedCoreId < Z.of_nat (length (cores s))) →
  core_ids_ok s → on_core s (current s) c core →
  mask_covers s (current s) (cores s) →
  ∃ parked s',
    ParkThread_enter ParkedCoreId now s = Ok parked s'
    ∧ current s' = current s
    ∧ queue_at s' c = removed (current s) (queue core)
    ∧ (∀ c', c' ≠ c → queue_at s' c' = queue_at s c')
    ∧ if (parked : bool) then
        coreId (threads s' (current s)) = ParkedCoreId
        ∧ parkedQueue s' ≡ₚ current s :: parkedQueue s
        ∧ (valid_priorities s → sorted_queue s (parkedQueue s) →
           parkedQueue s'
           = upto (prio s) (prio s (current s)) (parkedQueue s)
             ++ current s :: above (prio s) (prio s (current s)) (parkedQueue s))
        ∧ ∀ j core', cores s !! j = Some core' →
            ¬ eligible s (current s) (Z.of_nat c) core'
      else
        parkedQueue s' = parkedQueue s
        ∧ ∃ j core',
            cores s !! j = Some core'
            ∧ eligible s (current s) (Z.of_nat c) core'
            ∧ coreId (threads s' (current s)) = Z.of_nat j
            ∧ (∀ k core'', (j < k)%nat → cores s !! k = Some core'' →
                 ¬ eligible s (current s) (Z.of_nat c) core'')
            ∧ ∃ s'', ParkThread_leave s' = Ok tt s''
                     ∧ current s ∈ queue_at s'' j.
Proof.
  intros Hnocore Hids Hon Hcov.
  destruct (RemoveThread_state now s c core Hon)
    as (s1 & E1 & Hq & Hframe & Hlen & Hcores1 & Hcur1 & Hparked1 & _ & _ & _
        & Hfields & _).
  pose proof Hon as (Hpos & Hcidx & Hc).
  assert (coreId (threads s1 (current s)) = Z.of_nat c) as Horig.
  { destruct (Hfields (current s)) as (_ & -> & _). lia. }
  (* eligibility is the same before and after the caller is unlinked *)
  assert (∀ j core1, cores s1 !! j = Some core1 →
            ∃ core0, cores s !! j = Some core0
                     ∧ (eligible s1 (current s) (Z.of_nat c) core1
                        ↔ eligible s (current s) (Z.of_nat c) core0)) as Heligible.
  { intros j core1 Hj. destruct (Hcores1 j core1 Hj) as (core0 & Hj0 & Hid & _).
    exists core0. split; [done|].
    destruct (Hids j core0 Hj0) as [Hid0 _].
    unfold eligible, permitted. rewrite Hid.
    destruct (Hfields (current s)) as (-> & _ & ->).
    destruct (decide (j = c)) as [->|Hne].
    - split; intros (Hne & _); lia.
    - specialize (Hframe j Hne). unfold queue_at in Hframe.
      rewrite Hj, Hj0 in Hframe. simpl in Hframe. rewrite Hframe.
      destruct (queue core0) as [|front rest]; [done|].
      by destruct (Hfields front) as (-> & _). }
  assert (mask_covers s1 (current s) (cores s1)) as Hcov1.
  { apply Forall_forall. intros core1 Hin.
    apply list_elem_of_lookup in Hin as [j Hj].
    destruct (Hcores1 j core1 Hj) as (core0 & Hj0 & -> & _).
    destruct (Hfields (current s)) as (_ & _ & ->).
    unfold mask_covers in Hcov. rewrite Forall_forall in Hcov.
    apply Hcov. by apply list_elem_of_lookup_2 in Hj0. }
  unfold ParkThread_enter. run. rewrite E1. simpl. rewrite Horig.
  match goal with
  | |- context [pick_core s1 (current s) (Z.of_nat c) (cores s1) ?s2] =>
      destruct (pick_core_spec s1 (current s) (Z.of_nat c) (cores s1) s2 Hcov1)
        as (s3 & -> & Hcores3 & Hparked3 & Hcur3 & Hprio3 & Hsel)
  end.
  simpl in Hcores3, Hparked3, Hcur3, Hprio3, Hsel.
  rewrite decide_True in Hsel by done. simpl in Hsel.
  rewrite to_i8_ParkedCoreId in Hsel.
  assert (queue_at s3 c = removed (current s) (queue core)
          ∧ ∀ c', c' ≠ c → queue_at s3 c' = queue_at s c') as [Hq3 Hframe3].
  { unfold queue_at in *. rewrite Hcores3. done. }
  destruct Hsel as [[Hnone Hid]|(pre & core1 & post & Hsplit & Hel & Hpost & Hid)].
  - rewrite Hid, Z.eqb_refl. run.
    eexists true, _. split; [reflexivity|]. simpl.
    split; [congruence|]. split; [done|]. split; [done|]. split; [done|].
    rewrite Hparked3, Hparked1.
    split; [apply insert_at_Permutation|]. split.
    + intros Hv Hs.
      assert (∀ u, prio s3 u = prio s u) as Hprio.
      { intros u. unfold prio. rewrite Hprio3. simpl.
        destruct (decide (u = current s)); simpl; apply Hfields. }
      fold (prio s3 (current s)).
      destruct (filter_key_agree (prio s) (prio s3) (prio s (current s))
                  (parkedQueue s) Hprio) as [<- <-].
      rewrite <- (Hprio (current s)).
      assert (sorted_queue s3 (parkedQueue s)) as Hs3
        by (apply (ascending_agree (prio s)); [intros; apply Hprio|done]).
      rewrite upper_bound_sorted; [|rewrite Hprio; apply Hv|done].
      by apply insert_at_upto.
    + intros j core0 Hj0 Hel0.
      destruct (lookup_lt_is_Some_2 (cores s1) j) as [core1 Hj1].
      { rewrite Hlen. by apply lookup_lt_Some in Hj0. }
      destruct (Heligible j core1 Hj1) as (core0' & Hj0' & Hiff).
      assert (core0' = core0) as -> by congruence.
      rewrite Forall_forall in Hnone. apply (Hnone core1).
      * by apply list_elem_of_lookup_2 in Hj1.
      * by apply Hiff.
  - assert (cores s1 !! length pre = Some core1) as Hj1.
    { rewrite Hsplit. by apply list_lookup_middle. }
    destruct (Heligible _ core1 Hj1) as (core0 & Hj0 & Hiff).
    destruct (Hcores1 _ core1 Hj1) as (core0' & Hj0' & Hid1 & _).
    assert (core0' = core0) as -> by congruence.
    destruct (Hids _ core0 Hj0) as [Hid0 Hsmall].
    rewrite Hid1, Hid0, to_i8_small in Hid by lia.
    apply lookup_lt_Some in Hj0 as Hlt.
    rewrite Hid. destruct (Z.eqb_spec (Z.of_nat (length pre)) ParkedCoreId);
      [exfalso; apply Hnocore; lia|]. run.
    eexists false, _. split; [reflexivity|].
    split; [congruence|]. split; [done|]. split; [done|].
    split; [congruence|].
    exists (length pre), core0. split; [done|]. split; [by apply Hiff|].
    split; [done|]. split.
    + intros k core0k Hk Hk0 Helk.
      destruct (lookup_lt_is_Some_2 (cores s1) k) as [core1k Hk1].
      { rewrite Hlen. by apply lookup_lt_Some in Hk0. }
      destruct (Heligible k core1k Hk1) as (core0k' & Hk0' & Hiffk).
      assert (core0k' = core0k) as -> by congruence.
      rewrite Forall_forall in Hpost. apply (Hpost core1k); [|by apply Hiffk].
      rewrite Hsplit in Hk1.
      rewrite lookup_app_r in Hk1 by lia.
      destruct (k - length pre)%nat as [|k'] eqn:Ek; [lia|]. simpl in Hk1.
      by apply list_elem_of_lookup_2 in Hk1.
    + unfold ParkThread_leave. run. rewrite Hcur3. simpl. rewrite Hcur1.
      destruct (InsertThread_lands s3 (current s) (length pre) core1)
        as (s4 & E4 & Hin4 & _).
      { unfold on_core. rewrite Hid, Nat2Z.id, Hcores3. simpl.
        split; [lia|done]. }
      by exists s4.
Qed.
End WithParkedCoreId.

(** Waking a parked thread. With a parked thread and a second thread in
    the caller's queue, [WakeParkedThread] returns. When the parked front
    outranks the caller, or has the caller's priority while the thread
    behind the running one has another priority or started its timeslice
    later, the parked front is assigned to the caller's core and
    [parkedFrontCondition] is notified: the predicate the parked thread waits
    for then holds, and its [InsertThread] puts it on the caller's core, the
    parked queue being left as it is. Otherwise nothing changes. *)
Theorem WakeParkedThread_resumes ParkedCoreId s c core parkedThread rest
    running next others :
  parkedQueue s = parkedThread :: rest →
  on_core s (current s) c core →
  queue core = running :: next :: others →
  coreId (threads s (current s)) ≠ ParkedCoreId →
  ∃ s',
    WakeParkedThread s = Ok tt s'
    ∧ (prio s parkedThread < prio s (current s)
       ∨ (prio s parkedThread = prio s (current s)
          ∧ (prio s next ≠ prio s (current s)
             ∨ timesliceStart (threads s parkedThread)
               < timesliceStart (threads s next))) →
       trace s' = trace s ++ [ParkedNotify]
       ∧ parked_ready ParkedCoreId s' parkedThread = true
       ∧ ∃ s'', ParkThread_leave (as_thread parkedThread s') = Ok tt s''
                ∧ parkedThread ∈ queue_at s'' c
                ∧ parkedQueue s'' = parkedThread :: rest)
    ∧ (¬ (prio s parkedThread < prio s (current s)
          ∨ (prio s parkedThread = prio s (current s)
             ∧ (prio s next ≠ prio s (current s)
                ∨ timesliceStart (threads s parkedThread)
                  < timesliceStart (threads s next)))) →
       s' = s).
Proof.
  intros Hparked Hon Hq Hnot. unfold WakeParkedThread, prio. run.
  rewrite Hparked, (cores_at_on_core _ _ _ _ Hon), Hq. simpl.
  set (wake := (priority (threads s parkedThread)
                <? priority (threads s (current s)))
               || (priority (threads s parkedThread)
                   =? priority (threads s (current s)))
                  && match
                       (if priority (threads s next)
                           =? priority (threads s (current s))
                        then Some next else None)
                     with
                     | Some n => timesliceStart (threads s parkedThread)
                                 <? timesliceStart (threads s n)
                     | None => true
                     end).
  assert (wake = true
          ↔ priority (threads s parkedThread) < priority (threads s (current s))
            ∨ (priority (threads s parkedThread)
               = priority (threads s (current s))
               ∧ (priority (threads s next) ≠ priority (threads s (current s))
                  ∨ timesliceStart (threads s parkedThread)
                    < timesliceStart (threads s next)))) as Hwake.
  { subst wake. rewrite orb_true_iff, andb_true_iff, Z.ltb_lt, Z.eqb_eq.
    destruct (Z.eqb_spec (priority (threads s next))
                (priority (threads s (current s)))) as [Heq|Hne].
    - rewrite Z.ltb_lt. intuition lia.
    - intuition lia. }
  destruct wake; run.
  - eexists. split; [reflexivity|]. simpl. split.
    + intros _. split; [done|]. split.
      * unfold parked_ready. simpl. rewrite Hparked, decide_True by done.
        rewrite bool_decide_eq_true_2 by done. simpl.
        by destruct (Z.eqb_spec (coreId (threads s (current s))) ParkedCoreId).
      * unfold ParkThread_leave. run.
        match goal with
        | |- context [InsertThread parkedThread ?s2] =>
            destruct (InsertThread_state s2 parkedThread c core)
              as (s3 & E3 & Hcores3 & _ & Hparked3 & _)
        end.
        { destruct Hon as (Hpos & Hc & Hcore). unfold on_core. simpl.
          by rewrite decide_True. }
        exists s3. split; [done|]. split; [|by rewrite Hparked3].
        destruct Hon as (_ & _ & Hcore). apply lookup_lt_Some in Hcore as Hlen.
        unfold queue_at. rewrite Hcores3. simpl.
        rewrite queue_at_alter by done. rewrite linked_Permutation. left.
    + intros Hno. exfalso. apply Hno. by apply Hwake.
  - exists s. split; [done|]. split; [|done].
    intros Hyes. apply Hwake in Hyes. done.
Qed.

Lemma WakeParkedThread_resumes_witness :
  ∃ s',
    WakeParkedThread two_ready_one_parked = Ok tt s'
    ∧ (prio two_ready_one_parked C
       < prio two_ready_one_parked (current two_ready_one_parked)
       ∨ (prio two_ready_one_parked C
          = prio two_ready_one_parked (current two_ready_one_parked)
          ∧ (prio two_ready_one_parked A
             ≠ prio two_ready_one_parked (current two_ready_one_parked)
             ∨ timesliceStart (threads two_ready_one_parked C)
               < timesliceStart (threads two_ready_one_parked A))) →
       trace s' = trace two_ready_one_parked ++ [ParkedNotify]
       ∧ parked_ready 4 s' C = true
       ∧ ∃ s'', ParkThread_leave (as_thread C s') = Ok tt s''
                ∧ C ∈ queue_at s'' 0
                ∧ parkedQueue s'' = C :: [])
    ∧ (¬ (prio two_ready_one_parked C
          < prio two_ready_one_parked (current two_ready_one_parked)
          ∨ (prio two_ready_one_parked C
             = prio two_ready_one_parked (current two_ready_one_parked)
             ∧ (prio two_ready_one_parked A
                ≠ prio two_ready_one_parked (current two_ready_one_parked)
                ∨ timesliceStart (threads two_ready_one_parked C)
                  < timesliceStart (threads two_ready_one_parked A)))) →
       s' = two_ready_one_parked).
Proof.
  apply (WakeParkedThread_resumes 4 two_ready_one_parked 0
           (mkCore 0 1 [B; A]) C [] B A []).
  - reflexivity.
  - repeat split. vm_compute. discriminate.
  - reflexivity.
  - vm_compute. discriminate.
Defined.

Lemma ParkThread_parks_or_moves_witness :
  ∃ parked s',
    ParkThread_enter 4 7 two_cores = Ok parked s'
    ∧ current s' = current two_cores
    ∧ queue_at s' 0 = removed (current two_cores) [B; C; A]
    ∧ (∀ c', c' ≠ 0%nat → queue_at s' c' = queue_at two_cores c')
    ∧ if (parked : bool) then
        coreId (threads s' (current two_cores)) = 4
        ∧ parkedQueue s' ≡ₚ current two_cores :: parkedQueue two_cores
        ∧ (valid_priorities two_cores →
           sorted_queue two_cores (parkedQueue two_cores) →
           parkedQueue s'
           = upto (prio two_cores) (prio two_cores (current two_cores))
               (parkedQueue two_cores)
             ++ current two_cores
                :: above (prio two_cores) (prio two_cores (current two_cores))
                     (parkedQueue two_cores))
        ∧ ∀ j core', cores two_cores !! j = Some core' →
            ¬ eligible two_cores (current two_cores) (Z.of_nat 0) core'
      else
        parkedQueue s' = parkedQueue two_cores
        ∧ ∃ j core',
            cores two_cores !! j = Some core'
            ∧ eligible two_cores (current two_cores) (Z.of_nat 0) core'
            ∧ coreId (threads s' (current two_cores)) = Z.of_nat j
            ∧ (∀ k core'', (j < k)%nat → cores two_cores !! k = Some core'' →
                 ¬ eligible two_cores (current two_cores) (Z.of_nat 0) core'')
            ∧ ∃ s'', ParkThread_leave s' = Ok tt s''
                     ∧ current two_cores ∈ queue_at s'' j.
Proof.
  apply (ParkThread_parks_or_moves 4 ltac:(lia) 7 two_cores 0
           (mkCore 0 1 [B; C; A])).
  - simpl. lia.
  - intros [|[|i]] core [= <-]; vm_compute; split; (done || lia).
  - repeat split. vm_compute. discriminate.
  - repeat constructor; eexists; vm_compute; reflexivity.
Defined.

End ParkingFacts.

Module WaitingFacts.
Import Scheduler SchedulerFacts SchedulerMore Waiting.

Lemma at_front_head s c thread :
  at_front s c thread = true ↔ head (queue_at s c) = Some thread.
Proof.
  unfold at_front. rewrite andb_true_iff, negb_true_iff.
  rewrite bool_decide_eq_false, bool_decide_eq_true.
  split; [by intros [_ ?]|]. intros Hh. split; [|done].
  by destruct (queue_at s c).
Qed.

Lemma wait_at_front c thread wakeups s :
  at_front s c thread = true → wait c thread wakeups s = Ok true s.
Proof. intros Hf. destruct wakeups; simpl; by rewrite Hf. Qed.

Lemma wait_balancing_at_front alwaysInsert c thread wakeups s :
  at_front s c thread = true →
  wait_balancing alwaysInsert c thread wakeups s = Ok (Some c) s.
Proof. intros Hf. destruct wakeups; simpl; by rewrite Hf. Qed.

(** The end of the waits, in full. *)
Lemma begin_timeslice_state now c core thread s :
  cores s !! c = Some core →
  ∃ s', begin_timeslice now c thread s = Ok tt s'
        ∧ cores s' = cores s ∧ current s' = current s
        ∧ YieldPending s' = YieldPending s ∧ parkedQueue s' = parkedQueue s
        ∧ trace s'
          = trace s
            ++ (if priority (threads s thread) =? preemptionPriority core
                then [TimerSet thread true] else [])
        ∧ (∀ u, u ≠ thread → threads s' u = threads s u)
        ∧ timesliceStart (threads s' thread) = now
        ∧ isPreempted (threads s' thread)
          = (priority (threads s thread) =? preemptionPriority core)
            || isPreempted (threads s thread)
        ∧ priority (threads s' thread) = priority (threads s thread)
        ∧ coreId (threads s' thread) = coreId (threads s thread)
        ∧ averageTimeslice (threads s' thread)
          = averageTimeslice (threads s thread)
        ∧ pendingYield (threads s' thread) = pendingYield (threads s thread)
        ∧ forceYield (threads s' thread) = forceYield (threads s thread).
Proof.
  intros Hc. unfold begin_timeslice. run. rewrite Hc.
  destruct (priority (threads s thread) =? preemptionPriority core); run;
    (eexists; split; [reflexivity|]; simpl; rewrite ?app_nil_r;
     repeat split; try done; try solve_threads;
     rewrite ?decide_True by done; done).
Qed.

Lemma WaitSchedule_at_front loadBalance alwaysInsert now wakeups s c core s' :
  on_core s (current s) c core → at_front s c (current s) = true →
  begin_timeslice now c (current s) s = Ok tt s' →
  WaitSchedule loadBalance alwaysInsert now wakeups s = Ok true s'.
Proof.
  intros Hon Hf E. unfold WaitSchedule. run.
  rewrite (cores_at_on_core _ _ _ _ Hon).
  destruct (loadBalance && _).
  - rewrite wait_balancing_at_front by done. by rewrite E.
  - rewrite wait_at_front by done. simpl. by rewrite E.
Qed.

Lemma WaitSchedule_asleep loadBalance alwaysInsert now s c core :
  on_core s (current s) c core → at_front s c (current s) = false →
  WaitSchedule loadBalance alwaysInsert now [] s = Ok false s.
Proof.
  intros Hon Hf. unfold WaitSchedule. run.
  rewrite (cores_at_on_core _ _ _ _ Hon).
  destruct (loadBalance && _); simpl; by rewrite Hf.
Qed.

(** A thread at the front does not wait. When the caller heads the queue of
    its core, [WaitSchedule] (with or without load balancing) and
    [TimedWaitSchedule] return at once, whatever the other threads would
    have done, and leave the same state: the queues are untouched, the
    timeslice of the caller starts at the clock reading, and the preemption
    timer is armed exactly when the caller's priority is the preemption
    priority of the core. *)
Theorem waits_return_at_once loadBalance alwaysInsert now wakeups sleep_ s c core :
  on_core s (current s) c core → head (queue core) = Some (current s) →
  ∃ s',
    WaitSchedule loadBalance alwaysInsert now wakeups s = Ok true s'
    ∧ TimedWaitSchedule now sleep_ s = Ok true s'
    ∧ cores s' = cores s
    ∧ timesliceStart (threads s' (current s)) = now
    ∧ isPreempted (threads s' (current s))
      = (prio s (current s) =? preemptionPriority core)
        || isPreempted (threads s (current s))
    ∧ trace s'
      = trace s
        ++ (if prio s (current s) =? preemptionPriority core
            then [TimerSet (current s) true] else [])
    ∧ (∀ u, u ≠ current s → threads s' u = threads s u).
Proof.
  intros Hon Hhead. pose proof Hon as (_ & _ & Hc).
  assert (at_front s c (current s) = true) as Hf.
  { apply at_front_head. unfold queue_at. by rewrite Hc. }
  destruct (begin_timeslice_state now c core (current s) s Hc)
    as (s' & E & Hcores & _ & _ & _ & Htrace & Hother & Hstart & Hpre & _).
  exists s'. split; [|split].
  - by apply (WaitSchedule_at_front _ _ _ _ s c core).
  - unfold TimedWaitSchedule, wait_for. run.
    rewrite (cores_at_on_core _ _ _ _ Hon), Hf. by rewrite E.
  - done.
Qed.

Lemma waits_return_at_once_witness :
  ∃ s',
    WaitSchedule true false 9 [] three_ready = Ok true s'
    ∧ TimedWaitSchedule 9 (λ s, s) three_ready = Ok true s'
    ∧ cores s' = cores three_ready
    ∧ timesliceStart (threads s' (current three_ready)) = 9
    ∧ isPreempted (threads s' (current three_ready))
      = (prio three_ready (current three_ready)
         =? preemptionPriority (mkCore 0 1 [B; C; A]))
        || isPreempted (threads three_ready (current three_ready))
    ∧ trace s'
      = trace three_ready
        ++ (if prio three_ready (current three_ready)
               =? preemptionPriority (mkCore 0 1 [B; C; A])
            then [TimerSet (current three_ready) true] else [])
    ∧ (∀ u, u ≠ current three_ready → threads s' u = threads three_ready u).
Proof.
  apply (waits_return_at_once true false 9 [] (λ s, s) three_ready 0
           (mkCore 0 1 [B; C; A])).
  - repeat split. vm_compute. discriminate.
  - reflexivity.
Defined.

(** A timed wait that ends with the caller not at the front returns [false]
    and has done nothing itself: the state is the one the other threads left.
    One that ends with the caller at the front returns [true] with the
    timeslice started. *)
Theorem TimedWaitSchedule_timeout now sleep_ s c core :
  on_core s (current s) c core → head (queue core) ≠ Some (current s) →
  length (cores (sleep_ s)) = length (cores s) →
  ∃ s',
    TimedWaitSchedule now sleep_ s
    = Ok (bool_decide (head (queue_at (sleep_ s) c) = Some (current s))) s'
    ∧ (head (queue_at (sleep_ s) c) ≠ Some (current s) → s' = sleep_ s)
    ∧ (head (queue_at (sleep_ s) c) = Some (current s) →
       cores s' = cores (sleep_ s)
       ∧ timesliceStart (threads s' (current s)) = now).
Proof.
  intros Hon Hhead Hlen. pose proof Hon as (_ & _ & Hc).
  assert (at_front s c (current s) = false) as Hf.
  { apply not_true_iff_false. rewrite at_front_head.
    unfold queue_at. by rewrite Hc. }
  unfold TimedWaitSchedule, wait_for. run.
  rewrite (cores_at_on_core _ _ _ _ Hon), Hf.
  destruct (at_front (sleep_ s) c (current s)) eqn:Hf'.
  - apply at_front_head in Hf' as Hh. rewrite bool_decide_eq_true_2 by done.
    destruct (lookup_lt_is_Some_2 (cores (sleep_ s)) c) as [core' Hc'].
    { rewrite Hlen. by apply lookup_lt_Some in Hc. }
    destruct (begin_timeslice_state now c core' (current s) (sleep_ s) Hc')
      as (s' & -> & Hcores & _ & _ & _ & _ & _ & Hstart & _).
    exists s'. done.
  - apply not_true_iff_false in Hf'. rewrite at_front_head in Hf'.
    rewrite bool_decide_eq_false_2 by done.
    exists (sleep_ s). done.
Qed.

Lemma TimedWaitSchedule_timeout_witness :
  ∃ s',
    TimedWaitSchedule 9 (λ s, s) (as_thread C three_ready)
    = Ok (bool_decide (head (queue_at ((λ s, s) (as_thread C three_ready)) 0)
                       = Some (current (as_thread C three_ready)))) s'
    ∧ (head (queue_at ((λ s, s) (as_thread C three_ready)) 0)
       ≠ Some (current (as_thread C three_ready)) →
       s' = (λ s, s) (as_thread C three_ready))
    ∧ (head (queue_at ((λ s, s) (as_thread C three_ready)) 0)
       = Some (current (as_thread C three_ready)) →
       cores s' = cores ((λ s, s) (as_thread C three_ready))
       ∧ timesliceStart (threads s' (current (as_thread C three_ready))) = 9).
Proof.
  apply (TimedWaitSchedule_timeout 9 (λ s, s) (as_thread C three_ready) 0
           (mkCore 0 1 [B; C; A])).
  - repeat split. vm_compute. discriminate.
  - vm_compute. discriminate.
  - reflexivity.
Defined.

(** [Rotate] by the front of a queue: what it leaves of the caller's fields
    and of the rest of the scheduler. *)
Lemma Rotate_fields cooperative now s c core rest :
  on_core s (current s) c core → queue core = current s :: rest →
  ∃ s', Rotate cooperative now s = Ok tt s'
        ∧ current s' = current s ∧ YieldPending s' = YieldPending s
        ∧ (∀ u, coreId (threads s' u) = coreId (threads s u)
                ∧ timesliceStart (threads s' u) = timesliceStart (threads s u))
        ∧ isPreempted (threads s' (current s)) = false
        ∧ pendingYield (threads s' (current s)) = false
        ∧ forceYield (threads s' (current s)) = false.
Proof.
  intros Hon Eq. unfold Rotate. run.
  rewrite (cores_at_on_core _ _ _ _ Hon), Eq. rewrite decide_True by done.
  destruct (bool_decide (head _ ≠ _)); run;
    destruct (cooperative && isPreempted _); run;
    (eexists; split; [reflexivity|]; simpl;
     repeat split; try done; try solve_threads;
     rewrite ?decide_True by done; done).
Qed.

(** [Rotate(false)] and [YieldPending = false], the first two steps of the
    signal handler, for a caller at the front of a sorted queue. *)
Lemma SignalHandler_rotate nowRotate s c core rest :
  valid_priorities s → on_core s (current s) c core →
  queue core = current s :: rest → sorted_queue s (queue core) →
  ∃ s0 core1,
    Rotate false nowRotate s = Ok tt s0
    ∧ ∀ s1, put_YieldPending false s0 = Ok tt s1 →
        on_core s1 (current s1) c core1
        ∧ current s1 = current s
        ∧ queue core1 = rotated s (queue core)
        ∧ preemptionPriority core1 = preemptionPriority core
        ∧ (∀ c', c' ≠ c → queue_at s1 c' = queue_at s c')
        ∧ YieldPending s1 = false
        ∧ trace s1
          = trace s
            ++ (if bool_decide (head (rotated s (queue core)) ≠ Some (current s))
                then [FrontNotify c] else [])
        ∧ (∀ u, u ≠ current s → threads s1 u = threads s u)
        ∧ priority (threads s1 (current s)) = priority (threads s (current s))
        ∧ timesliceStart (threads s1 (current s))
          = timesliceStart (threads s (current s))
        ∧ averageTimeslice (threads s1 (current s))
          = next_average nowRotate (threads s (current s))
        ∧ isPreempted (threads s1 (current s)) = false
        ∧ pendingYield (threads s1 (current s)) = false
        ∧ forceYield (threads s1 (current s)) = false.
Proof.
  intros Hv Hon Eq Hs.
  destruct (Rotate_state false nowRotate s c core rest Hon Eq)
    as (s' & E & Hcores & Htrace & Hother & Hprio & Havg).
  destruct (Rotate_fields false nowRotate s c core rest Hon Eq)
    as (s'' & E' & Hcur & _ & Hfields & Hpre & Hpy & Hfy).
  assert (s'' = s') as -> by congruence.
  pose proof Hon as (Hpos & Hcidx & Hc). apply lookup_lt_Some in Hc as Hlen.
  rewrite Eq in Hcores, Htrace, Hs.
  rewrite (splice_front_sorted s (current s) rest Hv Hs) in Hcores, Htrace.
  simpl in Htrace. rewrite app_nil_r in Htrace.
  exists s', (set_queue (rotated s (current s :: rest)) core).
  split; [done|]. intros s1 [= <-]. simpl. rewrite Eq.
  split.
  { unfold on_core. simpl. rewrite Hcur.
    destruct (Hfields (current s)) as [-> _].
    split; [done|]. split; [done|].
    by rewrite Hcores, list_lookup_alter_eq, Hc. }
  split; [done|]. split; [done|]. split; [done|]. split.
  { intros c' Hne. unfold queue_at. simpl. rewrite Hcores.
    by rewrite list_lookup_alter_ne. }
  split; [done|]. split; [done|]. split; [done|]. split; [done|].
  split; [apply Hfields|]. done.
Qed.

(** The signal handler of a thread that is alone in its priority band. For a
    caller at the front of a sorted queue, with no thread of its priority
    behind it, the handler returns without waiting, whatever the other
    threads would have done: the queue is as before, [YieldPending] and the
    yield flags of the caller are cleared, its average timeslice is updated,
    a new timeslice starts, and the preemption timer is armed exactly when
    the caller's priority is the preemption priority of the core. *)
Theorem SignalHandler_alone_resumes loadBalance alwaysInsert nowRotate now
    wakeups s c core rest :
  valid_priorities s → on_core s (current s) c core →
  queue core = current s :: rest → sorted_queue s (queue core) →
  NoDup (queue core) →
  (∀ next, head rest = Some next → prio s (current s) < prio s next) →
  ∃ s',
    SignalHandler true loadBalance alwaysInsert nowRotate now wakeups s
    = Ok true s'
    ∧ queue_at s' c = queue core
    ∧ (∀ c', c' ≠ c → queue_at s' c' = queue_at s c')
    ∧ YieldPending s' = false
    ∧ pendingYield (threads s' (current s)) = false
    ∧ forceYield (threads s' (current s)) = false
    ∧ averageTimeslice (threads s' (current s))
      = next_average nowRotate (threads s (current s))
    ∧ timesliceStart (threads s' (current s)) = now
    ∧ isPreempted (threads s' (current s))
      = (prio s (current s) =? preemptionPriority core)
    ∧ trace s'
      = trace s
        ++ (if prio s (current s) =? preemptionPriority core
            then [TimerSet (current s) true] else []).
Proof.
  intros Hv Hon Eq Hs Hnd Halone.
  destruct (SignalHandler_rotate nowRotate s c core rest Hv Hon Eq Hs)
    as (s0 & core1 & E0 & Hs1).
  destruct (put_YieldPending false s0) as [[] s1| |] eqn:E1; [|done..].
  destruct (Hs1 s1 eq_refl)
    as (Hon1 & Hcur1 & Hq1 & Hpp1 & Hframe1 & Hy1 & Htrace1
        & Hother1 & Hprio1 & _ & Havg1 & Hpre1 & Hpy1 & Hfy1).
  clear Hs1. rewrite Eq in Hs, Hnd.
  pose proof (proj2 (rotated_head s (current s) rest Hs Hnd) Halone) as Hhead.
  assert (rotated s (current s :: rest) = current s :: rest) as Hsame.
  { simpl. apply StronglySorted_cons in Hs as [Hall Hs'].
    destruct rest as [|next rest']; [done|].
    specialize (Halone next eq_refl).
    rewrite (upto_none (prio s)), (above_all (prio s)); [done| |].
    - apply Forall_cons in Hall as [_ Hall]. apply Forall_cons.
      split; [done|].
      apply StronglySorted_cons in Hs' as [Hall' _].
      eapply Forall_impl; [exact Hall'|]. simpl. intros; lia.
    - apply Forall_cons. split; [done|].
      apply StronglySorted_cons in Hs' as [Hall' _].
      eapply Forall_impl; [exact Hall'|]. simpl. intros; lia. }
  rewrite Eq, Hsame in Hq1, Htrace1.
  rewrite bool_decide_eq_false_2 in Htrace1 by (intros Hne; by apply Hne).
  rewrite app_nil_r in Htrace1.
  pose proof Hon1 as (_ & _ & Hc1).
  assert (at_front s1 c (current s1) = true) as Hf.
  { apply at_front_head. unfold queue_at. rewrite Hc1. simpl.
    by rewrite Hq1, Hcur1. }
  destruct (begin_timeslice_state now c core1 (current s1) s1 Hc1)
    as (s2 & E2 & Hcores2 & _ & Hy2 & _ & Htrace2 & Hother2 & Hstart2 & Hpre2
        & _ & _ & Havg2 & Hpy2 & Hfy2).
  rewrite Hcur1 in Hother2, Hstart2, Hpre2, Havg2, Hpy2, Hfy2, Htrace2.
  exists s2. split.
  { unfold SignalHandler, mbind, M_bind. rewrite E0, E1.
    by apply (WaitSchedule_at_front _ _ _ _ s1 c core1). }
  split. { unfold queue_at. rewrite Hcores2, Hc1. simpl. by rewrite Hq1, Eq. }
  split. { intros c' Hne. unfold queue_at. rewrite Hcores2. by apply Hframe1. }
  split; [congruence|]. split; [congruence|]. split; [congruence|].
  split; [congruence|]. split; [done|].
  split. { rewrite Hpre2, Hpre1, Hprio1, Hpp1. unfold prio. by rewrite orb_false_r. }
  rewrite Htrace2, Htrace1, Hprio1, Hpp1. done.
Qed.

Lemma SignalHandler_alone_resumes_witness :
  ∃ s',
    SignalHandler true true false 7 9 [] two_ready = Ok true s'
    ∧ queue_at s' 0 = [B; A]
    ∧ (∀ c', c' ≠ 0%nat → queue_at s' c' = queue_at two_ready c')
    ∧ YieldPending s' = false
    ∧ pendingYield (threads s' (current two_ready)) = false
    ∧ forceYield (threads s' (current two_ready)) = false
    ∧ averageTimeslice (threads s' (current two_ready))
      = next_average 7 (threads two_ready (current two_ready))
    ∧ timesliceStart (threads s' (current two_ready)) = 9
    ∧ isPreempted (threads s' (current two_ready))
      = (prio two_ready (current two_ready)
         =? preemptionPriority (mkCore 0 1 [B; A]))
    ∧ trace s'
      = trace two_ready
        ++ (if prio two_ready (current two_ready)
               =? preemptionPriority (mkCore 0 1 [B; A])
            then [TimerSet (current two_ready) true] else []).
Proof.
  apply (SignalHandler_alone_resumes true false 7 9 [] two_ready 0
           (mkCore 0 1 [B; A]) [A]).
  - apply valid_priorities_scenario.
  - repeat split. vm_compute. discriminate.
  - reflexivity.
  - repeat constructor; vm_compute; discriminate.
  - repeat constructor; vm_compute; intros H;
      repeat (apply elem_of_cons in H as [H|H]; [discriminate|]);
      by apply elem_of_nil in H.
  - intros next [= <-]. vm_compute. reflexivity.
Defined.

Lemma Rotate_affinityMask cooperative now s s' :
  Rotate cooperative now s = Ok tt s' →
  ∀ u, affinityMask (threads s' u) = affinityMask (threads s u).
Proof.
  intros E u. revert E. unfold Rotate. run.
  destruct (cores_at_cases (coreId (threads s (current s))) s)
    as [(c & core & -> & _)| ->]; [|done].
  destruct (queue core) as [|front rest]; run; [done|].
  destruct (decide (front = current s)); run.
  - destruct (bool_decide (head _ ≠ _)); run;
      destruct (cooperative && isPreempted _); run;
      intros [= <-]; simpl; repeat (destruct (decide _); simpl); done.
  - destruct (forceYield (threads s (current s))); run; [|done].
    destruct (cooperative && isPreempted _); run;
      intros [= <-]; simpl; repeat (destruct (decide _); simpl); done.
Qed.

(** The plain wait of a thread that is not at the front, while the other
    threads do nothing: however often it wakes up, it goes back to sleep. *)
Lemma wait_asleep c thread wakeups s :
  at_front s c thread = false →
  Forall (λ w, ∀ s0, sleep w s0 = s0) wakeups →
  wait c thread wakeups s = Ok false s.
Proof.
  intros Hf Hidle. induction Hidle as [|w rest Hw _ IH]; simpl; rewrite Hf; [done|].
  by rewrite Hw.
Qed.

Lemma WaitSchedule_asleep_plain loadBalance alwaysInsert now wakeups s c core :
  on_core s (current s) c core → at_front s c (current s) = false →
  loadBalance = false
  ∨ (mask_count (affinityMask (threads s (current s))) ≤ 1)%nat →
  Forall (λ w, ∀ s0, sleep w s0 = s0) wakeups →
  WaitSchedule loadBalance alwaysInsert now wakeups s = Ok false s.
Proof.
  intros Hon Hf Hplain Hidle. unfold WaitSchedule. run.
  rewrite (cores_at_on_core _ _ _ _ Hon).
  assert (loadBalance
          && bool_decide
               (1 < mask_count (affinityMask (threads s (current s))))%nat
          = false) as ->.
  { destruct Hplain as [->|Hle]; [done|].
    rewrite bool_decide_eq_false_2 by lia. apply andb_false_r. }
  by rewrite wait_asleep.
Qed.

(** The signal handler of a thread with a peer. For a caller at the front of
    a sorted queue, followed by a thread of its own priority, the handler
    moves the caller behind the threads of that priority, notifies the core,
    and then waits: the peer heads the queue, no timeslice has started and
    no timer is armed. The handler has not returned when the wait begins;
    with the plain wait (no load balancing, or an affinity mask of at most
    one core) it has not returned either after any number of wake-ups during
    which the other threads did nothing. (With load balancing a timeout lets
    the caller move to another core, where the wait may end.) *)
Theorem SignalHandler_yields_to_peer loadBalance alwaysInsert nowRotate now
    wakeups s c core next rest :
  valid_priorities s → on_core s (current s) c core →
  queue core = current s :: next :: rest → sorted_queue s (queue core) →
  NoDup (queue core) → prio s next = prio s (current s) →
  wakeups = []
  ∨ ((loadBalance = false
      ∨ (mask_count (affinityMask (threads s (current s))) ≤ 1)%nat)
     ∧ Forall (λ w, ∀ s0, sleep w s0 = s0) wakeups) →
  ∃ s',
    SignalHandler true loadBalance alwaysInsert nowRotate now wakeups s
    = Ok false s'
    ∧ queue_at s' c = rotated s (queue core)
    ∧ head (queue_at s' c) = Some next
    ∧ YieldPending s' = false
    ∧ timesliceStart (threads s' (current s))
      = timesliceStart (threads s (current s))
    ∧ isPreempted (threads s' (current s)) = false
    ∧ trace s' = trace s ++ [FrontNotify c].
Proof.
  intros Hv Hon Eq Hs Hnd Hpeer Hwake.
  destruct (SignalHandler_rotate nowRotate s c core (next :: rest) Hv Hon Eq Hs)
    as (s0 & core1 & E0 & Hs1).
  destruct (put_YieldPending false s0) as [[] s1| |] eqn:E1; [|done..].
  destruct (Hs1 s1 eq_refl)
    as (Hon1 & Hcur1 & Hq1 & Hpp1 & Hframe1 & Hy1 & Htrace1
        & Hother1 & Hprio1 & Hstart & Havg1 & Hpre1 & Hpy1 & Hfy1).
  clear Hs1.
  assert (affinityMask (threads s1 (current s1))
          = affinityMask (threads s (current s))) as Hmask.
  { rewrite Hcur1. injection E1 as <-. simpl.
    apply (Rotate_affinityMask false nowRotate s s0 E0). }
  assert (head (rotated s (queue core)) = Some next) as Hhead.
  { rewrite Eq. simpl. rewrite upto_cons_le by lia. done. }
  assert (next ≠ current s) as Hne.
  { rewrite Eq in Hnd. apply NoDup_cons in Hnd as [Hnot _].
    intros ->. apply Hnot. left. }
  rewrite bool_decide_eq_true_2 in Htrace1 by (rewrite Hhead; congruence).
  pose proof Hon1 as (_ & _ & Hc1).
  assert (at_front s1 c (current s1) = false) as Hf.
  { apply not_true_iff_false. rewrite at_front_head.
    unfold queue_at. rewrite Hc1. simpl. rewrite Hq1, Hhead, Hcur1. congruence. }
  exists s1. split.
  { unfold SignalHandler, mbind, M_bind. rewrite E0, E1.
    destruct Hwake as [->|[Hplain Hidle]].
    - by apply (WaitSchedule_asleep _ _ _ s1 c core1).
    - apply (WaitSchedule_asleep_plain _ _ _ _ s1 c core1); [done|done| |done].
      by rewrite Hmask. }
  split. { unfold queue_at. rewrite Hc1. simpl. done. }
  split. { unfold queue_at. rewrite Hc1. simpl. by rewrite Hq1. }
  done.
Qed.

Lemma SignalHandler_yields_to_peer_witness :
  ∃ s',
    SignalHandler true false false 7 9
      [mkWakeup (λ s, s) (λ _, 7) 7; mkWakeup (λ s, s) (λ _, 8) 8] three_ready
    = Ok false s'
    ∧ queue_at s' 0 = rotated three_ready [B; C; A]
    ∧ head (queue_at s' 0) = Some C
    ∧ YieldPending s' = false
    ∧ timesliceStart (threads s' (current three_ready))
      = timesliceStart (threads three_ready (current three_ready))
    ∧ isPreempted (threads s' (current three_ready)) = false
    ∧ trace s' = trace three_ready ++ [FrontNotify 0].
Proof.
  apply (SignalHandler_yields_to_peer false false 7 9
           [mkWakeup (λ s, s) (λ _, 7) 7; mkWakeup (λ s, s) (λ _, 8) 8]
           three_ready 0 (mkCore 0 1 [B; C; A]) C [A]).
  - apply valid_priorities_scenario.
  - repeat split. vm_compute. discriminate.
  - reflexivity.
  - repeat constructor; vm_compute; discriminate.
  - repeat constructor; vm_compute; intros H;
      repeat (apply elem_of_cons in H as [H|H]; [discriminate|]);
      by apply elem_of_nil in H.
  - reflexivity.
  - right. split; [by left|]. by repeat constructor.
Defined.

(** The tail of [LoadBalance] on the path that migrates, for a target core
    whose queue is empty. *)
Lemma LoadBalance_move_idle s thread o optimal core :
  id optimal = Z.of_nat o → (o < 128)%nat → cores s !! o = Some core →
  queue core = [] →
  ∃ s', (update thread (set_coreId (to_i8 (id optimal)));;
         InsertThread thread;; emit (LogDebug thread);; mret o) s = Ok o s'
        ∧ coreId (threads s' thread) = Z.of_nat o
        ∧ current s' = current s
        ∧ cores s' = alter (set_queue [thread]) o (cores s).
Proof.
  intros Hid Ho Hc Hq. run. rewrite Hid, to_i8_small by lia.
  match goal with
  | |- context [InsertThread thread ?s2] =>
      destruct (InsertThread_state s2 thread o core)
        as (s' & -> & Hcores & Hcur & _ & _ & Hfields & _)
  end.
  { unfold on_core. simpl. rewrite decide_True by done. simpl.
    rewrite Nat2Z.id. split; [lia|done]. }
  eexists. split; [reflexivity|]. simpl.
  destruct (Hfields thread) as (_ & -> & _). simpl. rewrite decide_True by done.
  split; [done|]. split; [done|].
  rewrite Hcores. simpl. by rewrite Hq.
Qed.

Lemma alter_set_queue_lookup (q : list tid) (o i : nat)
    (cs : list CoreContext) (core' : CoreContext) :
  alter (set_queue q) o cs !! i = Some core' →
  ∃ core0, cs !! i = Some core0 ∧ id core' = id core0
           ∧ preemptionPriority core' = preemptionPriority core0
           ∧ (i ≠ o → core' = core0) ∧ (i = o → queue core' = q).
Proof.
  destruct (decide (i = o)) as [->|Hne].
  - rewrite list_lookup_alter_eq. destruct (cs !! o) as [core0|]; [|done].
    intros [= <-]. by exists core0.
  - rewrite list_lookup_alter_ne by done. intros Hi. by exists core'.
Qed.

(** [LoadBalance] of the caller when a permitted core other than its own is
    idle and every other permitted core has a positive estimate: the caller
    is moved to the idle core. *)
Lemma LoadBalance_to_idle alwaysInsert clock_ clockRemove_ s c cur o idle :
  core_ids_ok s → on_core s (current s) c cur →
  mask_covers s (current s) (cores s) →
  queue cur ≠ [] → (1 < mask_count (affinityMask (threads s (current s))))%nat →
  cores s !! o = Some idle → queue idle = [] → permitted s (current s) idle →
  o ≠ c →
  (∀ j core, cores s !! j = Some core → permitted s (current s) core → j ≠ o →
     0 < estimate s (current s) (clock_ j) (queue core)) →
  ∃ s',
    LoadBalance (current s) alwaysInsert clock_ clockRemove_ s = Ok o s'
    ∧ coreId (threads s' (current s)) = Z.of_nat o
    ∧ current s' = current s
    ∧ queue_at s' o = [current s]
    ∧ queue_at s' c
      = (if alwaysInsert then queue cur else removed (current s) (queue cur))
    ∧ ∀ i core', cores s' !! i = Some core' →
        ∃ core0, cores s !! i = Some core0 ∧ id core' = id core0
                 ∧ preemptionPriority core' = preemptionPriority core0.
Proof.
  intros Hids Hon Hcov Hq Hcount Ho Hidle Hperm Hoc Hbusy.
  unfold LoadBalance. run. rewrite (cores_at_on_core _ _ _ _ Hon).
  rewrite (bool_decide_eq_false_2 (queue cur = [])) by done.
  rewrite (bool_decide_eq_false_2 (mask_count _ = 1%nat)) by lia. simpl.
  destruct (select_core_best s (current s) c clock_ (cores s) s (cores s) 0 None 0)
    as (opt & m & -> & Hbest); [done|done|intros j t Hj; lia|].
  simpl in Hbest. pose proof Hon as (_ & _ & Hc).
  assert (candidate s (current s) clock_ (cores s) o 0) as Hcand0.
  { exists idle. split; [done|]. split; [done|]. by rewrite Hidle. }
  assert (opt = Some o) as ->.
  { destruct opt as [o'|]; [|by destruct (Hbest o 0 (candidate_lt _ _ _ _ _ _ Hcand0))].
    destruct Hbest as (_ & (core' & Ho' & Hperm' & Hm) & Hmin).
    destruct (Hmin o 0 (candidate_lt _ _ _ _ _ _ Hcand0) Hcand0) as [Hle _].
    destruct (decide (o' = o)) as [->|Hne]; [done|].
    specialize (Hbusy o' core' Ho' Hperm' Hne). lia. }
  rewrite decide_True by congruence. rewrite Ho.
  destruct (Hids o idle Ho) as [Hid Ho128].
  destruct alwaysInsert; simpl.
  - destruct (LoadBalance_move_idle s (current s) o idle idle Hid Ho128 Ho Hidle)
      as (s' & E & Hcid & Hcur & Hcores).
    exists s'. split; [exact E|]. split; [done|]. split; [done|].
    apply lookup_lt_Some in Ho as Hlen. unfold queue_at. rewrite Hcores.
    split; [by apply queue_at_alter|]. split.
    + rewrite list_lookup_alter_ne by done. by rewrite Hc.
    + intros i core' Hi.
      destruct (alter_set_queue_lookup _ _ _ _ _ Hi) as (core0 & ? & ? & ? & _).
      by exists core0.
  - rewrite bool_decide_eq_true_2 by done.
    destruct (RemoveThread_state clockRemove_ s c cur Hon)
      as (s1 & -> & Hq1 & Hframe1 & Hlen1 & Hcores1 & Hcur1 & _).
    destruct (lookup_lt_is_Some_2 (cores s1) o) as [idle1 Ho1].
    { rewrite Hlen1. by apply lookup_lt_Some in Ho. }
    assert (queue idle1 = []) as Hidle1.
    { specialize (Hframe1 o Hoc). unfold queue_at in Hframe1.
      rewrite Ho1, Ho in Hframe1. simpl in Hframe1. congruence. }
    destruct (LoadBalance_move_idle s1 (current s) o idle idle1 Hid Ho128 Ho1 Hidle1)
      as (s' & E & Hcid & Hcur & Hcores).
    exists s'. split; [exact E|]. split; [done|]. split; [congruence|].
    apply lookup_lt_Some in Ho1 as Hlen. unfold queue_at. rewrite Hcores.
    split; [by apply queue_at_alter|]. split.
    + rewrite list_lookup_alter_ne by done. exact Hq1.
    + intros i core' Hi.
      destruct (alter_set_queue_lookup _ _ _ _ _ Hi) as (core1 & Hi1 & -> & -> & _).
      by apply Hcores1.
Qed.

(** A waiting thread moves to an idle core. The caller of [WaitSchedule]
    with load balancing is queued behind the front of its core; another core
    that its mask permits is idle, and every other permitted core has a
    positive estimate. If the other threads do nothing until the first
    timeout, the caller balances its load once: it is assigned to the idle
    core and alone in its queue, it has left the queue of its former core
    (unless [LoadBalance] inserts without removing), and [WaitSchedule]
    returns with its timeslice started, without using up a second wake-up. *)
Theorem WaitSchedule_migrates_to_idle_core alwaysInsert now w wakeups
    s c cur o idle :
  core_ids_ok s → on_core s (current s) c cur →
  mask_covers s (current s) (cores s) →
  queue cur ≠ [] → head (queue cur) ≠ Some (current s) →
  (1 < mask_count (affinityMask (threads s (current s))))%nat →
  sleep w s = s →
  cores s !! o = Some idle → queue idle = [] → permitted s (current s) idle →
  o ≠ c →
  (∀ j core, cores s !! j = Some core → permitted s (current s) core → j ≠ o →
     0 < estimate s (current s) (clock w j) (queue core)) →
  ∃ s',
    WaitSchedule true alwaysInsert now (w :: wakeups) s = Ok true s'
    ∧ coreId (threads s' (current s)) = Z.of_nat o
    ∧ queue_at s' o = [current s]
    ∧ queue_at s' c
      = (if alwaysInsert then queue cur else removed (current s) (queue cur))
    ∧ timesliceStart (threads s' (current s)) = now.
Proof.
  intros Hids Hon Hcov Hq Hhead Hcount Hsleep Ho Hidle Hperm Hoc Hbusy.
  destruct (LoadBalance_to_idle alwaysInsert (clock w) (clockRemove w) s c cur o
              idle Hids Hon Hcov Hq Hcount Ho Hidle Hperm Hoc Hbusy)
    as (s2 & E & Hcid & Hcur & Hqo & Hqc & Hcores2).
  pose proof Hon as (_ & _ & Hc).
  assert (at_front s c (current s) = false) as Hf.
  { apply not_true_iff_false. rewrite at_front_head.
    unfold queue_at. by rewrite Hc. }
  destruct (lookup_lt_is_Some_2 (cores s2) c) as [core2c Hc2].
  { destruct (decide (c < length (cores s2))%nat) as [|Hge]; [done|].
    exfalso. apply Hq.
    assert (queue_at s2 c = []) as Hnil
      by (unfold queue_at; by rewrite lookup_ge_None_2 by lia).
    rewrite Hqc in Hnil. destruct alwaysInsert; [done|].
    destruct (queue cur) as [|x l] eqn:Ecur; [done|].
    destruct (decide (x = current s)) as [->|Hx]; [by destruct Hhead|].
    by rewrite removed_cons_ne in Hnil. }
  destruct (lookup_lt_is_Some_2 (cores s2) o) as [core2o Ho2].
  { destruct (decide (o < length (cores s2))%nat) as [|Hge]; [done|].
    unfold queue_at in Hqo. by rewrite lookup_ge_None_2 in Hqo by lia. }
  destruct (Hcores2 c core2c Hc2) as (core0 & Hc0 & Hidc & _).
  assert (core0 = cur) as -> by congruence.
  destruct (Hids c cur Hc) as [Hidcur _].
  assert (at_front s2 o (current s) = true) as Hfo.
  { apply at_front_head. by rewrite Hqo. }
  destruct (begin_timeslice_state now o core2o (current s) s2 Ho2)
    as (s' & E' & Hcores' & _ & _ & _ & _ & _ & Hstart & _ & _ & Hcid' & _).
  exists s'. split.
  { unfold WaitSchedule. run. rewrite (cores_at_on_core _ _ _ _ Hon).
    rewrite bool_decide_eq_true_2 by done. simpl.
    rewrite Hf, Hsleep, Hf. run. rewrite E. simpl. rewrite Hc2.
    destruct (Z.eqb_spec (coreId (threads s2 (current s))) (id core2c));
      [lia|].
    unfold cores_at. rewrite Hcid.
    destruct (Z.ltb_spec (Z.of_nat o) 0); [lia|].
    rewrite Nat2Z.id, Ho2. simpl.
    rewrite wait_balancing_at_front by done. by rewrite E'. }
  split; [congruence|].
  unfold queue_at in *. rewrite Hcores'. done.
Qed.

Lemma WaitSchedule_migrates_to_idle_core_witness :
  ∃ s',
    WaitSchedule true false 9 [mkWakeup (λ s, s) (λ _, 7) 7] two_cores
    = Ok true s'
    ∧ coreId (threads s' (current two_cores)) = Z.of_nat 1
    ∧ queue_at s' 1 = [current two_cores]
    ∧ queue_at s' 0
      = (if false then [B; C; A] else removed (current two_cores) [B; C; A])
    ∧ timesliceStart (threads s' (current two_cores)) = 9.
Proof.
  apply (WaitSchedule_migrates_to_idle_core false 9
           (mkWakeup (λ s, s) (λ _, 7) 7) [] two_cores 0 (mkCore 0 1 [B; C; A]) 1
           (mkCore 1 1 [])).
  - intros [|[|i]] core [= <-]; vm_compute; split; (done || lia).
  - repeat split. vm_compute. discriminate.
  - repeat constructor; eexists; vm_compute; reflexivity.
  - discriminate.
  - vm_compute. discriminate.
  - vm_compute. lia.
  - reflexivity.
  - reflexivity.
  - reflexivity.
  - reflexivity.
  - lia.
  - intros [|[|j]] core [= <-] _ Hj; [|done].
    vm_compute. reflexivity.
Defined.

End WaitingFacts.
